(** * kopia/repo: pack index builder, disk index cache, logging storage wrapper

    Shallow embedding of
      - block/builder.go                           (packIndexBuilder: Add, sortedBlocks, Build)
      - block/committed_block_index_disk_cache.go  (addBlockToCache, writeTempFileAtomic,
                                                    expireUnused)
      - storage/logging                            (loggingStorage)
    and a model, after the specification, of the block manager's put, flush,
    get and RecoverIndexFromPackFile, followed by the properties of the
    repository specification that these functions decide, and by further
    properties of the embedded code.

    Conventions.  A Go fixed-width integer is a [Z] together with its
    wrap-around ([u8], [u16], [u32], [u64] below); a byte slice is a
    [list Z] of values in [0, 256); a Go [string] is a [string]; a Go map
    keyed by strings is a [gmap string _]. *)

From Stdlib Require Import ZArith Lia.
From stdpp Require Import base option list strings gmap sorting pretty.

Local Open Scope Z_scope.

(* ===================================================================== *)
(** * Part I: definitions *)
(* ===================================================================== *)

(** ** Go machine integers and encoding/binary *)

Module gotypes.

Definition u8 (z : Z) : Z := z mod 2 ^ 8.
Definition u16 (z : Z) : Z := z mod 2 ^ 16.
Definition u32 (z : Z) : Z := z mod 2 ^ 32.
Definition u64 (z : Z) : Z := z mod 2 ^ 64.

(** [len] of a slice or of a string, as a Go [int]. *)
Definition len {A} (l : list A) : Z := Z.of_nat (length l).
Definition slen (s : string) : Z := Z.of_nat (String.length s).

(** [[]byte(s)] *)
Fixpoint bytesOf (s : string) : list Z :=
  match s with
  | EmptyString => []
  | String c s' => Z.of_N (Ascii.N_of_ascii c) :: bytesOf s'
  end.

(** [binary.BigEndian.PutUint16/32/64]: most significant byte first. *)
Definition putUint16 (v : Z) : list Z :=
  [u8 (v ≫ 8); u8 v].
Definition putUint32 (v : Z) : list Z :=
  [u8 (v ≫ 24); u8 (v ≫ 16); u8 (v ≫ 8); u8 v].
Definition putUint64 (v : Z) : list Z :=
  [u8 (v ≫ 56); u8 (v ≫ 48); u8 (v ≫ 40); u8 (v ≫ 32);
   u8 (v ≫ 24); u8 (v ≫ 16); u8 (v ≫ 8); u8 v].

(** [binary.BigEndian.Uint16/32/64], used to read fields back out of an
    encoded blob. *)
Definition beUint (bs : list Z) : Z :=
  foldl (λ acc b, Z.lor (acc ≪ 8) b) 0 bs.

(** [b[off : off+n]] *)
Definition slice {A} (off n : nat) (l : list A) : list A := take n (drop off l).

(** How a Go call ends: it returns normally, returns a non-nil [error],
    or panics. *)
Inductive outcome (A : Type) : Type :=
| Done (a : A)
| Failed (err : string)
| Panicked (msg : string).
Arguments Done {A} a.
Arguments Failed {A} err.
Arguments Panicked {A} msg.

Definition obind {A B} (m : outcome A) (k : A → outcome B) : outcome B :=
  match m with
  | Done a => k a
  | Failed e => Failed e
  | Panicked p => Panicked p
  end.

(** [fmt.Errorf(prefix + "%v", err)] around a failing call. *)
Definition wrapErr {A} (prefix : string) (m : outcome A) : outcome A :=
  match m with
  | Failed e => Failed (prefix +:+ e)
  | other => other
  end.

End gotypes.
Export gotypes.

Global Instance outcome_bind : MBind outcome := λ A B k m, obind m k.
Global Instance outcome_ret : MRet outcome := λ A a, Done a.

(** ** block/builder.go *)

Module block.

(** Modelled from the spec: the [Info] struct is declared outside
    builder.go.  Its fields are the ones builder.go reads, with the types
    the spec's data model gives them ("pack-file ID (string), byte offset
    inside that pack, length in bytes, timestamp in whole seconds,
    format-version byte, deleted flag, optional inline payload") and that
    the calls in [formatEntry] require: [PackOffset] and [Length] are
    passed to [PutUint32] unconverted, so they are [uint32]. *)
Record Info : Type := mkInfo {
  BlockID : string;
  Length : Z;              (* uint32 *)
  TimestampSeconds : Z;    (* int64 *)
  PackFile : string;
  PackOffset : Z;          (* uint32 *)
  Deleted : bool;
  Payload : list Z;        (* []byte *)
  FormatVersion : Z        (* byte *)
}.

Global Instance Info_eq_dec : EqDecision Info.
Proof. solve_decision. Defined.

(** The values a Go [Info] can hold. *)
Definition Info_typed (i : Info) : Prop :=
  0 ≤ Length i < 2 ^ 32 ∧
  - 2 ^ 63 ≤ TimestampSeconds i < 2 ^ 63 ∧
  0 ≤ PackOffset i < 2 ^ 32 ∧
  0 ≤ FormatVersion i < 2 ^ 8.

(** [type packIndexBuilder map[string]*Info].  Every entry is a private
    copy ([&i] of the by-value parameter), so the pointers carry no
    aliasing and the map is a finite map to [Info] values. *)
Abbreviation packIndexBuilder := (gmap string Info).

(** [func (b packIndexBuilder) Add(i Info)] *)
Definition Add (b : packIndexBuilder) (i : Info) : packIndexBuilder :=
  match b !! BlockID i with
  | None => <[BlockID i := i]> b
  | Some old =>
      if TimestampSeconds i >=? TimestampSeconds old
      then <[BlockID i := i]> b
      else b
  end.

(** Every entry of a builder filled through [Add] sits under its own
    [BlockID]. *)
Definition keyed (b : packIndexBuilder) : Prop :=
  ∀ k i, b !! k = Some i → BlockID i = k.

(** The comparison passed to [sort.Slice], as the order it induces. *)
Definition blockLe (x y : Info) : Prop := String.le (BlockID x) (BlockID y).

Global Instance blockLe_dec : RelDecision blockLe.
Proof. intros x y. unfold blockLe. apply _. Defined.

(** [func (b packIndexBuilder) sortedBlocks() []*Info]: the values of the
    map, in whatever order the map yields them, sorted by [BlockID].
    [sort.Slice] is not stable; the keys of a builder filled through [Add]
    are pairwise distinct, which leaves one sorted arrangement. *)
Definition sortedBlocks (b : packIndexBuilder) : list Info :=
  merge_sort blockLe ((map_to_list b).*2).

Record indexLayout : Type := mkLayout {
  packFileOffsets : gmap string Z;   (* map[string]uint32 *)
  entryCount : Z;
  keyLength : Z;
  entryLength : Z;
  extraDataOffset : Z                (* uint32 *)
}.

(** The [bufio.Writer] that [Build] wraps around its [output]: whether a
    [Write] of a chunk, or the final [Flush], reports an error of the
    underlying [io.Writer], given the bytes accepted so far. *)
Record ioWriter : Type := mkWriter {
  write_err : list Z → list Z → option string;
  flush_err : list Z → option string
}.

(** A sink that accepts everything, such as a [bytes.Buffer]. *)
Definition bytesBuffer : ioWriter :=
  {| write_err := λ _ _, None; flush_err := λ _, None |}.

Definition accepts (w : ioWriter) : Prop :=
  (∀ acc p, write_err w acc p = None) ∧ (∀ acc, flush_err w acc = None).

(** [w.Write(p)] on the bytes accepted so far. *)
Definition wWrite (w : ioWriter) (acc p : list Z) : outcome (list Z) :=
  match write_err w acc p with
  | Some e => Failed e
  | None => Done (acc ++ p)
  end.

Definition wFlush (w : ioWriter) (acc : list Z) : outcome (list Z) :=
  match flush_err w acc with
  | Some e => Failed e
  | None => Done acc
  end.

Section Builder.

(** [contentIDToBytes] is declared outside builder.go; the builder only
    needs it to be a function from content IDs to key bytes. *)
Variable contentIDToBytes : string → list Z.

(** The body of the loop of [prepareExtraData], at index [i]. *)
Fixpoint prepareExtraData_loop (i : nat) (blocks : list Info)
    (layout : indexLayout) (extraData : list Z)
    : outcome (list Z * indexLayout) :=
  match blocks with
  | [] => Done (extraData, layout)
  | it :: rest =>
      let layout1 :=
        if decide (i = 0%nat)
        then mkLayout (packFileOffsets layout) (entryCount layout)
                      (len (contentIDToBytes (BlockID it)))
                      (entryLength layout) (extraDataOffset layout)
        else layout in
      let '(layout2, extraData2) :=
        if decide (PackFile it ≠ "")
        then match packFileOffsets layout1 !! PackFile it with
             | None =>
                 (mkLayout (<[PackFile it := u32 (len extraData)]>
                              (packFileOffsets layout1))
                           (entryCount layout1) (keyLength layout1)
                           (entryLength layout1) (extraDataOffset layout1),
                  extraData ++ bytesOf (PackFile it))
             | Some _ => (layout1, extraData)
             end
        else (layout1, extraData) in
      if decide (0 < len (Payload it))
      then Panicked "storing payloads in indexes is not supported"
      else prepareExtraData_loop (S i) rest layout2 extraData2
  end.

(** [func prepareExtraData(allBlocks []*Info, layout *indexLayout) []byte] *)
Definition prepareExtraData (allBlocks : list Info) (layout : indexLayout)
    : outcome (list Z * indexLayout) :=
  '(extraData, layout') ← prepareExtraData_loop 0 allBlocks layout [];
  Done (extraData,
        mkLayout (packFileOffsets layout') (entryCount layout')
                 (keyLength layout') (entryLength layout')
                 (u32 (8 + entryCount layout'
                           * (keyLength layout' + entryLength layout')))).

(** [func formatEntry(entry []byte, it *Info, layout *indexLayout) error].
    The four sub-slices cover all 20 bytes of the shared [entry] buffer
    and each is overwritten, so the buffer after a successful call is a
    function of [it] and [layout] alone. *)
Definition formatEntry (it : Info) (layout : indexLayout) : outcome (list Z) :=
  let timestampAndFlags := u64 (u64 (TimestampSeconds it) ≪ 16) in
  if decide (slen (PackFile it) = 0)
  then Failed ("empty pack block ID for " +:+ BlockID it)
  else
    let entryPackFileOffset :=
      putUint32 (u32 (extraDataOffset layout
                      + default 0 (packFileOffsets layout !! PackFile it))) in
    let entryPackedOffset :=
      if Deleted it
      then putUint32 (Z.lor (PackOffset it) 2147483648)
      else putUint32 (PackOffset it) in
    let entryPackedLength := putUint32 (Length it) in
    let timestampAndFlags :=
      Z.lor timestampAndFlags (u64 (u64 (FormatVersion it) ≪ 8)) in
    let timestampAndFlags :=
      Z.lor timestampAndFlags (u64 (slen (PackFile it))) in
    let entryTimestampAndFlags := putUint64 timestampAndFlags in
    Done (entryTimestampAndFlags ++ entryPackFileOffset
          ++ entryPackedOffset ++ entryPackedLength).

(** [func writeEntry(w io.Writer, it *Info, layout *indexLayout, entry []byte) error] *)
Definition writeEntry (w : ioWriter) (acc : list Z) (it : Info)
    (layout : indexLayout) : outcome (list Z) :=
  let k := contentIDToBytes (BlockID it) in
  if decide (len k ≠ keyLength layout)
  then Failed ("inconsistent key length: " +:+ pretty (len k)
               +:+ " vs " +:+ pretty (keyLength layout))
  else
    entry ← wrapErr "unable to format entry: " (formatEntry it layout);
    acc1 ← wrapErr "error writing entry key: " (wWrite w acc k);
    wrapErr "error writing entry: " (wWrite w acc1 entry).

(** The loop [for _, it := range allBlocks] of [Build]. *)
Fixpoint writeEntries (w : ioWriter) (acc : list Z) (blocks : list Info)
    (layout : indexLayout) : outcome (list Z) :=
  match blocks with
  | [] => Done acc
  | it :: rest =>
      acc1 ← wrapErr "unable to write entry: " (writeEntry w acc it layout);
      writeEntries w acc1 rest layout
  end.

(** [func (b packIndexBuilder) Build(output io.Writer) error]: the bytes
    that reached [output] when the call returns [nil]. *)
Definition Build (output : ioWriter) (b : packIndexBuilder) : outcome (list Z) :=
  let allBlocks := sortedBlocks b in
  let layout :=
    {| packFileOffsets := ∅; keyLength := -1; entryLength := 20;
       entryCount := len allBlocks; extraDataOffset := 0 |} in
  '(extraData, layout) ← prepareExtraData allBlocks layout;
  let header :=
    [1; u8 (keyLength layout)]
    ++ putUint16 (u16 (entryLength layout))
    ++ putUint32 (u32 (entryCount layout)) in
  acc ← wrapErr "unable to write header: " (wWrite output [] header);
  acc ← writeEntries output acc allBlocks layout;
  acc ← wrapErr "error writing extra data: " (wWrite output acc extraData);
  wFlush output acc.

End Builder.

(** *** The layout of an index blob, read back

    Entry [i] of a blob whose keys are [kl] bytes wide starts at byte
    [8 + i * (kl + 20)]: the key, then the 20-byte body.  The names are
    those of the sub-slices in [formatEntry]. *)
Definition entryKey (kl i : nat) (blob : list Z) : list Z :=
  slice (8 + i * (kl + 20)) kl blob.
Definition entryBody (kl i : nat) (blob : list Z) : list Z :=
  slice (8 + i * (kl + 20) + kl) 20 blob.
Definition extraDataSection (kl n : nat) (blob : list Z) : list Z :=
  drop (8 + n * (kl + 20)) blob.

Definition entryTimestampAndFlags (body : list Z) : Z := beUint (slice 0 8 body).
Definition entryPackFileOffset (body : list Z) : Z := beUint (slice 8 4 body).
Definition entryPackedOffset (body : list Z) : Z := beUint (slice 12 4 body).
Definition entryPackedLength (body : list Z) : Z := beUint (slice 16 4 body).

(** The distinct strings of a list, in the order of their first
    occurrence, starting from those already [seen]. *)
Definition firstSeenFrom (seen ps : list string) : list string :=
  foldl (λ seen p, if decide (p ∈ seen) then seen else seen ++ [p]) seen ps.
Definition firstSeen (ps : list string) : list string := firstSeenFrom [] ps.

(** *** Properties of infos, layouts and blobs used in the statements *)

(** The infos whose fields fit the bit fields of an entry: 48 bits of
    timestamp, 8 bits of pack-file-ID length, 31 bits of pack offset. *)
Definition representable (it : Info) : Prop :=
  0 ≤ TimestampSeconds it < 2 ^ 48 ∧
  slen (PackFile it) < 2 ^ 8 ∧
  PackOffset it < 2 ^ 31.

Section Layout.

Variable contentIDToBytes : string → list Z.
Implicit Types (it : Info) (layout : indexLayout).

(** The width of the keys of an index: that of its first entry. *)
Definition keyWidth (blocks : list Info) : nat :=
  match blocks with
  | [] => 0
  | it :: _ => length (contentIDToBytes (BlockID it))
  end.

(** What a successful [writeEntry] appended. *)
Definition encoded it layout (body : list Z) : Prop :=
  formatEntry it layout = Done body ∧
  len (contentIDToBytes (BlockID it)) = keyLength layout.

(** The offsets map and the extra data after the pack-file IDs [seen]
    have been appended, in that order. *)
Definition offsetsFor (seen : list string) (offs : gmap string Z)
    (extraData : list Z) : Prop :=
  NoDup seen ∧
  extraData = concat (bytesOf <$> seen) ∧
  (∀ p, p ∈ seen ↔ is_Some (offs !! p)) ∧
  (∀ pre p post, seen = pre ++ p :: post →
     offs !! p = Some (u32 (len (concat (bytesOf <$> pre))))).

(** The layout record and the bytes of a successful [Build]. *)
Definition built (blocks : list Info) layout (bodies : list (list Z))
    (out : list Z) : Prop :=
  entryCount layout = len blocks ∧
  entryLength layout = 20 ∧
  keyLength layout
    = match blocks with
      | [] => -1
      | it :: _ => len (contentIDToBytes (BlockID it))
      end ∧
  extraDataOffset layout
    = u32 (8 + len blocks * (keyLength layout + 20)) ∧
  offsetsFor (firstSeen (PackFile <$> blocks)) (packFileOffsets layout)
             (concat (bytesOf <$> firstSeen (PackFile <$> blocks))) ∧
  Forall2 (λ it body, encoded it layout body) blocks bodies ∧
  out = ([1; u8 (keyLength layout); 0; 20] ++ putUint32 (u32 (len blocks)))
        ++ concat (zip_with (λ it body, contentIDToBytes (BlockID it) ++ body)
                            blocks bodies)
        ++ concat (bytesOf <$> firstSeen (PackFile <$> blocks)).

End Layout.

End block.

(** ** block/committed_block_index_disk_cache.go *)

Module diskcache.

(** An error of the [os] package, as far as the cache looks at one: whether
    [os.IsNotExist] holds of it, and its text. *)
Record oserror : Type := mkOsError {
  notExist : bool;
  message : string
}.

(** A Go [error] returned by the cache: an [os] error handed on unchanged,
    or one made by [fmt.Errorf]. *)
Inductive error : Type :=
| OsError (e : oserror)
| Errorf (msg : string).

(** The calls into [os] and [ioutil], each with the type of what it
    returns.  [TempFile] returns the name of the file it created and
    opened; the result of [MkdirAll] is dropped by the caller. *)
Inductive call : Type → Type :=
| Stat (path : string) : call (option oserror)
| TempFile (dir pattern : string) : call (string + oserror)
| MkdirAll (dir : string) : call unit
| FWrite (name : string) (data : list Z) : call (option oserror)
| FClose (name : string) : call (option oserror)
| Rename (oldpath newpath : string) : call (option oserror).

(** A computation that makes such calls. *)
Inductive io (A : Type) : Type :=
| Ret (a : A)
| Vis {X : Type} (c : call X) (k : X → io A).
Arguments Ret {A} a.
Arguments Vis {A X} c k.

Fixpoint io_bind {A B} (m : io A) (f : A → io B) : io B :=
  match m with
  | Ret a => f a
  | Vis c k => Vis c (λ x, io_bind (k x) f)
  end.

Definition perform {X} (c : call X) : io X := Vis c Ret.

Global Instance io_mbind : MBind io := λ A B f m, io_bind m f.
Global Instance io_mret : MRet io := λ A a, Ret a.

(** One call and what the operating system answered. *)
Inductive event : Type :=
| Ev {X : Type} (c : call X) (r : X).

(** [runs p tr a]: [p] can make the calls of [tr], get the answers of
    [tr], and return [a].  The answers are not constrained: other processes
    share the cache directory, and any call can fail. *)
Fixpoint runs {A} (p : io A) (tr : list event) (a : A) : Prop :=
  match p with
  | Ret a' => tr = [] ∧ a = a'
  | Vis c k => ∃ r tr', tr = Ev c r :: tr' ∧ runs (k r) tr' a
  end.

Definition isRename (ev : event) : bool :=
  match ev with
  | Ev c _ => match c with Rename _ _ => true | _ => false end
  end.

(** An operating system as a state machine, to execute a computation. *)
Record osModel (S : Type) : Type := mkOsModel {
  respond : ∀ X, call X → S → X * S
}.
Arguments respond {S} _ {X} _ _.

Fixpoint interp {S A} (os : osModel S) (p : io A) (s : S) : A * list event * S :=
  match p with
  | Ret a => (a, [], s)
  | Vis c k =>
      let '(r, s1) := respond os c s in
      let '(a, tr, s2) := interp os (k r) s1 in
      (a, Ev c r :: tr, s2)
  end.

(** [simpleIndexSuffix] *)
Definition simpleIndexSuffix : string := ".sndx".

Definition dquote : string := String (Ascii.ascii_of_nat 34) EmptyString.
(** What the verb [%q] of package [fmt] gives for a string of printable
    ASCII characters other than the double quote and the backslash: the
    string between double quotes.  It is the instance at which the examples
    run; [addBlockToCache] takes the verb as a parameter. *)
Definition quotePlain (s : string) : string := dquote +:+ s +:+ dquote.

(** [filepath.Join(dir, name)] where [dir] is a clean, non-empty path other
    than the root and [name] is a single path element (it holds no
    separator and is neither empty, "." nor ".."), as are the names that
    [ioutil.ReadDir] lists and the names that the cache makes from index
    block IDs without separators: there the cleaning that [filepath.Join]
    ends with changes nothing, and the result is [dir], a separator and
    [name].  Elsewhere the Go function returns the cleaned path; for single
    path elements under one directory it still gives equal paths only for
    equal names. *)
Definition Join (dir name : string) : string := dir +:+ "/" +:+ name.

Record diskCommittedBlockIndexCache : Type := mkCache {
  dirname : string
}.

(** [func (c *diskCommittedBlockIndexCache) indexBlockPath(indexBlockID string) string] *)
Definition indexBlockPath (c : diskCommittedBlockIndexCache) (indexBlockID : string)
    : string :=
  Join (dirname c) (indexBlockID +:+ simpleIndexSuffix).

(** [func (c *diskCommittedBlockIndexCache) hasIndexBlockID(indexBlockID string) (bool, error)] *)
Definition hasIndexBlockID (c : diskCommittedBlockIndexCache) (indexBlockID : string)
    : io (bool * option error) :=
  err ← perform (Stat (indexBlockPath c indexBlockID));
  match err with
  | None => Ret (true, None)
  | Some e =>
      if notExist e then Ret (false, None)
      else Ret (false, Some (OsError e))
  end.

(** [func writeTempFileAtomic(dirname string, data []byte) (string, error)] *)
Definition writeTempFileAtomic (dirname : string) (data : list Z)
    : io (string * option error) :=
  tf ← perform (TempFile dirname "tmp");
  tf ← match tf with
       | inr err =>
           if notExist err
           then _ ← perform (MkdirAll dirname); perform (TempFile dirname "tmp")
           else Ret tf
       | inl _ => Ret tf
       end;
  match tf with
  | inr err => Ret ("", Some (Errorf ("can't create tmp file: " +:+ message err)))
  | inl tf =>
      werr ← perform (FWrite tf data);
      match werr with
      | Some err =>
          Ret ("", Some (Errorf ("can't write to temp file: " +:+ message err)))
      | None =>
          cerr ← perform (FClose tf);
          match cerr with
          | Some _ => Ret ("", Some (Errorf "can't close tmp file"))
          | None => Ret (tf, None)
          end
      end
  end.

(** [func (c *diskCommittedBlockIndexCache) addBlockToCache(indexBlockID string, data []byte) error].
    [quote] is the verb [%q] of package [fmt], which the last error message
    applies to the ID: the ID between double quotes, with the characters
    that cannot stand there escaped. *)
Definition addBlockToCache (quote : string → string)
    (c : diskCommittedBlockIndexCache)
    (indexBlockID : string) (data : list Z) : io (option error) :=
  '(exists_, err) ← hasIndexBlockID c indexBlockID;
  match err with
  | Some e => Ret (Some e)
  | None =>
      if exists_ : bool then Ret None
      else
        '(tmpFile, err) ← writeTempFileAtomic (dirname c) data;
        match err with
        | Some e => Ret (Some e)
        | None =>
            rerr ← perform (Rename tmpFile (indexBlockPath c indexBlockID));
            match rerr with
            | Some _ =>
                '(exists_, err) ← hasIndexBlockID c indexBlockID;
                match err with
                | Some e => Ret (Some e)
                | None =>
                    if negb exists_
                    then Ret (Some (Errorf ("unsuccessful index write of block "
                                            +:+ quote indexBlockID)))
                    else Ret None
                end
            | None => Ret None
            end
        end
  end.

(** A cache directory of one process with nothing failing: the files by
    path, whether the directory exists, and how many temp files were made.
    [TempFile] names its [n]-th file [dir/tmp<n>]. *)
Record memfs : Type := mkMemfs {
  files : gmap string (list Z);
  dirExists : bool;
  tempCount : nat
}.

Definition enoent : oserror := mkOsError true "no such file or directory".

Definition memfs_respond (X : Type) (c : call X) (s : memfs) : X * memfs :=
  match c in call X return X * memfs with
  | Stat path =>
      (match files s !! path with Some _ => None | None => Some enoent end, s)
  | TempFile dir pattern =>
      if dirExists s
      then let name := Join dir (pattern +:+ pretty (tempCount s)) in
           (inl name, mkMemfs (<[name := []]> (files s)) true (S (tempCount s)))
      else (inr enoent, s)
  | MkdirAll dir => (tt, mkMemfs (files s) true (tempCount s))
  | FWrite name data =>
      match files s !! name with
      | Some old => (None, mkMemfs (<[name := old ++ data]> (files s))
                                   (dirExists s) (tempCount s))
      | None => (Some enoent, s)
      end
  | FClose name => (None, s)
  | Rename oldpath newpath =>
      match files s !! oldpath with
      | Some content =>
          (None, mkMemfs (<[newpath := content]> (delete oldpath (files s)))
                         (dirExists s) (tempCount s))
      | None => (Some enoent, s)
      end
  end.

Definition memfsModel : osModel memfs := mkOsModel memfs memfs_respond.

End diskcache.

(** ** storage: the blob-store interface *)

Module storage.

(** Modelled from the spec: [storage.BlockMetadata] is declared outside the
    sources at hand; the spec gives it as the metadata
    [{id, length, timestamp}] that [ListBlocks] passes to its callback. *)
Record BlockMetadata : Type := mkBlockMetadata {
  BlockID : string;
  Length : Z;
  Timestamp : Z
}.

Section Interface.

(** [W] is the state that a store and the callbacks act on (the blobs, the
    clock, whatever the callbacks capture); [Ctx], [Err] and [ConnInfo]
    stand for [context.Context], [error] and [storage.ConnectionInfo]. *)
Context {W Ctx Err ConnInfo : Type}.

(** A [ListBlocks] call in progress, from the side of the store: it has
    returned ([LDone]), or it invokes the callback with [bi] in state [w]
    and goes on from what the callback returns and the state it leaves
    ([LYield]). *)
Inductive listing : Type :=
| LDone (err : option Err) (w : W)
| LYield (bi : BlockMetadata) (w : W) (k : option Err → W → listing).

(** Modelled from the spec: the [storage.Storage] interface is declared
    outside the sources at hand; its methods are those the logging wrapper
    implements and the spec lists as the blob-store contract. *)
Record Storage : Type := mkStorage {
  GetBlock : Ctx → string → Z → Z → W → (list Z * option Err) * W;
  PutBlock : Ctx → string → list Z → W → option Err * W;
  DeleteBlock : Ctx → string → W → option Err * W;
  ListBlocks : Ctx → string → W → listing;
  Close : Ctx → W → option Err * W;
  ConnectionInfo : W → ConnInfo * W
}.

(** A callback is a closure: it acts on [W] and on what it has captured
    ([C]), which the store cannot see. *)
Definition callback (C : Type) : Type :=
  BlockMetadata → W → C → option Err * W * C.

(** Running a listing against a callback: the result of the call, with
    the metadata the callback was invoked with, in order. *)
Fixpoint drive {C} (cb : callback C) (l : listing) (c : C)
    : option Err * W * C * list BlockMetadata :=
  match l with
  | LDone err w => (err, w, c, [])
  | LYield bi w k =>
      let '(r, w1, c1) := cb bi w c in
      let '(err, w2, c2, seen) := drive cb (k r w1) c1 in
      (err, w2, c2, bi :: seen)
  end.

(** [st.ListBlocks(ctx, prefix, cb)] *)
Definition callListBlocks {C} (st : Storage) (ctx : Ctx) (prefix : string)
    (cb : callback C) (w : W) (c : C) : option Err * W * C * list BlockMetadata :=
  drive cb (ListBlocks st ctx prefix w) c.

End Interface.

Arguments listing : clear implicits.
Arguments Storage : clear implicits.
Arguments callback : clear implicits.

End storage.

(** ** storage/logging: the logging wrapper *)

Module logging.

(** An argument of a [printf] call. *)
Inductive arg : Type :=
| AString (s : string)
| AInt (z : Z)
| ABytes (b : list Z)
| ADuration (ns : Z)
| AError {Err : Type} (e : option Err).

Section Wrapper.

(** [Log] is the state of the [printf] sink. *)
Context {W Log Ctx Err ConnInfo : Type}.

(** [time.Now()], read off the state. *)
Variable now : W → Z.

Record loggingStorage : Type := mkLoggingStorage {
  base : storage.Storage W Ctx Err ConnInfo;
  printf : string → list arg → Log → Log;
  prefix : string
}.

(** [func (s *loggingStorage) GetBlock(ctx, id, offset, length) ([]byte, error)] *)
Definition GetBlock (s : loggingStorage) (ctx : Ctx) (id : string)
    (offset length : Z) (w : W) (lg : Log) : (list Z * option Err) * W * Log :=
  let t0 := now w in
  let '((result, err), w1) := storage.GetBlock (base s) ctx id offset length w in
  let dt := now w1 - t0 in
  let lg1 :=
    if decide (len result < 20)
    then printf s (prefix s +:+ "GetBlock(%q,%v,%v)=(%#v, %#v) took %v")
                [AString id; AInt offset; AInt length; ABytes result;
                 AError err; ADuration dt] lg
    else printf s (prefix s +:+ "GetBlock(%q,%v,%v)=({%#v bytes}, %#v) took %v")
                [AString id; AInt offset; AInt length; AInt (len result);
                 AError err; ADuration dt] lg in
  ((result, err), w1, lg1).

(** [func (s *loggingStorage) PutBlock(ctx, id, data) error] *)
Definition PutBlock (s : loggingStorage) (ctx : Ctx) (id : string)
    (data : list Z) (w : W) (lg : Log) : option Err * W * Log :=
  let t0 := now w in
  let '(err, w1) := storage.PutBlock (base s) ctx id data w in
  let dt := now w1 - t0 in
  (err, w1,
   printf s (prefix s +:+ "PutBlock(%q,len=%v)=%#v took %v")
          [AString id; AInt (len data); AError err; ADuration dt] lg).

(** [func (s *loggingStorage) DeleteBlock(ctx, id) error] *)
Definition DeleteBlock (s : loggingStorage) (ctx : Ctx) (id : string)
    (w : W) (lg : Log) : option Err * W * Log :=
  let t0 := now w in
  let '(err, w1) := storage.DeleteBlock (base s) ctx id w in
  let dt := now w1 - t0 in
  (err, w1,
   printf s (prefix s +:+ "DeleteBlock(%q)=%#v took %v")
          [AString id; AError err; ADuration dt] lg).

(** The closure that [ListBlocks] passes on: it counts, then calls the
    caller's callback. *)
Definition countingCallback {C} (cb : storage.callback W Err C)
    : storage.callback W Err (C * Z) :=
  λ bi w '(c, cnt),
    let cnt := cnt + 1 in
    let '(r, w1, c1) := cb bi w c in
    (r, w1, (c1, cnt)).

(** [func (s *loggingStorage) ListBlocks(ctx, prefix, callback) error] *)
Definition ListBlocks {C} (s : loggingStorage) (ctx : Ctx) (pfx : string)
    (cb : storage.callback W Err C) (w : W) (c : C) (lg : Log)
    : option Err * W * C * list storage.BlockMetadata * Log :=
  let t0 := now w in
  let cnt := 0 in
  let '(err, w1, (c1, cnt), seen) :=
    storage.callListBlocks (base s) ctx pfx (countingCallback cb) w (c, cnt) in
  (err, w1, c1, seen,
   printf s (prefix s +:+ "ListBlocks(%q)=%v returned %v items and took %v")
          [AString pfx; AError err; AInt cnt; ADuration (now w1 - t0)] lg).

(** [func (s *loggingStorage) Close(ctx) error] *)
Definition Close (s : loggingStorage) (ctx : Ctx) (w : W) (lg : Log)
    : option Err * W * Log :=
  let t0 := now w in
  let '(err, w1) := storage.Close (base s) ctx w in
  let dt := now w1 - t0 in
  (err, w1, printf s (prefix s +:+ "Close()=%#v took %v") [AError err; ADuration dt] lg).

(** [func (s *loggingStorage) ConnectionInfo() storage.ConnectionInfo] *)
Definition ConnectionInfo (s : loggingStorage) (w : W) (lg : Log)
    : ConnInfo * W * Log :=
  let '(ci, w1) := storage.ConnectionInfo (base s) w in (ci, w1, lg).

(** [type Option func(s *loggingStorage)] *)
Definition Option : Type := loggingStorage → loggingStorage.

(** [func NewWrapper(wrapped storage.Storage, options ...Option) storage.Storage];
    [debugf] stands for [log.Debugf]. *)
Definition NewWrapper (debugf : string → list arg → Log → Log)
    (wrapped : storage.Storage W Ctx Err ConnInfo) (options : list Option)
    : loggingStorage :=
  foldl (λ s o, o s) (mkLoggingStorage wrapped debugf "") options.

(** [func Output(outputFunc func(fmt string, args ...interface{})) Option] *)
Definition Output (outputFunc : string → list arg → Log → Log) : Option :=
  λ s, mkLoggingStorage (base s) outputFunc (prefix s).

(** [func Prefix(prefix string) Option] *)
Definition Prefix (pfx : string) : Option :=
  λ s, mkLoggingStorage (base s) (printf s) pfx.

(** What a caller of the store sees of a call through the wrapper: all
    but the log. *)
Definition observed {R} (x : R * Log) : R := x.1.

End Wrapper.

Arguments loggingStorage : clear implicits.
Arguments Option : clear implicits.

End logging.

(** ** The block manager: put, flush, get and recovery *)

Module blockmgr.

Import block.

(** Modelled from the spec: the block manager (its put, flush, get and
    [RecoverIndexFromPackFile]) is not among the sources; only the test
    [TestBlockIndexRecovery] is.  The definitions below follow the spec's
    component design: the blob store as a flat map from blob IDs to byte
    arrays, pack blobs under the prefix "p" and index blobs under "n"; the
    pack layout "payload_0 || ... || payload_k || embedded_block_table ||
    footer(16 bytes: table_offset u64, table_length u64)"; put with dedup
    and a pack-size threshold; flush steps (a) to (h); get through the
    pending and then the committed index, with the winner across indexes
    chosen by greater timestamp and deleted before live on ties; recovery
    from the footer and table of a pack blob, committing "exactly as in a
    flush".  The disk cache, a pure accelerator, is left out.  The index
    blob of a commit is what [Build] of builder.go writes into a buffer.
    The spec fixes neither the hash of content IDs nor the encoding of the
    embedded table, and [contentIDToBytes] and the parser of index blobs
    are not among the sources: these are the parameters of the section. *)
(** The blob store: a flat map from blob IDs to byte arrays. *)
Abbreviation storage := (gmap string (list Z)).

Section Manager.

Variable hashID : list Z → string.
Variable contentIDToBytes : string → list Z.
Variable maxPackSize : nat.
Variable now : Z.
Variable formatVersion : Z.
Variable openPackIndex : list Z → option packIndexBuilder.
Variable encodeTable : list Info → list Z.
Variable decodeTable : list Z → option (list Info).

Definition PackBlockPrefix : string := "p".
Definition newIndexBlockPrefix : string := "n".

(** [ListBlocks(prefix)] of the blob store. *)
Definition listBlocks (pfx : string) (st : storage) : list (string * list Z) :=
  filter (λ kv, String.prefix pfx kv.1 = true) (map_to_list st).

(** [GetBlock(id, offset, length)] of a blob that is there. *)
Definition getRange (offset length : Z) (blob : list Z) : list Z :=
  slice (Z.to_nat offset) (Z.to_nat length) blob.

(** A pack being assembled: the payloads so far, and their infos. *)
Record pendingPack : Type := mkPendingPack {
  packData : list Z;
  packEntries : list Info
}.

Definition emptyPack : pendingPack := mkPendingPack [] [].

Record Manager : Type := mkManager {
  st : storage;
  active : list (string * packIndexBuilder);
  closed : list pendingPack;
  current : pendingPack
}.

Definition pending (m : Manager) : list pendingPack := closed m ++ [current m].

(** The committed index: the winner among the hits of all active
    indexes. *)
Definition beats (a b : Info) : bool :=
  (TimestampSeconds b <? TimestampSeconds a)
  || ((TimestampSeconds a =? TimestampSeconds b) && Deleted a && negb (Deleted b)).

Definition pick (best hit : option Info) : option Info :=
  match best, hit with
  | None, _ => hit
  | Some _, None => best
  | Some b, Some h => if beats h b then Some h else Some b
  end.

Definition committedLookup (m : Manager) (id : string) : option Info :=
  match foldl pick None ((λ ix, ix.2 !! id) <$> active m) with
  | Some i => if Deleted i then None else Some i
  | None => None
  end.

(** The pending index: an info staged in a pack not yet flushed. *)
Definition pendingLookup (m : Manager) (id : string) : option (Info * pendingPack) :=
  head (omap (λ pk, (λ i, (i, pk)) <$>
                    head (filter (λ i, BlockID i = id) (packEntries pk)))
             (pending m)).

Inductive getResult : Type :=
| Found (payload : list Z)
| ErrBlockNotFound.

(** [Get(contentID)] *)
Definition Get (m : Manager) (id : string) : getResult :=
  match pendingLookup m id with
  | Some (i, pk) => Found (getRange (PackOffset i) (Length i) (packData pk))
  | None =>
      match committedLookup m id with
      | Some i =>
          match st m !! PackFile i with
          | Some blob => Found (getRange (PackOffset i) (Length i) blob)
          | None => ErrBlockNotFound
          end
      | None => ErrBlockNotFound
      end
  end.

(** [Put(contentID, payload)] *)
Definition Put (m : Manager) (id : string) (payload : list Z) : Manager :=
  if decide (is_Some (committedLookup m id) ∨ is_Some (pendingLookup m id))
  then m
  else
    let '(closed1, cur) :=
      if decide (packEntries (current m) ≠ []
                 ∧ (maxPackSize < length (packData (current m)) + length payload)%nat)
      then (closed m ++ [current m], emptyPack)
      else (closed m, current m) in
    let info := mkInfo id (len payload) now "" (len (packData cur)) false []
                       formatVersion in
    mkManager (st m) (active m) closed1
              (mkPendingPack (packData cur ++ payload) (packEntries cur ++ [info])).

(** Writing a block: its content ID is the hash of its payload. *)
Definition WriteBlock (m : Manager) (payload : list Z) : Manager :=
  Put m (hashID payload) payload.

(** The bytes of a pack blob. *)
Definition packBlob (pk : pendingPack) : list Z :=
  let table := encodeTable (packEntries pk) in
  packData pk ++ table ++ putUint64 (len (packData pk)) ++ putUint64 (len table).

Definition withPackFile (packID : string) (i : Info) : Info :=
  mkInfo (BlockID i) (Length i) (TimestampSeconds i) packID (PackOffset i)
         (Deleted i) (Payload i) (FormatVersion i).

(** Steps (c) to (g) of a flush: fold infos into a fresh builder, build
    the index blob with [Build] into a buffer, upload it under the index
    prefix, open it and add it to the active set.  A [Build] that returns an
    error or panics, or a blob that does not parse, fails the commit. *)
Definition commitIndex (m : Manager) (infos : list Info) : option Manager :=
  let b := foldl Add ∅ infos in
  match Build contentIDToBytes bytesBuffer b with
  | Done indexBlob =>
      let indexID := newIndexBlockPrefix +:+ hashID indexBlob in
      ix ← openPackIndex indexBlob;
      Some (mkManager (<[indexID := indexBlob]> (st m)) (active m ++ [(indexID, ix)])
                      (closed m) (current m))
  | Failed _ | Panicked _ => None
  end.

(** Steps (a) to (g) for one pack. *)
Definition flushPack (m : Manager) (pk : pendingPack) : option Manager :=
  let blob := packBlob pk in
  let packID := PackBlockPrefix +:+ hashID blob in
  commitIndex (mkManager (<[packID := blob]> (st m)) (active m) (closed m) (current m))
              (withPackFile packID <$> packEntries pk).

(** [Flush]: every closed or in-progress pack with at least one entry;
    then the pending state is dropped. *)
Definition Flush (m : Manager) : option Manager :=
  m1 ← foldl (λ acc pk, acc ≫= λ m0, flushPack m0 pk) (Some m)
             (filter (λ pk, packEntries pk ≠ []) (pending m));
  Some (mkManager (st m1) (active m1) [] emptyPack).

(** Reading the embedded block table of a pack blob of [packLength] bytes:
    the footer gives the table's offset and length. *)
Definition readPackTable (blob : list Z) (packLength : Z) : option (list Info) :=
  let footer := getRange (packLength - 16) 16 blob in
  let tableOffset := beUint (take 8 footer) in
  let tableLength := beUint (drop 8 footer) in
  decodeTable (getRange tableOffset tableLength blob).

(** [RecoverIndexFromPackFile(packID, packLength, commit)] *)
Definition RecoverIndexFromPackFile (m : Manager) (packID : string)
    (packLength : Z) (commit : bool) : option (list Info * Manager) :=
  blob ← st m !! packID;
  table ← readPackTable blob packLength;
  let infos := withPackFile packID <$> table in
  if commit
  then m1 ← commitIndex m infos; Some (infos, m1)
  else Some (infos, m).

(** Opening a manager over a store: the active set is the index blobs
    found there. *)
Definition newManager (s : storage) : Manager :=
  mkManager s
    (omap (λ kv, (λ ix, (kv.1, ix)) <$> openPackIndex kv.2)
          (listBlocks newIndexBlockPrefix s))
    [] emptyPack.

(** The passes of [TestBlockIndexRecovery]: deleting every index blob, and
    recovering from every pack blob in turn. *)
Definition deleteIndexBlobs (s : storage) : storage :=
  filter (λ kv, String.prefix newIndexBlockPrefix kv.1 ≠ true) s.

Definition recoverAll (commit : bool) (m : Manager)
    : option (list (list Info) * Manager) :=
  foldl (λ acc kv,
           '(recovered, m0) ← acc;
           '(infos, m1) ← RecoverIndexFromPackFile m0 kv.1 (len kv.2) commit;
           Some (recovered ++ [infos], m1))
        (Some ([], m)) (listBlocks PackBlockPrefix (st m)).

(** *** Invariants of the scenario *)

(** An info staged in a pack points at one of the payloads [written],
    inside the pack's data, whose hash is its content ID; it is live and
    carries no inline payload. *)
Definition stagedIn (written : list (list Z)) (pk : pendingPack) (i : Info) : Prop :=
  Deleted i = false ∧ 0 ≤ PackOffset i ∧ 0 ≤ Length i ∧
  (Z.to_nat (PackOffset i) + Z.to_nat (Length i) ≤ length (packData pk))%nat ∧
  getRange (PackOffset i) (Length i) (packData pk) ∈ written ∧
  hashID (getRange (PackOffset i) (Length i) (packData pk)) = BlockID i ∧
  Payload i = [].

Definition packsOK (written : list (list Z)) (P : list pendingPack) : Prop :=
  ∀ pk i, pk ∈ P → i ∈ packEntries pk → stagedIn written pk i.

Definition covered (P : list pendingPack) (id : string) : Prop :=
  ∃ pk i, pk ∈ P ∧ i ∈ packEntries pk ∧ BlockID i = id.

Definition packID (pk : pendingPack) : string :=
  PackBlockPrefix +:+ hashID (packBlob pk).

(** The pack blobs of a store are exactly the blobs of the packs [P]. *)
Definition packStore (P : list pendingPack) (s : storage) : Prop :=
  (∀ pk, pk ∈ P → s !! packID pk = Some (packBlob pk)) ∧
  (∀ id blob, s !! id = Some blob → String.prefix PackBlockPrefix id = true →
     ∃ pk, pk ∈ P ∧ id = packID pk ∧ blob = packBlob pk).

(** The index that recovery, or a flush, commits for a pack. *)
Definition indexOf (pk : pendingPack) : packIndexBuilder :=
  foldl Add ∅ (withPackFile (packID pk) <$> packEntries pk).

(** Its blob, when [Build] succeeds, and the ID of that blob. *)
Definition indexBlob (pk : pendingPack) : list Z :=
  match Build contentIDToBytes bytesBuffer (indexOf pk) with
  | Done blob => blob
  | Failed _ | Panicked _ => []
  end.

Definition indexID (pk : pendingPack) : string :=
  newIndexBlockPrefix +:+ hashID (indexBlob pk).

(** [Build] succeeds on the index of a pack, and the parser reads its blob
    back. *)
Definition indexReadsBack (pk : pendingPack) : Prop :=
  ∃ blob, Build contentIDToBytes bytesBuffer (indexOf pk) = Done blob ∧
          openPackIndex blob = Some (indexOf pk).

(** The hash tells apart the things that a run hashes. *)
Definition collisionFree (D : list (list Z)) : Prop :=
  ∀ x y, x ∈ D → y ∈ D → hashID x = hashID y → x = y.

(** A pack as the store lists it. *)
Definition blobOf (pk : pendingPack) : string * list Z := (packID pk, packBlob pk).

(** Every active index is the index of one of the packs [P], whose blob
    is in the store. *)
Definition indexed (P : list pendingPack) (m : Manager) : Prop :=
  (∀ pk, pk ∈ P → st m !! packID pk = Some (packBlob pk)) ∧
  (∀ ix, ix ∈ active m → ∃ pk, pk ∈ P ∧ ix.2 = indexOf pk).

End Manager.

(** *** A parser, a hash and a table layout to run the model *)

(** [string(bytes)] *)
Definition stringOf (bs : list Z) : string :=
  foldr (λ b s, String (Ascii.ascii_of_N (Z.to_N b)) s) EmptyString bs.

(** Modelled from the spec: the parser of index blobs is not among the
    sources.  It follows the layout of section 4.1: the header gives the
    key length and the number of entries; an entry is its key and the
    20-byte body, whose fields are the timestamp (high 48 bits of
    [timestampAndFlags]), the format version (next 8 bits), the length of
    the pack-file ID (low 8 bits), the offset of the pack-file ID in the
    blob, the offset in the pack with the tombstone flag in its high bit,
    and the length. *)
Definition parseEntry (bytesToContentID : list Z → string) (blob : list Z)
    (kl i : nat) : Info :=
  let body := entryBody kl i blob in
  let timestampAndFlags := entryTimestampAndFlags body in
  let packedOffset := entryPackedOffset body in
  mkInfo (bytesToContentID (entryKey kl i blob))
         (entryPackedLength body)
         (timestampAndFlags ≫ 16)
         (stringOf (slice (Z.to_nat (entryPackFileOffset body))
                          (Z.to_nat (Z.land timestampAndFlags 255)) blob))
         (Z.land packedOffset 2147483647)
         (Z.testbit packedOffset 31)
         []
         (Z.land (timestampAndFlags ≫ 8) 255).

Definition parseIndex (bytesToContentID : list Z → string) (blob : list Z)
    : option packIndexBuilder :=
  match blob with
  | version :: keyLength :: _ =>
      let kl := Z.to_nat keyLength in
      let n := Z.to_nat (beUint (slice 4 4 blob)) in
      if decide (version = 1 ∧ beUint (slice 2 2 blob) = 20
                 ∧ (8 + n * (kl + 20) ≤ length blob)%nat)
      then Some (foldl (λ b i, let it := parseEntry bytesToContentID blob kl i in
                               <[BlockID it := it]> b)
                       ∅ (seq 0 n))
      else None
  | _ => None
  end.

(** A content hash of fixed length: a 16-bit checksum in four hexadecimal
    digits. *)
Definition hexDigit (n : Z) : Ascii.ascii :=
  default (Ascii.ascii_of_nat 48)
          (String.list_ascii_of_string "0123456789abcdef" !! Z.to_nat n).

Definition checksumHash (payload : list Z) : string :=
  let h := foldl (λ acc b, (acc * 31 + b + 1) mod 65536) 7 payload in
  String.string_of_list_ascii
    [hexDigit (h ≫ 12); hexDigit (Z.land (h ≫ 8) 15);
     hexDigit (Z.land (h ≫ 4) 15); hexDigit (Z.land h 15)].

(** An embedded block table in the layout of an index blob.  The ID of the
    pack is not known before its bytes are final, so the table names a
    placeholder as pack file; reading it yields the entries in the order of
    their keys, without pack file. *)
Definition tablePackFile : string := "-".

Definition encodeIndexTable (entries : list Info) : list Z :=
  match Build bytesOf bytesBuffer (foldl Add ∅ (withPackFile tablePackFile <$> entries)) with
  | Done blob => blob
  | Failed _ | Panicked _ => []
  end.

Definition decodeIndexTable (table : list Z) : option (list Info) :=
  b ← parseIndex stringOf table;
  Some (withPackFile "" <$> sortedBlocks b).

End blockmgr.

(** ** block/committed_block_index_disk_cache.go: expiry of unused indexes *)

Module expiry.

Import diskcache.

(** [strings.HasSuffix]: [len(s) >= len(suffix) &&
    s[len(s)-len(suffix):] == suffix]. *)
Definition HasSuffix (s suffix : string) : bool :=
  bool_decide (String.length suffix ≤ String.length s)%nat
  && bool_decide (String.substring (String.length s - String.length suffix)
                                   (String.length suffix) s = suffix).

(** [strings.TrimSuffix]: [s[:len(s)-len(suffix)]] when [s] has the
    suffix, else [s]. *)
Definition TrimSuffix (s suffix : string) : string :=
  if HasSuffix s suffix
  then String.substring 0 (String.length s - String.length suffix) s
  else s.

(** Whether [os.PathSeparator] occurs in a string.  A name without it that
    ends in [simpleIndexSuffix] is a single path element. *)
Fixpoint hasSeparator (s : string) : bool :=
  match s with
  | EmptyString => false
  | String a s' => Ascii.eqb a (Ascii.ascii_of_nat 47) || hasSeparator s'
  end.

(** [unusedCommittedBlockIndexCleanupTime = 1 * time.Hour], in
    nanoseconds as a [time.Duration] is. *)
Definition unusedCommittedBlockIndexCleanupTime : Z := 3600 * 1000000000.

(** An [os.FileInfo], as far as [expireUnused] looks at one: [Name()] and
    [ModTime()], the latter in nanoseconds since the epoch. *)
Record FileInfo : Type := mkFileInfo {
  Name : string;
  ModTime : Z
}.

Global Instance FileInfo_eq_dec : EqDecision FileInfo.
Proof. solve_decision. Defined.

(** An argument of a log call. *)
Inductive logArg : Type :=
| LString (s : string)
| LTime (t : Z)
| LError (e : oserror).

(** The calls that [expireUnused] makes, each with the type of what it
    returns.  [time.Since(t)] is [time.Now().Sub(t)]; whether it exceeds an
    hour is not affected by the saturation of [Sub]. *)
Inductive call : Type → Type :=
| ReadDir (dirname : string) : call (list FileInfo + oserror)
| Now : call Z
| Remove (path : string) : call (option oserror)
| Debugf (format : string) (args : list logArg) : call unit
| Warningf (format : string) (args : list logArg) : call unit.

Inductive io (A : Type) : Type :=
| Ret (a : A)
| Vis {X : Type} (c : call X) (k : X → io A).
Arguments Ret {A} a.
Arguments Vis {A X} c k.

Fixpoint io_bind {A B} (m : io A) (f : A → io B) : io B :=
  match m with
  | Ret a => f a
  | Vis c k => Vis c (λ x, io_bind (k x) f)
  end.

Definition perform {X} (c : call X) : io X := Vis c Ret.

Global Instance io_mbind : MBind io := λ A B f m, io_bind m f.
Global Instance io_mret : MRet io := λ A a, Ret a.

Inductive event : Type :=
| Ev {X : Type} (c : call X) (r : X).

(** [runs p tr a]: [p] can make the calls of [tr], get the answers of
    [tr], and return [a]; the answers are not constrained. *)
Fixpoint runs {A} (p : io A) (tr : list event) (a : A) : Prop :=
  match p with
  | Ret a' => tr = [] ∧ a = a'
  | Vis c k => ∃ r tr', tr = Ev c r :: tr' ∧ runs (k r) tr' a
  end.

(** The paths that a trace passes to [os.Remove], and the clock readings
    it contains, in order. *)
Definition removalOf (ev : event) : option string :=
  match ev with
  | Ev c _ => match c with Remove path => Some path | _ => None end
  end.
Definition removals (tr : list event) : list string := omap removalOf tr.

(** What [ioutil.ReadDir] answered, if the event is such a call. *)
Definition listingOf (ev : event) : option (list FileInfo + oserror) :=
  match ev with
  | Ev c r => match c in call X return X → option (list FileInfo + oserror) with
              | ReadDir _ => λ l, Some l
              | _ => λ _, None
              end r
  end.

Definition readingOf (ev : event) : option Z :=
  match ev with
  | Ev c r => match c in call X return X → option Z with
              | Now => λ t, Some t
              | _ => λ _, None
              end r
  end.
Definition readings (tr : list event) : list Z := omap readingOf tr.

Section ExpireUnused.

(** The order in which [range] yields the values of a Go map is not
    specified; [rangeOf] is that order. *)
Variable rangeOf : gmap string FileInfo → list FileInfo.

(** The first loop of [expireUnused]: the entries with the index suffix,
    by their name without it. *)
Definition collect (entries : list FileInfo) : gmap string FileInfo :=
  foldl (λ remaining ent,
           if HasSuffix (Name ent) simpleIndexSuffix
           then <[TrimSuffix (Name ent) simpleIndexSuffix := ent]> remaining
           else remaining)
        ∅ entries.

(** The second loop: [delete(remaining, u)] for each used ID. *)
Definition dropUsed (remaining : gmap string FileInfo) (used : list string)
    : gmap string FileInfo :=
  foldl (λ remaining u, delete u remaining) remaining used.

(** The third loop, over the values in the order they are yielded. *)
Fixpoint sweep (c : diskCommittedBlockIndexCache) (rems : list FileInfo)
    : io unit :=
  match rems with
  | [] => Ret ()
  | rem :: rest =>
      now ← perform Now;
      _ ← (if decide (now - ModTime rem > unusedCommittedBlockIndexCleanupTime)
           then
             _ ← perform (Debugf "removing unused %v %v"
                                 [LString (Name rem); LTime (ModTime rem)]);
             err ← perform (Remove (Join (dirname c) (Name rem)));
             match err with
             | Some e =>
                 perform (Warningf "unable to remove unused index file: %v"
                                   [LError e])
             | None => Ret ()
             end
           else
             perform (Debugf "keeping unused %v because it's too new %v"
                             [LString (Name rem); LTime (ModTime rem)]));
      sweep c rest
  end.

(** [func (c *diskCommittedBlockIndexCache) expireUnused(used []string) error] *)
Definition expireUnused (c : diskCommittedBlockIndexCache) (used : list string)
    : io (option error) :=
  r ← perform (ReadDir (dirname c));
  match r with
  | inr err => Ret (Some (Errorf ("can't list cache: " +:+ message err)))
  | inl entries =>
      _ ← sweep c (rangeOf (dropUsed (collect entries) used));
      Ret None
  end.

End ExpireUnused.

(** A cache directory with nothing failing and no other process: the
    files by name with their modification times, and a clock that does not
    move during the call.  [ReadDir] lists the files; [Remove] takes the
    path apart again. *)
Record cachedir : Type := mkCachedir {
  dirpath : string;
  mtimes : gmap string Z;
  clock : Z
}.

Definition cachedir_respond (X : Type) (c : call X) (s : cachedir) : X * cachedir :=
  match c in call X return X * cachedir with
  | ReadDir d =>
      (inl ((λ '(n, t), mkFileInfo n t) <$> map_to_list (mtimes s)), s)
  | Now => (clock s, s)
  | Remove path =>
      match
        list_find (λ '(n, _), Join (dirpath s) n = path) (map_to_list (mtimes s))
      with
      | Some (_, (n, _)) => (None, mkCachedir (dirpath s) (delete n (mtimes s)) (clock s))
      | None => (Some enoent, s)
      end
  | Debugf _ _ => ((), s)
  | Warningf _ _ => ((), s)
  end.

Fixpoint interp {A} (p : io A) (s : cachedir) : A * list event * cachedir :=
  match p with
  | Ret a => (a, [], s)
  | Vis c k =>
      let '(r, s1) := cachedir_respond _ c s in
      let '(a, tr, s2) := interp (k r) s1 in
      (a, Ev c r :: tr, s2)
  end.

End expiry.

(* ===================================================================== *)
(** * Part II: properties *)
(* ===================================================================== *)

(** ** Outcomes *)

Lemma bind_Done {A B} (m : outcome A) (k : A → outcome B) b :
  (m ≫= k) = Done b → ∃ a, m = Done a ∧ k a = Done b.
Proof. destruct m as [a| |]; simpl; [eauto | discriminate | discriminate]. Qed.

Lemma wrapErr_Done {A} p (m : outcome A) a : wrapErr p m = Done a → m = Done a.
Proof. destruct m; simpl; congruence. Qed.

Lemma wrapErr_Panicked {A} p (m : outcome A) s :
  m = Panicked s → wrapErr p m = Panicked s.
Proof. intros ->. reflexivity. Qed.

(** ** Merge-on-add *)

Import block.

Section AddFacts.

Implicit Types (b : packIndexBuilder) (i old : Info).

Lemma Add_lookup_other b i k : k ≠ BlockID i → Add b i !! k = b !! k.
Proof.
  intros Hk. unfold Add.
  destruct (b !! BlockID i) as [old|]; [destruct (_ >=? _)|];
    rewrite ?lookup_insert_ne; congruence.
Qed.

Lemma Add_lookup_fresh b i : b !! BlockID i = None → Add b i !! BlockID i = Some i.
Proof. intros H. unfold Add. rewrite H. apply lookup_insert_eq. Qed.

Lemma Add_lookup_newer b i old :
  b !! BlockID i = Some old → TimestampSeconds old ≤ TimestampSeconds i →
  Add b i = <[BlockID i := i]> b.
Proof.
  intros H Hts. unfold Add. rewrite H.
  destruct (Z.geb_spec (TimestampSeconds i) (TimestampSeconds old)); [done | lia].
Qed.

Lemma Add_lookup_older b i old :
  b !! BlockID i = Some old → TimestampSeconds i < TimestampSeconds old →
  Add b i = b.
Proof.
  intros H Hts. unfold Add. rewrite H.
  destruct (Z.geb_spec (TimestampSeconds i) (TimestampSeconds old)); [lia | done].
Qed.

Lemma keyed_empty : keyed ∅.
Proof. intros k i. rewrite lookup_empty. discriminate. Qed.

Lemma keyed_Add b i : keyed b → keyed (Add b i).
Proof.
  intros Hb k j. destruct (decide (k = BlockID i)) as [->|Hne].
  - unfold Add. destruct (b !! BlockID i) as [old|] eqn:E.
    + destruct (_ >=? _).
      * rewrite lookup_insert_eq. congruence.
      * rewrite E. intros [= <-]. eauto.
    + rewrite lookup_insert_eq. congruence.
  - rewrite Add_lookup_other by done. apply Hb.
Qed.

(** Adding two infos of one content ID with different timestamps, in
    either order, has the effect of adding the newer one alone. *)
Lemma Add_older_then_newer b i1 i2 :
  BlockID i1 = BlockID i2 → TimestampSeconds i1 < TimestampSeconds i2 →
  Add (Add b i1) i2 = Add b i2.
Proof.
  intros Hid Hts. destruct (b !! BlockID i1) as [old|] eqn:E.
  - destruct (Z.le_gt_cases (TimestampSeconds old) (TimestampSeconds i1)).
    + rewrite (Add_lookup_newer b i1 old) by done.
      rewrite (Add_lookup_newer _ i2 i1);
        [| rewrite <- Hid; apply lookup_insert_eq | lia].
      rewrite (Add_lookup_newer b i2 old) by (congruence || lia).
      rewrite <- Hid. apply insert_insert_eq.
    + by rewrite (Add_lookup_older b i1 old).
  - rewrite (Add_lookup_newer (Add b i1) i2 i1);
      [| rewrite <- Hid; by apply Add_lookup_fresh | lia].
    unfold Add at 1 2. rewrite <- Hid, E. apply insert_insert_eq.
Qed.

Lemma Add_newer_then_older b i1 i2 :
  BlockID i1 = BlockID i2 → TimestampSeconds i1 < TimestampSeconds i2 →
  Add (Add b i2) i1 = Add b i2.
Proof.
  intros Hid Hts. destruct (b !! BlockID i2) as [old|] eqn:E.
  - destruct (Z.le_gt_cases (TimestampSeconds old) (TimestampSeconds i2)).
    + rewrite (Add_lookup_newer b i2 old) by done.
      apply (Add_lookup_older _ i1 i2); [| done].
      rewrite Hid. apply lookup_insert_eq.
    + rewrite (Add_lookup_older b i2 old) by done.
      apply (Add_lookup_older b i1 old); [congruence | lia].
  - apply (Add_lookup_older _ i1 i2); [| done].
    rewrite Hid. by apply Add_lookup_fresh.
Qed.

(** A later call with a timestamp that is not smaller hides the earlier
    one. *)
Lemma Add_then_not_older b i1 i2 :
  BlockID i1 = BlockID i2 → TimestampSeconds i1 ≤ TimestampSeconds i2 →
  Add (Add b i1) i2 = Add b i2.
Proof.
  intros Hid Hts. destruct (b !! BlockID i1) as [old|] eqn:E.
  - destruct (Z.le_gt_cases (TimestampSeconds old) (TimestampSeconds i1)).
    + rewrite (Add_lookup_newer b i1 old) by done.
      rewrite (Add_lookup_newer _ i2 i1);
        [| rewrite <- Hid; apply lookup_insert_eq | lia].
      rewrite (Add_lookup_newer b i2 old) by (congruence || lia).
      rewrite <- Hid. apply insert_insert_eq.
    + by rewrite (Add_lookup_older b i1 old).
  - rewrite (Add_lookup_newer (Add b i1) i2 i1);
      [| rewrite <- Hid; by apply Add_lookup_fresh | lia].
    unfold Add at 1 2. rewrite <- Hid, E. apply insert_insert_eq.
Qed.

(** [Add] looks at the content ID and at the timestamp of an info, and at
    nothing else: it commutes with every change of the other fields. *)
Lemma Add_fmap (f : Info → Info) b i :
  (∀ x, BlockID (f x) = BlockID x) →
  (∀ x, TimestampSeconds (f x) = TimestampSeconds x) →
  Add (f <$> b) (f i) = f <$> Add b i.
Proof.
  intros Hid Hts. unfold Add. rewrite Hid, lookup_fmap.
  destruct (b !! BlockID i) as [old|]; simpl.
  - rewrite !Hts. destruct (TimestampSeconds i >=? TimestampSeconds old);
      [by rewrite fmap_insert | done].
  - by rewrite fmap_insert.
Qed.

End AddFacts.




(** C3: the claim keeps the existing entry on equal timestamps, as the
    comment on [Add] says ("replaces it if the timestamp is greater"); the
    comparison in the code is [>=], and an info with an equal timestamp
    replaces the existing entry. *)
Theorem Add_equal_timestamp_replaces_existing :
  let existing := mkInfo "ab" 100 5 "p1" 0 false [] 1 in
  let added := mkInfo "ab" 200 5 "p2" 64 false [] 1 in
  ({[ "ab" := existing ]} : packIndexBuilder) !! "ab" = Some existing ∧
  TimestampSeconds added = TimestampSeconds existing ∧
  Add {[ "ab" := existing ]} added !! "ab" = Some added.
Proof. vm_compute. auto. Qed.

(** ** Build: panics and the empty builder *)

Section BuildFacts.

Variable contentIDToBytes : string → list Z.

Implicit Types (b : packIndexBuilder) (it : Info) (layout : indexLayout).

Lemma elem_of_sortedBlocks b it : it ∈ sortedBlocks b ↔ ∃ k, b !! k = Some it.
Proof.
  unfold sortedBlocks. rewrite merge_sort_Permutation, list_elem_of_fmap. split.
  - intros ([k i] & -> & Hin). exists k. by apply elem_of_map_to_list.
  - intros [k Hk]. exists (k, it). split; [done | by apply elem_of_map_to_list].
Qed.

Lemma sortedBlocks_empty : sortedBlocks ∅ = [].
Proof. unfold sortedBlocks. by rewrite map_to_list_empty. Qed.

Lemma length_sortedBlocks b : length (sortedBlocks b) = size b.
Proof.
  unfold sortedBlocks.
  by rewrite merge_sort_Permutation, length_fmap, length_map_to_list.
Qed.

Lemma prepareExtraData_loop_panics blocks : ∀ i layout extraData,
  (∃ it, it ∈ blocks ∧ Payload it ≠ []) →
  prepareExtraData_loop contentIDToBytes i blocks layout extraData
  = Panicked "storing payloads in indexes is not supported".
Proof.
  induction blocks as [|hd rest IH]; intros i layout extraData (it & Hin & Hp).
  - by apply elem_of_nil in Hin.
  - simpl.
    match goal with |- context [let '(_, _) := ?X in _] => destruct X as [l2 e2] end.
    destruct (decide (0 < len (Payload hd))) as [|Hlen]; [done |].
    apply IH. exists it. split; [| done].
    apply elem_of_cons in Hin as [->|]; [| done].
    exfalso. apply Hlen. unfold len. destruct (Payload hd); [done | simpl; lia].
Qed.

End BuildFacts.

(** C4, as stated, fails: [Build] on a builder holding an info with an
    inline payload does not return an error, it panics. *)
Lemma Build_inline_payload_panics_not_error :
  let b : packIndexBuilder := Add ∅ (mkInfo "ab" 1 5 "p1" 0 false [7] 1) in
  Build bytesOf bytesBuffer b
    = Panicked "storing payloads in indexes is not supported" ∧
  ¬ ∃ err, Build bytesOf bytesBuffer b = Failed err.
Proof.
  assert (Build bytesOf bytesBuffer (Add ∅ (mkInfo "ab" 1 5 "p1" 0 false [7] 1))
          = Panicked "storing payloads in indexes is not supported") as H
    by (vm_compute; reflexivity).
  split; [exact H |]. intros [err Herr]. rewrite H in Herr. discriminate.
Qed.

(** C4 (amended): for every builder containing at least one info with a
    non-empty inline payload, [Build] rejects it at encode time by panicking
    with "storing payloads in indexes is not supported", raised by
    [prepareExtraData] before anything is written to the output; no error
    value is returned to the caller. *)
Theorem Build_inline_payload_panics
    (contentIDToBytes : string → list Z) (w : ioWriter)
    (b : packIndexBuilder) (k : string) (it : Info) :
  b !! k = Some it → Payload it ≠ [] →
  Build contentIDToBytes w b
  = Panicked "storing payloads in indexes is not supported".
Proof.
  intros Hk Hp. unfold Build, prepareExtraData.
  rewrite (prepareExtraData_loop_panics contentIDToBytes (sortedBlocks b)); [done |].
  exists it. split; [| done]. apply elem_of_sortedBlocks. eauto.
Qed.

Lemma Build_inline_payload_panics_witness :
  Build bytesOf bytesBuffer {[ "ab" := mkInfo "ab" 1 5 "p1" 0 false [7] 1 ]}
  = Panicked "storing payloads in indexes is not supported".
Proof.
  apply (Build_inline_payload_panics bytesOf bytesBuffer _ "ab"
           (mkInfo "ab" 1 5 "p1" 0 false [7] 1)).
  - reflexivity.
  - discriminate.
Defined.

(** C10: [Build] on an empty builder succeeds and writes exactly 8 bytes: a
    header with version byte 1, key-length byte 255 (the -1 of a builder
    whose loop never ran, truncated to a byte), entry-length 20 and
    entry-count 0, followed by no entry and no extra data. *)
Theorem Build_empty (contentIDToBytes : string → list Z) (w : ioWriter) :
  accepts w →
  Build contentIDToBytes w ∅ = Done [1; 255; 0; 20; 0; 0; 0; 0].
Proof.
  intros [Hw Hf]. unfold Build. rewrite sortedBlocks_empty. simpl.
  unfold wWrite, wFlush. rewrite Hw. simpl. rewrite Hw. simpl. rewrite Hf.
  reflexivity.
Qed.

Lemma Build_empty_witness :
  accepts bytesBuffer ∧
  Build bytesOf bytesBuffer ∅ = Done [1; 255; 0; 20; 0; 0; 0; 0].
Proof.
  assert (accepts bytesBuffer) as H by (split; reflexivity).
  split; [exact H | exact (Build_empty bytesOf bytesBuffer H)].
Defined.
Ltac pow2_consts :=
  change (2 ^ 8) with 256 in *; change (2 ^ 16) with 65536 in *;
  change (2 ^ 24) with 16777216 in *; change (2 ^ 31) with 2147483648 in *;
  change (2 ^ 32) with 4294967296 in *; change (2 ^ 40) with 1099511627776 in *;
  change (2 ^ 48) with 281474976710656 in *;
  change (2 ^ 56) with 72057594037927936 in *;
  change (2 ^ 63) with 9223372036854775808 in *;
  change (2 ^ 64) with 18446744073709551616 in *.

Section Bits.
Lemma u8_range z : 0 ≤ u8 z < 256.
Proof. unfold u8. change (2 ^ 8) with 256. apply Z.mod_pos_bound. lia. Qed.

Lemma lor_shiftl_low a b n :
  0 ≤ n → 0 ≤ b < 2 ^ n → Z.lor (a ≪ n) b = a * 2 ^ n + b.
Proof.
  intros Hn Hb. rewrite <- Z.shiftl_mul_pow2 by done.
  symmetry. apply Z.add_nocarry_lor. apply Z.bits_inj'. intros k Hk.
  rewrite Z.land_spec, Z.bits_0.
  destruct (Z.lt_ge_cases k n).
  - rewrite Z.shiftl_spec_low by done. reflexivity.
  - destruct (decide (b = 0)) as [->|]; [by rewrite Z.bits_0, andb_false_r |].
    rewrite (Z.bits_above_log2 b k), andb_false_r; [done | lia |].
    apply Z.log2_lt_pow2; [lia |]. 
    apply Z.lt_le_trans with (2 ^ n); [lia |]. apply Z.pow_le_mono_r; lia.
Qed.

Lemma beUint_cons_snoc bs b : beUint (bs ++ [b]) = Z.lor (beUint bs ≪ 8) b.
Proof. unfold beUint. by rewrite foldl_app. Qed.

Lemma beUint_putUint16 v : 0 ≤ v < 2 ^ 16 → beUint (putUint16 v) = v.
Proof.
  intros Hv. unfold putUint16, beUint. simpl.
  rewrite !lor_shiftl_low by (try apply u8_range; lia).
  unfold u8. rewrite !Z.shiftr_div_pow2 by lia.
  change (2 ^ 8) with 256 in *. change (2 ^ 16) with 65536 in *.
  Z.div_mod_to_equations. lia.
Qed.

Lemma beUint_putUint32 v : 0 ≤ v < 2 ^ 32 → beUint (putUint32 v) = v.
Proof.
  intros Hv. unfold putUint32, beUint. simpl.
  rewrite !lor_shiftl_low by (try apply u8_range; lia).
  unfold u8. rewrite !Z.shiftr_div_pow2 by lia.
  change (2 ^ 8) with 256 in *. change (2 ^ 16) with 65536 in *.
  change (2 ^ 24) with 16777216 in *. change (2 ^ 32) with 4294967296 in *.
  Z.div_mod_to_equations. lia.
Qed.

Lemma beUint_putUint64 v : 0 ≤ v < 2 ^ 64 → beUint (putUint64 v) = v.
Proof.
  intros Hv. unfold putUint64, beUint. simpl.
  rewrite !lor_shiftl_low by (try apply u8_range; lia).
  unfold u8. rewrite !Z.shiftr_div_pow2 by lia.
  change (2 ^ 8) with 256 in *. change (2 ^ 16) with 65536 in *.
  change (2 ^ 24) with 16777216 in *. change (2 ^ 32) with 4294967296 in *.
  change (2 ^ 40) with 1099511627776 in *. change (2 ^ 48) with 281474976710656 in *.
  change (2 ^ 56) with 72057594037927936 in *. change (2 ^ 64) with 18446744073709551616 in *.
  Z.div_mod_to_equations. lia.
Qed.
End Bits.

Section Fields.
Lemma u64_small z : 0 ≤ z < 2 ^ 64 → u64 z = z.
Proof. intros. unfold u64. by apply Z.mod_small. Qed.
Lemma u32_small z : 0 ≤ z < 2 ^ 32 → u32 z = z.
Proof. intros. unfold u32. by apply Z.mod_small. Qed.

Lemma timestampAndFlags_value ts fv pl :
  0 ≤ ts < 2 ^ 48 → 0 ≤ fv < 2 ^ 8 → 0 ≤ pl < 2 ^ 8 →
  Z.lor (Z.lor (u64 (u64 ts ≪ 16)) (u64 (u64 fv ≪ 8))) (u64 pl)
  = ts * 2 ^ 16 + fv * 2 ^ 8 + pl.
Proof.
  intros Hts Hfv Hpl.
  rewrite (u64_small ts), (u64_small fv), (u64_small pl) by (pow2_consts; lia).
  rewrite (Z.shiftl_mul_pow2 fv), (Z.shiftl_mul_pow2 ts) by lia.
  rewrite (u64_small (ts * _)), (u64_small (fv * _)) by (pow2_consts; lia).
  replace (ts * 2 ^ 16) with (ts ≪ 16) by (rewrite Z.shiftl_mul_pow2; lia).
  rewrite (lor_shiftl_low ts) by (pow2_consts; lia).
  replace (ts * 2 ^ 16 + fv * 2 ^ 8) with ((ts * 2 ^ 8 + fv) ≪ 8)
    by (rewrite Z.shiftl_mul_pow2 by lia; pow2_consts; lia).
  rewrite lor_shiftl_low by (pow2_consts; lia).
  rewrite Z.shiftl_mul_pow2 by lia. pow2_consts; lia.
Qed.

Lemma timestampAndFlags_fields ts fv pl :
  0 ≤ ts < 2 ^ 48 → 0 ≤ fv < 2 ^ 8 → 0 ≤ pl < 2 ^ 8 →
  let tf := ts * 2 ^ 16 + fv * 2 ^ 8 + pl in
  0 ≤ tf < 2 ^ 64 ∧ tf ≫ 16 = ts ∧ Z.land (tf ≫ 8) 255 = fv ∧ Z.land tf 255 = pl.
Proof.
  intros Hts Hfv Hpl tf. subst tf.
  change 255 with (Z.ones 8). rewrite !Z.land_ones, !Z.shiftr_div_pow2 by lia.
  change (2 ^ 8) with 256 in *. change (2 ^ 16) with 65536 in *.
  change (2 ^ 48) with 281474976710656 in *.
  change (2 ^ 64) with 18446744073709551616 in *.
  repeat split; try lia; Z.div_mod_to_equations; lia.
Qed.

Lemma packedOffset_fields po (deleted : bool) :
  0 ≤ po < 2 ^ 31 →
  let v := if deleted then Z.lor po 2147483648 else po in
  0 ≤ v < 2 ^ 32 ∧ Z.testbit v 31 = deleted ∧ Z.land v 2147483647 = po.
Proof.
  intros Hpo v.
  assert (v = Z.b2z deleted * 2 ^ 31 + po) as ->.
  { subst v. destruct deleted; simpl; [| lia].
    rewrite Z.lor_comm. change 2147483648 with (1 ≪ 31).
    rewrite lor_shiftl_low by lia. lia. }
  change 2147483647 with (Z.ones 31).
  rewrite Z.land_ones, Z.testbit_odd, Z.shiftr_div_pow2 by lia.
  change (2 ^ 31) with 2147483648 in *. change (2 ^ 32) with 4294967296 in *.
  destruct deleted; simpl Z.b2z.
  - replace ((1 * 2147483648 + po) `div` 2147483648) with 1
      by (Z.div_mod_to_equations; lia).
    repeat split; try lia. Z.div_mod_to_equations; lia.
  - replace ((0 * 2147483648 + po) `div` 2147483648) with 0
      by (Z.div_mod_to_equations; lia).
    repeat split; try lia. Z.div_mod_to_equations; lia.
Qed.
End Fields.

Section Slices.
Context {A : Type}.
Implicit Types l : list A.

Lemma slice_app_length l1 l2 n : slice (length l1) n (l1 ++ l2) = take n l2.
Proof. unfold slice. by rewrite drop_app_length. Qed.

Lemma slice_add_app l1 l2 off n :
  slice (length l1 + off) n (l1 ++ l2) = slice off n l2.
Proof. unfold slice. by rewrite drop_app_add. Qed.

Lemma slice_0_app l1 l2 : slice 0 (length l1) (l1 ++ l2) = l1.
Proof. unfold slice. rewrite drop_0. apply take_app_length. Qed.

Lemma concat_uniform_split (ls : list (list A)) n i x :
  Forall (λ e, length e = n) ls → ls !! i = Some x →
  ∃ pre post, concat ls = pre ++ x ++ post ∧ length pre = (i * n)%nat.
Proof.
  intros Hall. revert i. induction Hall as [|e ls He Hall IH]; intros i Hi.
  - by rewrite lookup_nil in Hi.
  - destruct i as [|i]; simpl in *.
    + injection Hi as ->. by exists [], (concat ls).
    + destruct (IH i Hi) as (pre & post & -> & Hlen).
      exists (e ++ pre), post. rewrite <- app_assoc. split; [done |].
      rewrite length_app. lia.
Qed.
End Slices.

Section BuildShape.
Variable contentIDToBytes : string → list Z.
Implicit Types (b : packIndexBuilder) (it : Info) (layout : indexLayout).

Lemma length_bytesOf s : length (bytesOf s) = String.length s.
Proof. induction s; simpl; congruence. Qed.

Lemma formatEntry_Done it layout body :
  formatEntry it layout = Done body →
  PackFile it ≠ "" ∧
  body = putUint64 (Z.lor (Z.lor (u64 (u64 (TimestampSeconds it) ≪ 16))
                                 (u64 (u64 (FormatVersion it) ≪ 8)))
                          (u64 (slen (PackFile it))))
         ++ putUint32 (u32 (extraDataOffset layout
                            + default 0 (packFileOffsets layout !! PackFile it)))
         ++ putUint32 (if Deleted it then Z.lor (PackOffset it) 2147483648
                       else PackOffset it)
         ++ putUint32 (Length it).
Proof.
  unfold formatEntry. destruct (decide (slen (PackFile it) = 0)) as [|Hne];
    [discriminate |].
  intros [= <-]. split.
  - intros E. apply Hne. by rewrite E.
  - by destruct (Deleted it).
Qed.

Lemma formatEntry_length it layout body :
  formatEntry it layout = Done body → length body = 20%nat.
Proof. intros H. apply formatEntry_Done in H as [_ ->]. reflexivity. Qed.


Lemma writeEntry_Done w acc it layout out :
  writeEntry contentIDToBytes w acc it layout = Done out →
  ∃ body, encoded contentIDToBytes it layout body ∧
          out = acc ++ contentIDToBytes (BlockID it) ++ body.
Proof.
  unfold writeEntry.
  destruct (decide (len (contentIDToBytes (BlockID it)) ≠ keyLength layout))
    as [|Hk]; [discriminate |].
  intros H. apply bind_Done in H as (body & Hf & H). apply wrapErr_Done in Hf.
  apply bind_Done in H as (acc1 & Hw1 & Hw2).
  apply wrapErr_Done in Hw1, Hw2. unfold wWrite in *.
  destruct (write_err w acc _); [discriminate |]. injection Hw1 as <-.
  destruct (write_err w _ body); [discriminate |]. injection Hw2 as <-.
  exists body. split; [split; [done | by apply dec_stable] |].
  by rewrite <- app_assoc.
Qed.

Lemma writeEntries_Done w blocks layout : ∀ acc out,
  writeEntries contentIDToBytes w acc blocks layout = Done out →
  ∃ bodies,
    Forall2 (λ it body, encoded contentIDToBytes it layout body) blocks bodies ∧
    out = acc ++ concat (zip_with (λ it body, contentIDToBytes (BlockID it) ++ body)
                                  blocks bodies).
Proof.
  induction blocks as [|it rest IH]; intros acc out; simpl.
  - intros [= <-]. exists []. split; [constructor | by rewrite app_nil_r].
  - intros H. apply bind_Done in H as (acc1 & Hw & H). apply wrapErr_Done in Hw.
    apply writeEntry_Done in Hw as (body & Henc & ->).
    apply IH in H as (bodies & Hall & ->).
    exists (body :: bodies). split; [by constructor |].
    simpl. by rewrite <- !app_assoc.
Qed.
End BuildShape.

Section ExtraData.
Variable contentIDToBytes : string → list Z.
Implicit Types (b : packIndexBuilder) (it : Info) (layout : indexLayout).


Lemma offsetsFor_nil : offsetsFor [] ∅ [].
Proof.
  repeat split.
  - constructor.
  - intros H. by apply elem_of_nil in H.
  - rewrite lookup_empty. by intros [? ?].
  - intros pre p post H. by destruct pre.
Qed.

Lemma offsetsFor_snoc seen offs extraData p :
  offsetsFor seen offs extraData → offs !! p = None →
  offsetsFor (seen ++ [p]) (<[p := u32 (len extraData)]> offs)
             (extraData ++ bytesOf p).
Proof.
  intros (Hnd & -> & Hdom & Hoff) Hp.
  assert (p ∉ seen) as Hnotin.
  { intros Hin. apply Hdom in Hin as [? Hin]. congruence. }
  repeat split.
  - apply NoDup_app. repeat split; [done | | apply NoDup_singleton].
    intros x Hx Hx'. apply list_elem_of_singleton in Hx' as ->. done.
  - rewrite fmap_app, concat_app. simpl. by rewrite app_nil_r.
  - intros Hin. apply elem_of_app in Hin as [Hin|Hin].
    + rewrite lookup_insert_ne; [by apply Hdom | intros ->; done].
    + apply list_elem_of_singleton in Hin as ->. rewrite lookup_insert_eq. eauto.
  - intros Hsome. destruct (decide (p0 = p)) as [->|Hne].
    + apply elem_of_app. right. by apply list_elem_of_singleton.
    + rewrite lookup_insert_ne in Hsome by done.
      apply elem_of_app. left. by apply Hdom.
  - intros pre q post Heq.
    destruct post as [|x post _] using rev_ind.
    + apply app_inj_tail in Heq as [-> ->]. by rewrite lookup_insert_eq.
    + rewrite app_comm_cons, app_assoc in Heq.
      apply app_inj_tail in Heq as [-> ->].
      rewrite lookup_insert_ne; [by eapply Hoff |].
      intros ->. apply Hnotin. apply elem_of_app. right. apply elem_of_cons. by left.
Qed.

Lemma prepareExtraData_loop_Done blocks : ∀ i layout extraData extraData' layout',
  prepareExtraData_loop contentIDToBytes i blocks layout extraData
    = Done (extraData', layout') →
  Forall (λ it, PackFile it ≠ "") blocks →
  ∀ seen, offsetsFor seen (packFileOffsets layout) extraData →
    offsetsFor (firstSeenFrom seen (PackFile <$> blocks))
               (packFileOffsets layout') extraData' ∧
    entryCount layout' = entryCount layout ∧
    entryLength layout' = entryLength layout ∧
    keyLength layout' =
      match blocks with
      | it :: _ => if decide (i = 0%nat)
                   then len (contentIDToBytes (BlockID it)) else keyLength layout
      | [] => keyLength layout
      end.
Proof.
  induction blocks as [|it rest IH];
    intros i layout extraData extraData' layout' Hrun Hpf seen Hinv.
  - injection Hrun as <- <-. done.
  - apply Forall_cons in Hpf as [Hit Hpf]. simpl in Hrun.
    destruct (decide (PackFile it ≠ "")) as [_|]; [| done].
    set (layout1 := if decide (i = 0%nat) then _ else layout) in Hrun.
    assert (packFileOffsets layout1 = packFileOffsets layout
            ∧ entryCount layout1 = entryCount layout
            ∧ entryLength layout1 = entryLength layout
            ∧ keyLength layout1 =
                (if decide (i = 0%nat)
                 then len (contentIDToBytes (BlockID it)) else keyLength layout))
      as (Ho1 & Hc1 & Hl1 & Hk1)
      by (subst layout1; destruct (decide (i = 0%nat)); done).
    clearbody layout1. unfold firstSeenFrom. simpl. fold (firstSeenFrom).
    destruct (packFileOffsets layout1 !! PackFile it) as [off|] eqn:Hlook.
    + destruct (decide (0 < len (Payload it))); [discriminate |].
      assert (PackFile it ∈ seen) as Hin.
      { destruct Hinv as (_ & _ & Hdom & _). apply Hdom. rewrite <- Ho1, Hlook. eauto. }
      rewrite decide_True by done.
      rewrite <- Ho1 in Hinv.
      apply (IH _ _ _ _ _ Hrun Hpf seen) in Hinv as (? & ? & ? & Hk).
      assert (keyLength layout' = keyLength layout1) as Hk'
        by (destruct rest; [done | by rewrite decide_False in Hk by lia]).
      split; [done |]. repeat split; congruence.
    + destruct (decide (0 < len (Payload it))); [discriminate |].
      assert (PackFile it ∉ seen) as Hnotin.
      { destruct Hinv as (_ & _ & Hdom & _). intros Hin%Hdom.
        rewrite <- Ho1, Hlook in Hin. by destruct Hin. }
      rewrite decide_False by done.
      rewrite Ho1 in Hlook.
      pose proof (offsetsFor_snoc _ _ _ _ Hinv Hlook) as Hinv'.
      assert (offsetsFor (seen ++ [PackFile it])
                (packFileOffsets
                   (mkLayout (<[PackFile it := u32 (len extraData)]>
                                (packFileOffsets layout1))
                             (entryCount layout1) (keyLength layout1)
                             (entryLength layout1) (extraDataOffset layout1)))
                (extraData ++ bytesOf (PackFile it))) as Hinv''
        by (simpl; by rewrite Ho1).
      apply (IH _ _ _ _ _ Hrun Hpf) in Hinv'' as (? & Hc & Hl & Hk).
      assert (keyLength layout' = keyLength layout1) as Hk'
        by (destruct rest; [done | by rewrite decide_False in Hk by lia]).
      simpl in Hc, Hl. split; [done |]. repeat split; congruence.
Qed.
End ExtraData.

Section Sorted.
Implicit Types (b : packIndexBuilder) (it : Info).

Global Instance blockLe_total : Total blockLe.
Proof. intros x y. unfold blockLe. apply (total String.le). Qed.

Global Instance blockLe_trans : Transitive blockLe.
Proof. intros x y z. unfold blockLe. apply transitivity. Qed.

Lemma sortedBlocks_StronglySorted b : StronglySorted blockLe (sortedBlocks b).
Proof. apply StronglySorted_merge_sort; apply _. Qed.

Lemma sortedBlocks_NoDup b : keyed b → NoDup (BlockID <$> sortedBlocks b).
Proof.
  intros Hk. unfold sortedBlocks. rewrite merge_sort_Permutation.
  replace (BlockID <$> (map_to_list b).*2) with ((map_to_list b).*1).
  - apply NoDup_fst_map_to_list.
  - rewrite <- list_fmap_compose. apply Forall_fmap_ext_1, Forall_forall.
    intros [k i] Hin%elem_of_map_to_list. simpl. symmetry. by apply Hk.
Qed.

Lemma StronglySorted_strict_keys (l : list Info) :
  StronglySorted blockLe l → NoDup (BlockID <$> l) →
  StronglySorted (strict String.le) (BlockID <$> l).
Proof.
  induction 1 as [|x l Hl IH Hx]; intros Hnd; simpl; [constructor |].
  apply NoDup_cons in Hnd as [Hnotin Hnd]. constructor; [by apply IH |].
  apply Forall_fmap, Forall_forall. intros y Hy. simpl.
  rewrite Forall_forall in Hx. split; [by apply Hx |].
  intros Hyx. apply Hnotin.
  assert (BlockID x = BlockID y) as ->
    by (apply (anti_symm String.le); [by apply Hx | done]).
  by apply list_elem_of_fmap_2.
Qed.

Lemma sortedBlocks_strict b :
  keyed b → StronglySorted (strict String.le) (BlockID <$> sortedBlocks b).
Proof.
  intros Hk. apply StronglySorted_strict_keys;
    [apply sortedBlocks_StronglySorted | by apply sortedBlocks_NoDup].
Qed.
End Sorted.

Section FirstSeen.
Lemma firstSeenFrom_elem_of ps : ∀ seen p,
  p ∈ firstSeenFrom seen ps ↔ p ∈ seen ∨ p ∈ ps.
Proof.
  induction ps as [|q ps IH]; intros seen p; unfold firstSeenFrom; simpl.
  - rewrite elem_of_nil. tauto.
  - fold (firstSeenFrom (if decide (q ∈ seen) then seen else seen ++ [q]) ps).
    rewrite IH, elem_of_cons. destruct (decide (q ∈ seen)).
    + split; [tauto |]. intros [?|[->|?]]; auto.
    + rewrite elem_of_app, list_elem_of_singleton. tauto.
Qed.

Lemma firstSeenFrom_NoDup ps : ∀ seen, NoDup seen → NoDup (firstSeenFrom seen ps).
Proof.
  induction ps as [|q ps IH]; intros seen Hnd; unfold firstSeenFrom; simpl; [done |].
  apply IH. destruct (decide (q ∈ seen)); [done |].
  apply NoDup_app. repeat split; [done | | apply NoDup_singleton].
  intros x Hx ->%list_elem_of_singleton. done.
Qed.

Lemma firstSeen_elem_of ps p : p ∈ firstSeen ps ↔ p ∈ ps.
Proof. unfold firstSeen. rewrite firstSeenFrom_elem_of, elem_of_nil. tauto. Qed.

Lemma firstSeen_NoDup ps : NoDup (firstSeen ps).
Proof. apply firstSeenFrom_NoDup. constructor. Qed.
End FirstSeen.

Section BuildDone.
Variable contentIDToBytes : string → list Z.
Implicit Types (b : packIndexBuilder) (it : Info) (layout : indexLayout).



Lemma Build_Done w b out :
  Build contentIDToBytes w b = Done out →
  ∃ layout bodies, built contentIDToBytes (sortedBlocks b) layout bodies out.
Proof.
  unfold Build. set (blocks := sortedBlocks b). intros H.
  apply bind_Done in H as ([extraData layout] & Hprep & H).
  apply bind_Done in H as (acc0 & Hhdr & H). apply wrapErr_Done in Hhdr.
  apply bind_Done in H as (acc1 & Hent & H).
  apply bind_Done in H as (acc2 & Hext & H). apply wrapErr_Done in Hext.
  unfold wWrite, wFlush in *.
  destruct (write_err w [] _); [discriminate |]. injection Hhdr as <-.
  destruct (write_err w acc1 _); [discriminate |]. injection Hext as <-.
  destruct (flush_err w _); [discriminate |]. injection H as <-.
  apply writeEntries_Done in Hent as (bodies & Hall & ->).
  unfold prepareExtraData in Hprep.
  apply bind_Done in Hprep as ([extraData' layout'] & Hloop & Hprep).
  injection Hprep as <- <-.
  assert (Forall (λ it, PackFile it ≠ "") blocks) as Hpf.
  { apply Forall_forall. intros it Hin.
    apply list_elem_of_lookup in Hin as [i Hi].
    destruct (Forall2_lookup_l _ _ _ i it Hall Hi) as (body & _ & [Hf _]).
    by apply formatEntry_Done in Hf as [? _]. }
  destruct (prepareExtraData_loop_Done contentIDToBytes _ _ _ _ _ _ Hloop Hpf []
              offsetsFor_nil) as (Hoffs & Hc & Hl & Hk).
  simpl in Hc, Hl, Hk.
  exists (mkLayout (packFileOffsets layout') (entryCount layout')
            (keyLength layout') (entryLength layout')
            (u32 (8 + entryCount layout'
                      * (keyLength layout' + entryLength layout')))), bodies.
  rewrite Hc, Hl in Hall. unfold built. simpl. rewrite Hc, Hl.
  destruct Hoffs as (Hnd & Hex & Hdom & Hoff).
  fold (firstSeen (PackFile <$> blocks)) in Hnd, Hex, Hdom, Hoff.
  rewrite <- Hex.
  repeat split; try done; by apply Hdom.
Qed.

Lemma built_key_length blocks layout bodies out it :
  built contentIDToBytes blocks layout bodies out → it ∈ blocks →
  length (contentIDToBytes (BlockID it)) = keyWidth contentIDToBytes blocks ∧
  keyLength layout = Z.of_nat (keyWidth contentIDToBytes blocks).
Proof.
  intros (_ & _ & Hk & _ & _ & Hall & _) Hin.
  apply list_elem_of_lookup in Hin as [i Hi].
  destruct (Forall2_lookup_l _ _ _ i it Hall Hi) as (body & _ & [_ Hlen]).
  destruct blocks as [|hd rest]; [by rewrite lookup_nil in Hi |].
  simpl. unfold len in *. lia.
Qed.

(** Where entry [i] sits in the blob. *)
Lemma built_entry blocks layout bodies out i it :
  built contentIDToBytes blocks layout bodies out → blocks !! i = Some it →
  ∃ pre body post,
    out = pre ++ contentIDToBytes (BlockID it) ++ body ++ post ∧
    length pre = (8 + i * (keyWidth contentIDToBytes blocks + 20))%nat ∧
    length (contentIDToBytes (BlockID it)) = keyWidth contentIDToBytes blocks ∧
    formatEntry it layout = Done body.
Proof.
  intros Hb Hi.
  destruct (built_key_length _ _ _ _ it Hb) as [Hkl _];
    [by eapply list_elem_of_lookup_2 |].
  pose proof Hb as (_ & _ & _ & _ & _ & Hall & ->).
  destruct (Forall2_lookup_l _ _ _ i it Hall Hi) as (body & Hbody & [Hf _]).
  set (entries := zip_with _ blocks bodies).
  assert (entries !! i = Some (contentIDToBytes (BlockID it) ++ body)) as He.
  { subst entries. rewrite lookup_zip_with, Hi. simpl. by rewrite Hbody. }
  assert (Forall (λ e, length e = (keyWidth contentIDToBytes blocks + 20)%nat) entries) as Hlen.
  { apply Forall_forall. intros e [j Hj]%list_elem_of_lookup.
    subst entries. apply lookup_zip_with_Some in Hj as (it' & body' & -> & Hit' & Hb').
    destruct (Forall2_lookup_lr _ _ _ j it' body' Hall Hit' Hb') as [Hf' _].
    destruct (built_key_length _ _ _ _ it' Hb) as [Hkl' _];
      [by eapply list_elem_of_lookup_2 |].
    rewrite length_app, Hkl', (formatEntry_length _ _ _ Hf'). done. }
  destruct (concat_uniform_split _ _ _ _ Hlen He) as (pre & post & -> & Hpre).
  exists (([1; u8 (keyLength layout); 0; 20] ++ putUint32 (u32 (len blocks))) ++ pre),
    body, (post ++ concat (bytesOf <$> firstSeen (PackFile <$> blocks))).
  repeat split; [| | done..].
  - by rewrite <- !app_assoc.
  - rewrite length_app, Hpre. reflexivity.
Qed.
End BuildDone.

Section BlobFields.
Variable contentIDToBytes : string → list Z.
Implicit Types (b : packIndexBuilder) (it : Info) (layout : indexLayout).

Lemma body_slices X Y P L :
  let body := putUint64 X ++ putUint32 Y ++ putUint32 P ++ putUint32 L in
  slice 0 8 body = putUint64 X ∧ slice 8 4 body = putUint32 Y ∧
  slice 12 4 body = putUint32 P ∧ slice 16 4 body = putUint32 L.
Proof. repeat split. Qed.

Lemma concat_uniform_length {A} (ls : list (list A)) m :
  Forall (λ e, length e = m) ls → length (concat ls) = (length ls * m)%nat.
Proof.
  induction 1 as [|e ls He _ IH]; simpl; [done |].
  rewrite length_app, IH, He. lia.
Qed.

Lemma built_entry_slices blocks layout bodies out i it :
  built contentIDToBytes blocks layout bodies out → blocks !! i = Some it →
  ∃ body,
    formatEntry it layout = Done body ∧
    entryKey (keyWidth contentIDToBytes blocks) i out
      = contentIDToBytes (BlockID it) ∧
    entryBody (keyWidth contentIDToBytes blocks) i out = body.
Proof.
  intros Hb Hi.
  destruct (built_entry _ _ _ _ _ _ _ Hb Hi)
    as (pre & body & post & -> & Hpre & Hkl & Hf).
  exists body. split; [done |]. unfold entryKey, entryBody.
  rewrite <- Hpre, <- Hkl. split.
  - rewrite slice_app_length. apply take_app_length.
  - rewrite app_assoc, <- length_app, slice_app_length.
    rewrite <- (formatEntry_length _ _ _ Hf). apply take_app_length.
Qed.

Lemma built_length blocks layout bodies out :
  built contentIDToBytes blocks layout bodies out →
  out = take (8 + length blocks * (keyWidth contentIDToBytes blocks + 20)) out
        ++ concat (bytesOf <$> firstSeen (PackFile <$> blocks)) ∧
  length (take (8 + length blocks * (keyWidth contentIDToBytes blocks + 20)) out)
  = (8 + length blocks * (keyWidth contentIDToBytes blocks + 20))%nat.
Proof.
  intros Hb. pose proof Hb as (_ & _ & _ & _ & _ & Hall & Hout).
  set (entries := zip_with _ blocks bodies) in Hout.
  assert (length (concat entries)
          = (length blocks * (keyWidth contentIDToBytes blocks + 20))%nat) as Hlen.
  { replace (length blocks) with (length entries).
    - apply concat_uniform_length, Forall_forall.
      intros e [j Hj]%list_elem_of_lookup. subst entries.
      apply lookup_zip_with_Some in Hj as (it' & body' & -> & Hit' & Hb').
      destruct (Forall2_lookup_lr _ _ _ j it' body' Hall Hit' Hb') as [Hf' _].
      destruct (built_key_length _ _ _ _ _ it' Hb) as [Hkl' _];
        [by eapply list_elem_of_lookup_2 |].
      by rewrite length_app, Hkl', (formatEntry_length _ _ _ Hf').
    - subst entries. rewrite length_zip_with.
      apply Forall2_length in Hall. lia. }
  set (hdr := [1; u8 (keyLength layout); 0; 20] ++ putUint32 (u32 (len blocks))) in Hout.
  assert (length (hdr ++ concat entries)
          = (8 + length blocks * (keyWidth contentIDToBytes blocks + 20))%nat) as Hhe
    by (rewrite length_app, Hlen; reflexivity).
  rewrite <- Hhe. subst out.
  rewrite (app_assoc hdr), take_app_length. done.
Qed.
End BlobFields.



(** The other two bit fields overflow in the same way: a pack-file ID of
    256 bytes leaves 0 in the low 8 bits and its carry in the format-version
    bits, and a timestamp of 2^48 leaves 0 in the high 48 bits. *)
Lemma Build_long_pack_file_id_spills_over :
  let packFile := String.string_of_list_ascii (replicate 256 (Ascii.ascii_of_nat 112)) in
  let it := mkInfo "ab" 1 5 packFile 0 false [] 0 in
  ∃ out, Build bytesOf bytesBuffer (Add ∅ it) = Done out ∧
         slen (PackFile it) = 256 ∧
         Z.land (entryTimestampAndFlags (entryBody 2 0 out)) 255 = 0 ∧
         Z.land (entryTimestampAndFlags (entryBody 2 0 out) ≫ 8) 255 = 1.
Proof. eexists. split; [vm_compute; reflexivity |]. repeat split. Qed.

Lemma Build_timestamp_beyond_48_bits_is_cut :
  let it := mkInfo "ab" 1 (2 ^ 48) "p1" 0 false [] 0 in
  ∃ out, Build bytesOf bytesBuffer (Add ∅ it) = Done out ∧
         Info_typed it ∧
         entryTimestampAndFlags (entryBody 2 0 out) ≫ 16 = 0.
Proof.
  eexists. split; [vm_compute; reflexivity |].
  split; [unfold Info_typed; simpl; pow2_consts; lia | reflexivity].
Qed.


Lemma u32_range z : 0 ≤ u32 z < 2 ^ 32.
Proof. unfold u32. apply Z.mod_pos_bound. lia. Qed.

(** C6, as stated, fails: [packIndexBuilder] is a Go map, and a map that
    holds two infos with one content ID under two keys builds; the blob
    then has the same key twice, so the order of its entries is not
    strict. *)
Lemma Build_repeated_block_id_repeats_key :
  let b : packIndexBuilder :=
    <["k1" := mkInfo "ab" 100 5 "p1" 0 false [] 1]>
      (<["k2" := mkInfo "ab" 7 6 "p2" 64 false [] 1]> ∅) in
  ∃ out, Build bytesOf bytesBuffer b = Done out ∧
         BlockID <$> sortedBlocks b = ["ab"; "ab"] ∧
         entryKey 2 0 out = bytesOf "ab" ∧
         entryKey 2 1 out = bytesOf "ab".
Proof. eexists. vm_compute. auto. Qed.

(** C6 (amended): for every builder filled through [Add], that is, with
    every info under its own content ID, whose [Build] succeeds, the
    entries are encoded in strictly ascending order of content ID (so no
    key occurs twice); the extra-data section is the concatenation of the
    pack-file IDs of the entries, each once, in first-seen order; and,
    offsets being 32 bits wide, in a blob shorter than 2^32 bytes every
    entry's [packFileOffset] is the position, inside the extra-data
    section, at which its pack-file ID starts. *)
Theorem Build_sorted_entries_and_extra_data
    (contentIDToBytes : string → list Z) (w : ioWriter)
    (b : packIndexBuilder) (out : list Z) :
  keyed b →
  Build contentIDToBytes w b = Done out →
  let blocks := sortedBlocks b in
  let kl := keyWidth contentIDToBytes blocks in
  let packFiles := firstSeen (PackFile <$> blocks) in
  StronglySorted (strict String.le) (BlockID <$> blocks) ∧
  (∀ i it, blocks !! i = Some it →
     entryKey kl i out = contentIDToBytes (BlockID it)) ∧
  extraDataSection kl (length blocks) out = concat (bytesOf <$> packFiles) ∧
  NoDup packFiles ∧
  (∀ p, p ∈ packFiles ↔ ∃ it, it ∈ blocks ∧ PackFile it = p) ∧
  (len out < 2 ^ 32 →
   ∀ i it, blocks !! i = Some it →
     let off := entryPackFileOffset (entryBody kl i out) in
     Z.of_nat (8 + length blocks * (kl + 20)) ≤ off ∧
     slice (Z.to_nat off) (String.length (PackFile it)) out
       = bytesOf (PackFile it)).
Proof.
  intros Hkeyed Hbuild blocks kl packFiles.
  apply Build_Done in Hbuild as (layout & bodies & Hb). fold blocks in Hb.
  destruct (built_length _ _ _ _ _ Hb) as [Hsplit Htake].
  fold kl packFiles in Hsplit, Htake.
  set (E := (8 + length blocks * (kl + 20))%nat) in *.
  split; [by apply sortedBlocks_strict |].
  split.
  { intros i it Hi.
    by destruct (built_entry_slices _ _ _ _ _ _ _ Hb Hi) as (body & _ & ? & _). }
  split.
  { unfold extraDataSection. fold E. rewrite Hsplit at 1.
    by rewrite drop_app_length' by done. }
  split; [apply firstSeen_NoDup |].
  split.
  { intros p. unfold packFiles. rewrite firstSeen_elem_of, list_elem_of_fmap.
    split; intros (it & ? & ?); exists it; done. }
  intros Hsmall i it Hi off.
  destruct (built_entry_slices _ _ _ _ _ _ _ Hb Hi) as (body & Hf & _ & Hbody).
  fold kl in Hbody. subst off. rewrite Hbody.
  apply formatEntry_Done in Hf as [Hpf Hf].
  destruct (body_slices
    (Z.lor (Z.lor (u64 (u64 (TimestampSeconds it) ≪ 16))
                  (u64 (u64 (FormatVersion it) ≪ 8))) (u64 (slen (PackFile it))))
    (u32 (extraDataOffset layout + default 0 (packFileOffsets layout !! PackFile it)))
    (if Deleted it then Z.lor (PackOffset it) 2147483648 else PackOffset it)
    (Length it)) as (_ & Hp & _ & _).
  rewrite <- Hf in Hp. unfold entryPackFileOffset. rewrite Hp. clear Hp Hf.
  assert (PackFile it ∈ packFiles) as Hin.
  { unfold packFiles. rewrite firstSeen_elem_of. apply list_elem_of_fmap_2.
    by eapply list_elem_of_lookup_2. }
  apply list_elem_of_split in Hin as (pre & post & Hpq).
  pose proof Hb as (_ & _ & _ & Hedo & (_ & _ & _ & Hoff) & _ & _).
  fold packFiles in Hoff. rewrite (Hoff _ _ _ Hpq).
  change (default 0 (Some ?x)) with x.
  destruct (built_key_length _ _ _ _ _ it Hb) as [_ Hkl];
    [by eapply list_elem_of_lookup_2 |].
  fold kl in Hkl. rewrite Hedo, Hkl.
  set (P := length (concat (bytesOf <$> pre))) in *.
  assert (out = (take E out ++ concat (bytesOf <$> pre))
                ++ bytesOf (PackFile it) ++ concat (bytesOf <$> post)) as Hout.
  { rewrite Hsplit at 1. rewrite Hpq, fmap_app, concat_app. simpl.
    by rewrite <- !app_assoc. }
  assert (Z.of_nat (E + P + String.length (PackFile it)) ≤ len out) as Hle.
  { unfold len. rewrite Hout at 1. rewrite !length_app, Htake, length_bytesOf.
    fold P. lia. }
  assert (u32 (u32 (8 + len blocks * (Z.of_nat kl + 20))
               + u32 (len (concat (bytesOf <$> pre))))
          = Z.of_nat (E + P)) as ->.
  { unfold len in *. fold P. unfold E in *. pow2_consts.
    rewrite (u32_small (8 + _)), (u32_small (Z.of_nat P)) by (pow2_consts; nia).
    rewrite u32_small by (pow2_consts; nia). nia. }
  rewrite beUint_putUint32 by (unfold len in *; pow2_consts; lia).
  split; [lia |]. rewrite Nat2Z.id.
  rewrite Hout.
  replace (E + P)%nat with (length (take E out ++ concat (bytesOf <$> pre)))
    by (rewrite length_app, Htake; done).
  rewrite slice_app_length, <- length_bytesOf. apply take_app_length.
Qed.

(** *** The two theorems at a three-entry builder *)

Lemma Add_lookup_Some (b : packIndexBuilder) (i : Info) k it :
  Add b i !! k = Some it → it = i ∨ b !! k = Some it.
Proof.
  unfold Add. destruct (b !! BlockID i) as [old|]; [destruct (_ >=? _)|];
    rewrite ?lookup_insert_Some; intros H; try tauto;
    destruct H as [[_ <-]|[_ H]]; auto.
Qed.


Lemma Build_sorted_entries_and_extra_data_witness :
  let b : packIndexBuilder :=
    Add (Add (Add ∅ (mkInfo "ab" 100 5 "p1" 0 false [] 1))
             (mkInfo "aa" 7 6 "p2" 64 false [] 1))
        (mkInfo "ac" 0 7 "p1" 0 true [] 1) in
  ∃ out, Build bytesOf bytesBuffer b = Done out ∧
    BlockID <$> sortedBlocks b = ["aa"; "ab"; "ac"] ∧
    StronglySorted (strict String.le) (BlockID <$> sortedBlocks b) ∧
    extraDataSection 2 3 out = bytesOf "p2" ++ bytesOf "p1" ∧
    ∀ i it, sortedBlocks b !! i = Some it →
      slice (Z.to_nat (entryPackFileOffset (entryBody 2 i out)))
            (String.length (PackFile it)) out
      = bytesOf (PackFile it).
Proof.
  intros b. eexists. split; [vm_compute; reflexivity |].
  match goal with |- context [extraDataSection 2 3 ?o] => set (out := o) end.
  assert (keyed b) as Hkeyed by (repeat apply keyed_Add; apply keyed_empty).
  assert (Build bytesOf bytesBuffer b = Done out) as Hbuild by (vm_compute; reflexivity).
  assert (len out < 2 ^ 32) as Hsmall by (vm_compute; reflexivity).
  destruct (Build_sorted_entries_and_extra_data bytesOf bytesBuffer b out
              Hkeyed Hbuild) as (Hsorted & _ & Hextra & _ & _ & Hoff).
  split; [vm_compute; reflexivity |].
  split; [exact Hsorted |].
  split; [exact Hextra |].
  intros i it Hi. exact (proj2 (Hoff Hsmall i it Hi)).
Defined.

(** ** The disk cache *)

Import diskcache.

Section CacheFacts.

Variable quote : string → string.

Implicit Types (c : diskCommittedBlockIndexCache) (tr : list event).

Lemma runs_bind {A B} (m : io A) (f : A → io B) tr b :
  runs (m ≫= f) tr b ↔
  ∃ tr1 tr2 a, tr = tr1 ++ tr2 ∧ runs m tr1 a ∧ runs (f a) tr2 b.
Proof.
  revert tr. induction m as [a|X c k IH]; intros tr; simpl.
  - split.
    + intros H. by exists [], tr, a.
    + intros (tr1 & tr2 & a' & -> & [-> ->] & H). done.
  - split.
    + intros (r & tr' & -> & H). apply IH in H as (tr1 & tr2 & a & -> & H1 & H2).
      exists (Ev c r :: tr1), tr2, a. eauto 10.
    + intros (tr1 & tr2 & a & -> & (r & tr' & -> & H1) & H2).
      exists r, (tr' ++ tr2). split; [done |]. apply IH. eauto 10.
Qed.

Lemma interp_runs {S A} (os : osModel S) (p : io A) s a tr s' :
  interp os p s = (a, tr, s') → runs p tr a.
Proof.
  revert s a tr s'. induction p as [a'|X c k IH]; intros s a tr s'; simpl.
  - by intros [= <- <- <-].
  - destruct (respond os c s) as [r s1].
    destruct (interp os (k r) s1) as [[a1 tr1] s2] eqn:E.
    intros [= <- <- <-]. exists r, tr1. split; [done |]. by eapply IH.
Qed.

(** The runs of [hasIndexBlockID]: one [Stat], whose answer decides. *)
Lemma hasIndexBlockID_runs c id tr res :
  runs (hasIndexBlockID c id) tr res →
  ∃ r, tr = [Ev (Stat (indexBlockPath c id)) r] ∧
       res = match r with
             | None => (true, None)
             | Some e => if notExist e then (false, None)
                         else (false, Some (OsError e))
             end.
Proof.
  unfold hasIndexBlockID, perform, mbind, io_mbind. simpl.
  intros (r & tr' & -> & H). exists r.
  destruct r as [e|]; [destruct (notExist e)|]; destruct H as [-> ->]; done.
Qed.

(** The runs of [writeTempFileAtomic]: it fails with a formatted error
    and no file to rename, or it has created a temp file in [dir] (after
    creating [dir] when the first attempt found it missing), written [data]
    to it and closed it. *)
Lemma writeTempFileAtomic_runs dir data tr name err :
  runs (writeTempFileAtomic dir data) tr (name, err) →
  (∃ msg, err = Some (Errorf msg) ∧ Forall (λ ev, isRename ev = false) tr) ∨
  (err = None ∧
   ∃ mk, (mk = [] ∨
          ∃ e, notExist e = true ∧
               mk = [Ev (TempFile dir "tmp") (inr e); Ev (MkdirAll dir) ()]) ∧
         tr = mk ++ [Ev (TempFile dir "tmp") (inl name);
                     Ev (FWrite name data) None; Ev (FClose name) None]).
Proof.
  assert (∀ tf tr0,
    runs (match tf with
          | inr err =>
              Ret ("", Some (Errorf ("can't create tmp file: " +:+ message err)))
          | inl tf =>
              werr ← perform (FWrite tf data);
              match werr with
              | Some err =>
                  Ret ("", Some (Errorf ("can't write to temp file: " +:+ message err)))
              | None =>
                  cerr ← perform (FClose tf);
                  match cerr with
                  | Some _ => Ret ("", Some (Errorf "can't close tmp file"))
                  | None => Ret (tf, None)
                  end
              end
          end) tr0 (name, err) →
    (∃ msg, err = Some (Errorf msg) ∧ Forall (λ ev, isRename ev = false) tr0) ∨
    (err = None ∧ tf = inl name ∧
     tr0 = [Ev (FWrite name data) None; Ev (FClose name) None])) as Htail.
  { intros [tf|e] tr0; unfold perform, mbind, io_mbind; simpl.
    - intros ([e|] & tr1 & -> & H); simpl in H.
      + destruct H as [-> [= -> ->]]. left. eexists. split; [done |].
        repeat constructor.
      + destruct H as ([e|] & tr2 & -> & [-> [= -> ->]]).
        * left. eexists. split; [done |]. repeat constructor.
        * right. done.
    - intros [-> [= -> ->]]. left. eexists. split; [done |]. constructor. }
  unfold writeTempFileAtomic. intros H.
  apply runs_bind in H as (tr1 & tr2 & tf1 & -> & H1 & H).
  apply runs_bind in H as (tr3 & tr4 & tf2 & -> & H2 & H3).
  destruct H1 as (r & ? & -> & -> & ->).
  apply Htail in H3 as [(msg & -> & Hnr)|(-> & -> & ->)].
  - left. exists msg. split; [done |].
    apply Forall_cons. split; [done |]. apply Forall_app. split; [| done].
    destruct r as [tf|e]; [destruct H2 as [-> _]; constructor |].
    destruct (notExist e).
    + apply runs_bind in H2 as (? & ? & [] & -> & (? & ? & -> & -> & _) & H2).
      destruct H2 as (? & ? & -> & -> & _). repeat constructor.
    + destruct H2 as [-> _]. constructor.
  - right. split; [done |].
    destruct r as [tf|e]; [destruct H2 as [-> [= ->]]; exists []; eauto |].
    destruct (notExist e) eqn:Hne.
    + apply runs_bind in H2 as (? & ? & ? & -> & ([] & ? & -> & -> & _) & H2).
      destruct H2 as (? & ? & -> & -> & <-).
      eexists. split; [right; eauto |]. done.
    + by destruct H2 as [_ ?].
Qed.

(** With nothing failing and no other process, an [addBlockToCache] of an
    ID that is not cached leaves [data] under the index file's path and no
    temp file. *)
Lemma addBlockToCache_memfs_installs c id data (s : memfs) :
  files s !! indexBlockPath c id = None →
  ∃ tr s',
    interp memfsModel (addBlockToCache quote c id data) s = (None, tr, s') ∧
    files s' = <[indexBlockPath c id := data]>
                 (delete (Join (dirname c) ("tmp" +:+ pretty (tempCount s))) (files s)).
Proof.
  intros Habs. unfold addBlockToCache, hasIndexBlockID, writeTempFileAtomic,
    perform, mbind, io_mbind. simpl. rewrite Habs. simpl.
  destruct (dirExists s); simpl; rewrite !lookup_insert_eq; simpl;
    rewrite lookup_insert_eq; simpl; do 2 eexists; (split; [reflexivity |]); simpl;
    by rewrite insert_insert_eq, delete_insert_eq.
Qed.

Lemma addBlockToCache_memfs_present c id data (s : memfs) :
  is_Some (files s !! indexBlockPath c id) →
  interp memfsModel (addBlockToCache quote c id data) s
  = (None, [Ev (Stat (indexBlockPath c id)) None], s).
Proof.
  intros [old Hold]. unfold addBlockToCache, hasIndexBlockID,
    perform, mbind, io_mbind. simpl. by rewrite Hold.
Qed.

End CacheFacts.

(** C8, as stated, fails: an error is returned in runs in which the file
    is never found absent.  When the first [Stat] fails with an error other
    than not-exist, the call returns that error and neither reports success
    nor writes anything; and when the rename fails and the presence check
    that follows fails with such an error, the call returns it, although
    nothing says that the file is still absent. *)
Lemma addBlockToCache_error_without_absence :
  let c := mkCache "cache" in
  let denied := mkOsError false "stat cache/n1.sndx: permission denied" in
  let busy := mkOsError false "rename cache/tmp0 cache/n1.sndx: access is denied" in
  notExist denied = false ∧
  runs (addBlockToCache quotePlain c "n1" [1; 2; 3])
       [Ev (Stat "cache/n1.sndx") (Some denied)]
       (Some (OsError denied)) ∧
  runs (addBlockToCache quotePlain c "n1" [1; 2; 3])
       [Ev (Stat "cache/n1.sndx") (Some enoent);
        Ev (TempFile "cache" "tmp") (inl "cache/tmp0");
        Ev (FWrite "cache/tmp0" [1; 2; 3]) None;
        Ev (FClose "cache/tmp0") None;
        Ev (Rename "cache/tmp0" "cache/n1.sndx") (Some busy);
        Ev (Stat "cache/n1.sndx") (Some denied)]
       (Some (OsError denied)).
Proof.
  intros c denied busy. split; [reflexivity |].
  split;
    unfold addBlockToCache, hasIndexBlockID, writeTempFileAtomic,
      perform, mbind, io_mbind; simpl;
    repeat (eexists _, _; split; [reflexivity | simpl]); done.
Qed.

(** C8 (amended): every run of [addBlockToCache] starts with a presence
    check (a [Stat] of the index file's path).  When the file is present,
    nothing else is called and the result is success; when the check fails
    with an error other than not-exist, that error is the result and nothing
    else is called.  When the file is absent, the bytes are written to a
    temp file created in the cache directory, the file is closed and renamed
    into place (unless producing the temp file fails, which is returned as
    an error before any rename).  When the rename fails, presence is checked
    again: the result is success when the file is found, the error
    "unsuccessful index write of block ..." when it is still absent, and
    the error of the check when the check itself fails otherwise. *)
Theorem addBlockToCache_runs (quote : string → string)
    (c : diskCommittedBlockIndexCache)
    (indexBlockID : string) (data : list Z) (tr : list event) (res : option error) :
  runs (addBlockToCache quote c indexBlockID data) tr res →
  let path := indexBlockPath c indexBlockID in
  ∃ r0 rest, tr = Ev (Stat path) r0 :: rest ∧
    (r0 = None → rest = [] ∧ res = None) ∧
    (∀ e, r0 = Some e → notExist e = false → rest = [] ∧ res = Some (OsError e)) ∧
    (∀ e, r0 = Some e → notExist e = true →
       (∃ msg, res = Some (Errorf msg) ∧ Forall (λ ev, isRename ev = false) rest) ∨
       (∃ mk tf rr post,
          (mk = [] ∨
           ∃ e', notExist e' = true ∧
                 mk = [Ev (TempFile (dirname c) "tmp") (inr e');
                       Ev (MkdirAll (dirname c)) ()]) ∧
          rest = mk ++ [Ev (TempFile (dirname c) "tmp") (inl tf);
                        Ev (FWrite tf data) None; Ev (FClose tf) None;
                        Ev (Rename tf path) rr] ++ post ∧
          (rr = None → post = [] ∧ res = None) ∧
          (∀ re, rr = Some re →
             ∃ r1, post = [Ev (Stat path) r1] ∧
               (r1 = None → res = None) ∧
               (∀ e1, r1 = Some e1 → notExist e1 = true →
                  res = Some (Errorf ("unsuccessful index write of block "
                                      +:+ quote indexBlockID))) ∧
               (∀ e1, r1 = Some e1 → notExist e1 = false →
                  res = Some (OsError e1))))).
Proof.
  intros H path. unfold addBlockToCache in H.
  apply runs_bind in H as (tr1 & tr2 & [ex err] & -> & Hhas & H).
  apply hasIndexBlockID_runs in Hhas as (r0 & -> & Hres). fold path in Hres.
  exists r0, tr2. split; [done |].
  destruct r0 as [e0|]; [destruct (notExist e0) eqn:Hne0|];
    injection Hres as -> ->; cbv beta iota in H.
  - (* absent *)
    split; [done |]. split; [congruence |]. intros e [= <-] _.
    apply runs_bind in H as (wtr & tr3 & [tmpFile werr] & -> & Hw & H).
    apply writeTempFileAtomic_runs in Hw as [(msg & -> & Hnr)|(-> & mk & Hmk & ->)].
    + cbv beta iota in H. destruct H as [-> ->]. left. exists msg.
      by rewrite app_nil_r.
    + right. cbv beta iota in H. apply runs_bind in H as (? & post & rr & -> & (? & ? & -> & -> & <-) & H).
      exists mk, tmpFile, rr, post. split; [done |].
      split; [by rewrite <- !app_assoc |].
      destruct rr as [re|].
      * split; [done |]. intros ? _.
        apply runs_bind in H as (tr4 & tr5 & [ex1 err1] & -> & Hhas1 & H).
        apply hasIndexBlockID_runs in Hhas1 as (r1 & -> & Hres1). fold path in Hres1.
        exists r1.
        destruct r1 as [e1|]; [destruct (notExist e1) eqn:Hne1|];
          injection Hres1 as -> ->; cbv beta iota in H; destruct H as [-> ->];
          (split; [done |]); repeat split; try done; intros ? [= <-]; congruence.
      * destruct H as [-> ->]. split; [done |]. done.
  - split; [done |]. split; [| congruence]. intros e [= <-] _.
    by destruct H as [-> ->].
  - destruct H as [-> ->]. split; [done |]. split; intros; done.
Qed.

Lemma addBlockToCache_runs_witness :
  let c := mkCache "cache" in
  let busy := mkOsError false "rename cache/tmp0 cache/n1.sndx: access is denied" in
  let tr := [Ev (Stat "cache/n1.sndx") (Some enoent);
             Ev (TempFile "cache" "tmp") (inl "cache/tmp0");
             Ev (FWrite "cache/tmp0" [1; 2; 3]) None;
             Ev (FClose "cache/tmp0") None;
             Ev (Rename "cache/tmp0" "cache/n1.sndx") (Some busy);
             Ev (Stat "cache/n1.sndx") None] in
  runs (addBlockToCache quotePlain c "n1" [1; 2; 3]) tr None ∧
  ∃ r0 rest, tr = Ev (Stat (indexBlockPath c "n1")) r0 :: rest ∧
             (r0 = None → rest = [] ∧ (None : option error) = None).
Proof.
  intros c busy tr.
  assert (runs (addBlockToCache quotePlain c "n1" [1; 2; 3]) tr None) as Hrun.
  { unfold addBlockToCache, hasIndexBlockID, writeTempFileAtomic,
      perform, mbind, io_mbind. simpl.
    repeat (eexists _, _; split; [reflexivity | simpl]). done. }
  split; [exact Hrun |].
  destruct (addBlockToCache_runs quotePlain c "n1" [1; 2; 3] tr None Hrun)
    as (r0 & rest & Heq & Hpresent & _).
  exists r0, rest. split; [exact Heq | exact Hpresent].
Defined.

(** ** The logging wrapper *)

Section LoggingFacts.

Context {W Log Ctx Err ConnInfo : Type}.

Implicit Types (s : logging.loggingStorage W Log Ctx Err ConnInfo)
               (l : storage.listing W Err).

(** Counting does not change what the callback is given, what it returns
    or what it does; the count ends up as the number of invocations. *)
Lemma drive_countingCallback {C} (cb : storage.callback W Err C) l (c : C) (cnt : Z) :
  storage.drive (logging.countingCallback cb) l (c, cnt)
  = let '(err, w, c1, seen) := storage.drive cb l c in
    (err, w, (c1, cnt + len seen), seen).
Proof.
  revert c cnt. induction l as [err w|bi w k IH]; intros c cnt; simpl.
  - unfold len. simpl. by rewrite Z.add_0_r.
  - destruct (cb bi w c) as [[r w1] c1]. rewrite IH.
    destruct (storage.drive cb (k r w1) c1) as [[[err w2] c2] seen].
    unfold len. simpl length. do 3 f_equal. lia.
Qed.

(** The options of the package leave the wrapped store in place. *)
Lemma NewWrapper_base debugf (wrapped : storage.Storage W Ctx Err ConnInfo)
    (options : list (logging.Option W Log Ctx Err ConnInfo)) :
  Forall (λ o, (∃ f, o = logging.Output f) ∨ (∃ p, o = logging.Prefix p)) options →
  logging.base (logging.NewWrapper debugf wrapped options) = wrapped.
Proof.
  unfold logging.NewWrapper.
  assert (∀ s0,
    Forall (λ o, (∃ f, o = logging.Output f) ∨ (∃ p, o = logging.Prefix p)) options →
    logging.base (foldl (λ s o, o s) s0 options) = logging.base s0) as H.
  { induction options as [|o os IH]; intros s0 Hall; simpl; [done |].
    apply Forall_cons in Hall as [Ho Hall]. rewrite IH by done.
    by destruct Ho as [[f ->]|[p ->]]. }
  intros Hall. by rewrite H.
Qed.

End LoggingFacts.

(** C9: for every operation of the blob-store interface and all
    arguments, the call through the logging wrapper passes the same
    arguments to the wrapped store and returns the wrapped store's result
    and error unchanged, leaving the store's state as the direct call does;
    for [ListBlocks] the caller's callback is invoked with exactly the
    metadata the wrapped store produces, its return values reach the store,
    and the state it captures ends up the same.  Only the log differs. *)
Theorem loggingStorage_pass_through {W Log Ctx Err ConnInfo : Type}
    (now : W → Z) (s : logging.loggingStorage W Log Ctx Err ConnInfo) (ctx : Ctx) :
  (∀ id offset length w lg,
     logging.observed (logging.GetBlock now s ctx id offset length w lg)
     = storage.GetBlock (logging.base s) ctx id offset length w) ∧
  (∀ id data w lg,
     logging.observed (logging.PutBlock now s ctx id data w lg)
     = storage.PutBlock (logging.base s) ctx id data w) ∧
  (∀ id w lg,
     logging.observed (logging.DeleteBlock now s ctx id w lg)
     = storage.DeleteBlock (logging.base s) ctx id w) ∧
  (∀ C prefix (cb : storage.callback W Err C) w c lg,
     logging.observed (logging.ListBlocks now s ctx prefix cb w c lg)
     = storage.callListBlocks (logging.base s) ctx prefix cb w c) ∧
  (∀ w lg,
     logging.observed (logging.Close now s ctx w lg)
     = storage.Close (logging.base s) ctx w) ∧
  (∀ w lg,
     logging.observed (logging.ConnectionInfo s w lg)
     = storage.ConnectionInfo (logging.base s) w).
Proof.
  repeat split; intros; unfold logging.observed.
  - unfold logging.GetBlock.
    by destruct (storage.GetBlock _ _ _ _ _ _) as [[result err] w1].
  - unfold logging.PutBlock. by destruct (storage.PutBlock _ _ _ _ _) as [err w1].
  - unfold logging.DeleteBlock.
    by destruct (storage.DeleteBlock _ _ _ _) as [err w1].
  - unfold logging.ListBlocks, storage.callListBlocks.
    rewrite drive_countingCallback.
    by destruct (storage.drive cb _ c) as [[[err w1] c1] seen].
  - unfold logging.Close. by destruct (storage.Close _ _ _) as [err w1].
  - unfold logging.ConnectionInfo.
    by destruct (storage.ConnectionInfo _ _) as [ci w1].
Qed.

(** ** Build: the inputs it accepts *)

Section BuildOutcome.

Variable contentIDToBytes : string → list Z.
Implicit Types (b : packIndexBuilder) (it : Info) (layout : indexLayout).

Lemma slen_0 s : slen s = 0 ↔ s = "".
Proof.
  unfold slen. destruct s; simpl; split; intros H; try done; lia.
Qed.

Lemma formatEntry_nonempty it layout :
  PackFile it ≠ "" → ∃ body, formatEntry it layout = Done body.
Proof.
  intros H. unfold formatEntry.
  destruct (decide (slen (PackFile it) = 0)) as [E|_]; [|eauto].
  by apply slen_0 in E.
Qed.

Lemma formatEntry_empty it layout :
  PackFile it = "" →
  formatEntry it layout = Failed ("empty pack block ID for " +:+ BlockID it).
Proof.
  intros H. unfold formatEntry.
  destruct (decide (slen (PackFile it) = 0)) as [_|E]; [done|].
  exfalso. apply E. by apply slen_0.
Qed.

Lemma writeEntries_accepted w blocks layout : ∀ acc,
  accepts w →
  Forall (λ it, PackFile it ≠ "" ∧
                len (contentIDToBytes (BlockID it)) = keyLength layout) blocks →
  ∃ out, writeEntries contentIDToBytes w acc blocks layout = Done out.
Proof.
  intros acc [Hw _]. revert acc.
  induction blocks as [|it blocks IH]; intros acc Hall; [by eexists|].
  apply Forall_cons in Hall as [[Hpf Hk] Hall]. simpl.
  unfold writeEntry.
  destruct (decide (len (contentIDToBytes (BlockID it)) ≠ keyLength layout));
    [done|].
  destruct (formatEntry_nonempty it layout Hpf) as [body ->].
  unfold wWrite. cbn. rewrite !Hw. cbn. rewrite Hw. cbn.
  apply IH, Hall.
Qed.

(** The entries up to the first one that [writeEntry] rejects are written;
    the loop stops at that one with its error. *)
Lemma writeEntries_first_rejected w good bad rest layout : ∀ acc,
  accepts w →
  Forall (λ it, PackFile it ≠ "" ∧
                len (contentIDToBytes (BlockID it)) = keyLength layout) good →
  writeEntries contentIDToBytes w acc (good ++ bad :: rest) layout
  = if decide (len (contentIDToBytes (BlockID bad)) ≠ keyLength layout)
    then Failed ("unable to write entry: inconsistent key length: "
                 +:+ pretty (len (contentIDToBytes (BlockID bad)))
                 +:+ " vs " +:+ pretty (keyLength layout))
    else match formatEntry bad layout with
         | Failed e =>
             Failed ("unable to write entry: unable to format entry: " +:+ e)
         | _ => writeEntries contentIDToBytes w acc (good ++ bad :: rest) layout
         end.
Proof.
  intros acc Hacc. pose proof Hacc as [Hw _]. revert acc.
  induction good as [|it good IH]; intros acc Hall.
  - simpl. unfold writeEntry.
    destruct (decide (len (contentIDToBytes (BlockID bad)) ≠ keyLength layout));
      [reflexivity|].
    destruct (formatEntry bad layout) as [body|e|p] eqn:E; reflexivity.
  - apply Forall_cons in Hall as [[Hpf Hk] Hall].
    assert (∃ acc1, wrapErr "unable to write entry: "
                      (writeEntry contentIDToBytes w acc it layout) = Done acc1)
      as [acc1 E1].
    { destruct (writeEntries_accepted w [it] layout acc Hacc) as [out E].
      - by repeat constructor.
      - simpl in E.
        destruct (wrapErr "unable to write entry: "
                    (writeEntry contentIDToBytes w acc it layout)); try done.
        by eexists. }
    change (writeEntries contentIDToBytes w acc ((it :: good) ++ bad :: rest) layout)
      with (wrapErr "unable to write entry: "
              (writeEntry contentIDToBytes w acc it layout)
            ≫= λ acc1, writeEntries contentIDToBytes w acc1 (good ++ bad :: rest) layout).
    rewrite E1. cbn. apply IH, Hall.
Qed.

Lemma prepareExtraData_loop_no_payload blocks : ∀ i layout extraData,
  Forall (λ it, Payload it = []) blocks →
  ∃ extraData' layout',
    prepareExtraData_loop contentIDToBytes i blocks layout extraData
    = Done (extraData', layout').
Proof.
  induction blocks as [|it blocks IH]; intros i layout extraData Hall;
    [by eexists _, _|].
  apply Forall_cons in Hall as [Hp Hall]. simpl.
  destruct (decide (0 < len (Payload it))) as [Hlt|_].
  { rewrite Hp in Hlt. unfold len in Hlt. simpl in Hlt. lia. }
  repeat case_match; by apply IH.
Qed.

(** The key length that [prepareExtraData] records is that of the first
    block, whatever the pack-file IDs are. *)
Lemma prepareExtraData_loop_fields blocks : ∀ i layout extraData extraData' layout',
  prepareExtraData_loop contentIDToBytes i blocks layout extraData
    = Done (extraData', layout') →
  entryCount layout' = entryCount layout ∧
  entryLength layout' = entryLength layout ∧
  keyLength layout' =
    match blocks with
    | it :: _ => if decide (i = 0%nat)
                 then len (contentIDToBytes (BlockID it)) else keyLength layout
    | [] => keyLength layout
    end.
Proof.
  induction blocks as [|it blocks IH]; intros i layout extraData extraData' layout' H.
  { simpl in H. by injection H as <- <-. }
  simpl in H.
  match type of H with
  | (let '(_, _) := ?X in _) = _ => destruct X as [l2 e2] eqn:EX
  end.
  destruct (decide (0 < len (Payload it))); [done|].
  apply IH in H as (E1 & E2 & E3).
  assert (entryCount l2 = entryCount layout ∧
          entryLength l2 = entryLength layout ∧
          keyLength l2 = if decide (i = 0%nat)
                         then len (contentIDToBytes (BlockID it))
                         else keyLength layout) as (F1 & F2 & F3).
  { repeat case_match; simplify_eq; simpl; done. }
  rewrite E1, E2, E3, F1, F2.
  destruct blocks; [done|]. by destruct (decide (S i = 0%nat)).
Qed.

(** What [Build] returns once the payloads are known to be empty and the
    writer accepts everything: the result of the loop over the entries,
    with the extra data appended. *)
Lemma Build_no_payload w b :
  accepts w →
  (∀ k it, b !! k = Some it → Payload it = []) →
  ∃ extraData layout,
    keyLength layout
      = match sortedBlocks b with
        | [] => -1
        | it :: _ => len (contentIDToBytes (BlockID it))
        end ∧
    Build contentIDToBytes w b
    = (acc ← writeEntries contentIDToBytes w
               ([1; u8 (keyLength layout)] ++ putUint16 (u16 (entryLength layout))
                ++ putUint32 (u32 (entryCount layout)))
               (sortedBlocks b) layout;
       Done (acc ++ extraData)).
Proof.
  intros [Hw Hf] Hp.
  assert (Forall (λ it, Payload it = []) (sortedBlocks b)) as Hall.
  { apply Forall_forall. intros it Hin.
    apply elem_of_sortedBlocks in Hin as [k Hk]. eauto. }
  destruct (prepareExtraData_loop_no_payload (sortedBlocks b) 0
              {| packFileOffsets := ∅; keyLength := -1; entryLength := 20;
                 entryCount := len (sortedBlocks b); extraDataOffset := 0 |}
              [] Hall) as (extraData & layout' & E).
  pose proof (prepareExtraData_loop_fields _ _ _ _ _ _ E) as (H1 & H2 & H3).
  exists extraData,
    (mkLayout (packFileOffsets layout') (entryCount layout')
              (keyLength layout') (entryLength layout')
              (u32 (8 + entryCount layout'
                        * (keyLength layout' + entryLength layout')))).
  split.
  - cbn. rewrite H3. by destruct (sortedBlocks b).
  - unfold Build, prepareExtraData. rewrite E. cbn.
    unfold wWrite. rewrite Hw. cbn.
    destruct (writeEntries _ _ _ _ _) as [acc| |]; cbn; try reflexivity.
    rewrite Hw. cbn. unfold wFlush. by rewrite Hf.
Qed.

(** [Build] into a writer that accepts every byte succeeds when every info
    names a pack file, carries no inline payload and has a key of one
    width. *)
Lemma Build_fixed_width w b (width : nat) :
  accepts w →
  (∀ k it, b !! k = Some it →
     PackFile it ≠ "" ∧ Payload it = [] ∧
     length (contentIDToBytes (BlockID it)) = width) →
  ∃ out, Build contentIDToBytes w b = Done out.
Proof.
  intros Hw Hall.
  destruct (Build_no_payload w b Hw) as (extra & layout & Hkl & ->).
  { intros k it Hk. by destruct (Hall k it Hk) as (_ & ? & _). }
  destruct (writeEntries_accepted w (sortedBlocks b) layout
              ([1; u8 (keyLength layout)] ++ putUint16 (u16 (entryLength layout))
               ++ putUint32 (u32 (entryCount layout))) Hw) as [acc ->].
  - apply Forall_forall. intros it Hin. pose proof Hin as Hin'.
    apply elem_of_sortedBlocks in Hin as [k Hk].
    destruct (Hall k it Hk) as (Hpf & _ & Hlen). split; [done |].
    rewrite Hkl. unfold len. rewrite Hlen.
    destruct (sortedBlocks b) as [|it0 blocks] eqn:E; [by apply elem_of_nil in Hin' |].
    assert (it0 ∈ sortedBlocks b) as Hin0 by (rewrite E; left).
    apply elem_of_sortedBlocks in Hin0 as [k0 Hk0].
    by destruct (Hall k0 it0 Hk0) as (_ & _ & ->).
  - by eexists.
Qed.

End BuildOutcome.

(** ** Recovery of the index from pack blobs *)

Section Recovery.

Import blockmgr.

Variable hashID : list Z → string.
Variable contentIDToBytes : string → list Z.
Variable maxPackSize : nat.
Variable now : Z.
Variable formatVersion : Z.
Variable openPackIndex : list Z → option packIndexBuilder.
Variable encodeTable : list Info → list Z.
Variable decodeTable : list Z → option (list Info).

(** The payloads that are written. *)
Variable payloads : list (list Z).

Local Abbreviation WriteBlock := (WriteBlock hashID maxPackSize now formatVersion).
Local Abbreviation Put := (Put maxPackSize now formatVersion).
Local Abbreviation Flush := (Flush hashID contentIDToBytes openPackIndex encodeTable).
Local Abbreviation flushPack :=
  (flushPack hashID contentIDToBytes openPackIndex encodeTable).
Local Abbreviation commitIndex := (commitIndex hashID contentIDToBytes openPackIndex).
Local Abbreviation Recover :=
  (RecoverIndexFromPackFile hashID contentIDToBytes openPackIndex decodeTable).
Local Abbreviation recoverAll :=
  (recoverAll hashID contentIDToBytes openPackIndex decodeTable).
Local Abbreviation newManager := (newManager openPackIndex).
Local Abbreviation packBlob := (packBlob encodeTable).
Local Abbreviation packID := (packID hashID encodeTable).
Local Abbreviation packStore := (packStore hashID encodeTable).
Local Abbreviation indexOf := (indexOf hashID encodeTable).
Local Abbreviation indexed := (indexed hashID encodeTable).
Local Abbreviation indexBlob := (indexBlob hashID contentIDToBytes encodeTable).
Local Abbreviation indexID := (indexID hashID contentIDToBytes encodeTable).
Local Abbreviation indexReadsBack :=
  (indexReadsBack hashID contentIDToBytes openPackIndex encodeTable).
Local Abbreviation blobOf := (blobOf hashID encodeTable).
Local Abbreviation readPackTable := (readPackTable decodeTable).
Local Abbreviation stagedIn := (stagedIn hashID payloads).
Local Abbreviation packsOK := (packsOK hashID payloads).

(** The manager after the writes, before the flush. *)
Local Abbreviation written := (foldl WriteBlock (newManager ∅) payloads).

(** What the run asks of the parameters, none of which is among the
    sources: the hash tells apart the payloads written and tells apart the
    pack blobs uploaded; the content IDs of the payloads are serialized in
    one width; the parser reads back the index blob that [Build] writes for
    every pack of the run; the table of every pack is read back; and the pack
    blobs are in the range of the 64-bit fields of their footer. *)
Hypothesis payloads_distinct : collisionFree hashID payloads.
Hypothesis packs_distinct : collisionFree hashID (packBlob <$> pending written).
Hypothesis keys_fixed_width :
  ∀ p q, p ∈ payloads → q ∈ payloads →
    length (contentIDToBytes (hashID p)) = length (contentIDToBytes (hashID q)).
Hypothesis index_reads_back :
  ∀ pk blob, pk ∈ pending written → packEntries pk ≠ [] →
    Build contentIDToBytes bytesBuffer (indexOf pk) = Done blob →
    openPackIndex blob = Some (indexOf pk).
Hypothesis table_reads_back :
  ∀ pk, pk ∈ pending written →
    decodeTable (encodeTable (packEntries pk)) = Some (packEntries pk).
Hypothesis packs_small : ∀ pk, pk ∈ pending written → len (packBlob pk) < 2 ^ 64.

Implicit Types (m : Manager) (pk : pendingPack) (P : list pendingPack)
               (i : Info) (s : storage).

(** *** Puts *)

Lemma getRange_app_l (off n : Z) (l1 l2 : list Z) :
  (Z.to_nat off + Z.to_nat n ≤ length l1)%nat →
  getRange off n (l1 ++ l2) = getRange off n l1.
Proof.
  intros H. unfold getRange, slice.
  rewrite drop_app_le by lia. rewrite take_app_le by (rewrite length_drop; lia).
  done.
Qed.

Lemma pendingLookup_covered m id :
  is_Some (pendingLookup m id) → covered (pending m) id.
Proof.
  intros [[i pk] H]. unfold pendingLookup in H.
  apply head_Some_elem_of, list_elem_of_omap in H as (pk' & Hpk & H).
  destruct (head (filter _ (packEntries pk'))) as [i'|] eqn:Hh; [| done].
  injection H as -> ->.
  apply head_Some_elem_of, list_elem_of_filter in Hh as [Hid Hin].
  by exists pk, i.
Qed.

Lemma covered_pendingLookup m id :
  covered (pending m) id → is_Some (pendingLookup m id).
Proof.
  intros (pk & i & Hpk & Hi & Hid). unfold pendingLookup.
  apply head_is_Some. 
  assert (∃ j, head (filter (λ i, BlockID i = id) (packEntries pk)) = Some j) as [j Hj].
  { apply head_is_Some. intros Hnil.
    assert (i ∈ filter (λ i, BlockID i = id) (packEntries pk)) as Hin
      by (by apply list_elem_of_filter).
    rewrite Hnil in Hin. by apply elem_of_nil in Hin. }
  intros Hnil.
  assert ((j, pk) ∈ omap (λ pk, (λ i, (i, pk)) <$>
            head (filter (λ i, BlockID i = id) (packEntries pk))) (pending m)) as Hin.
  { apply list_elem_of_omap. exists pk. split; [done |]. by rewrite Hj. }
  rewrite Hnil in Hin. by apply elem_of_nil in Hin.
Qed.

Lemma Put_pending m id payload :
  pending (Put m id payload) = pending m ∨
  ∃ pre cur,
    (pending m = pre ++ [cur] ∨ (pre = pending m ∧ cur = emptyPack)) ∧
    pending (Put m id payload)
    = pre ++ [mkPendingPack (packData cur ++ payload)
                (packEntries cur ++
                 [mkInfo id (len payload) now "" (len (packData cur)) false []
                         formatVersion])].
Proof.
  unfold blockmgr.Put. destruct (decide _) as [|_]; [by left |]. right.
  destruct (decide (_ ∧ _)) as [_|_]; unfold pending; simpl.
  - exists (closed m ++ [current m]), emptyPack. split; [by right | done].
  - exists (closed m), (current m). split; [by left | done].
Qed.

Lemma Put_packsOK m payload :
  payload ∈ payloads →
  packsOK (pending m) → packsOK (pending (Put m (hashID payload) payload)).
Proof.
  intros Hin Hok.
  destruct (Put_pending m (hashID payload) payload) as [->|(pre & cur & Hpre & ->)];
    [done |].
  assert (∀ pk i, pk ∈ pre ++ [cur] → i ∈ packEntries pk → stagedIn pk i) as Hok'.
  { intros pk i Hpk Hi.
    destruct Hpre as [Hpre|[-> ->]]; [rewrite <- Hpre in Hpk; by apply Hok |].
    apply elem_of_app in Hpk as [Hpk|Hpk%list_elem_of_singleton].
    - by apply Hok.
    - subst pk. by apply elem_of_nil in Hi. }
  intros pk i Hpk Hi.
  apply elem_of_app in Hpk as [Hpk|Hpk%list_elem_of_singleton].
  { apply Hok'; [| done]. apply elem_of_app. by left. }
  subst pk. simpl in Hi.
  apply elem_of_app in Hi as [Hi|Hi%list_elem_of_singleton].
  - destruct (Hok' cur i) as (Hd & Ho & Hl & Hb & Hw & Hh & Hp);
      [apply elem_of_app; right; by apply list_elem_of_singleton | done |].
    unfold blockmgr.stagedIn. simpl. rewrite length_app.
    rewrite getRange_app_l by done. repeat split; try done. lia.
  - subst i. unfold blockmgr.stagedIn, len. simpl. rewrite length_app.
    assert (getRange (Z.of_nat (length (packData cur))) (Z.of_nat (length payload))
                     (packData cur ++ payload) = payload) as ->.
    { unfold getRange, slice. rewrite !Nat2Z.id, drop_app_length.
      by apply take_ge. }
    repeat split; try lia; done.
Qed.

Lemma Put_covered_mono m id payload id' :
  covered (pending m) id' → covered (pending (Put m id payload)) id'.
Proof.
  intros (pk & i & Hpk & Hi & Hid).
  destruct (Put_pending m id payload) as [->|(pre & cur & Hpre & ->)];
    [by exists pk, i |].
  assert (pk ∈ pre ++ [cur]) as Hpk'.
  { destruct Hpre as [<-|[-> ->]]; [done |]. apply elem_of_app. by left. }
  apply elem_of_app in Hpk' as [Hpk'|Hpk'%list_elem_of_singleton].
  - exists pk, i. split; [| done]. apply elem_of_app. by left.
  - subst pk. eexists _, i. split; [apply elem_of_app; right; by apply list_elem_of_singleton |].
    split; [| done]. simpl. apply elem_of_app. by left.
Qed.

Lemma Put_covered m id payload :
  active m = [] → covered (pending (Put m id payload)) id.
Proof.
  intros Hact. unfold blockmgr.Put.
  destruct (decide _) as [[Hc|Hp]|_].
  - unfold committedLookup in Hc. rewrite Hact in Hc. by destruct Hc.
  - by apply pendingLookup_covered.
  - destruct (decide (_ ∧ _)) as [_|_]; unfold pending; simpl;
      eexists (mkPendingPack _ _), (mkInfo id _ _ _ _ _ _ _);
      (split; [apply elem_of_app; right; apply list_elem_of_singleton; reflexivity |]);
      simpl; (split; [| done]).
    + apply list_elem_of_singleton. reflexivity.
    + apply elem_of_app; right; apply list_elem_of_singleton. reflexivity.
Qed.

Lemma Put_active m id payload : active (Put m id payload) = active m.
Proof.
  unfold blockmgr.Put. destruct (decide _); [done |].
  by destruct (decide (_ ∧ _)).
Qed.

Lemma Put_st m id payload : st (Put m id payload) = st m.
Proof.
  unfold blockmgr.Put. destruct (decide _); [done |].
  by destruct (decide (_ ∧ _)).
Qed.

(** After a sequence of writes to a manager with an empty active set:
    every staged info is sound and every written payload is staged. *)
Lemma WriteBlocks_pending (ps : list (list Z)) : ∀ m,
  (∀ p, p ∈ ps → p ∈ payloads) →
  active m = [] → packsOK (pending m) →
  let m1 := foldl WriteBlock m ps in
  active m1 = [] ∧ st m1 = st m ∧ packsOK (pending m1) ∧
  (∀ id, covered (pending m) id → covered (pending m1) id) ∧
  (∀ p, p ∈ ps → covered (pending m1) (hashID p)).
Proof.
  induction ps as [|p ps IH]; intros m Hsub Hact Hok; simpl.
  - do 4 (split; [done |]). intros p Hp. by apply elem_of_nil in Hp.
  - destruct (IH (WriteBlock m p)) as (Hact1 & Hst1 & Hok1 & Hmono & Hcov).
    + intros q Hq. apply Hsub. by right.
    + unfold blockmgr.WriteBlock. by rewrite Put_active.
    + apply Put_packsOK; [apply Hsub; left | done].
    + split; [done |]. split; [by rewrite Hst1; apply Put_st |].
      split; [done |]. split.
      * intros id Hid. by apply Hmono, Put_covered_mono.
      * intros q [->|Hq]%elem_of_cons; [| by apply Hcov].
        by apply Hmono, Put_covered.
Qed.


(** *** Flush *)

Lemma keyed_foldl_Add (infos : list Info) : ∀ b, keyed b → keyed (foldl Add b infos).
Proof.
  induction infos as [|i infos IH]; intros b Hb; simpl; [done |].
  by apply IH, keyed_Add.
Qed.

Lemma foldl_Add_lookup_Some (infos : list Info) : ∀ b k w,
  foldl Add b infos !! k = Some w → w ∈ infos ∨ b !! k = Some w.
Proof.
  induction infos as [|i infos IH]; intros b k w; simpl; [by right |].
  intros [H|H]%IH; [left; by apply elem_of_cons; right |].
  apply Add_lookup_Some in H as [->|H]; [left; apply elem_of_cons; by left | by right].
Qed.

Lemma Add_is_Some (b : packIndexBuilder) i k :
  is_Some (b !! k) ∨ k = BlockID i → is_Some (Add b i !! k).
Proof.
  intros H. destruct (decide (k = BlockID i)) as [->|Hne].
  - unfold Add. destruct (b !! BlockID i) as [old|] eqn:E;
      [destruct (_ >=? _)|]; rewrite ?lookup_insert_eq, ?E; eauto.
  - rewrite Add_lookup_other by done. by destruct H.
Qed.

Lemma foldl_Add_is_Some (infos : list Info) : ∀ b k,
  is_Some (b !! k) ∨ (∃ i, i ∈ infos ∧ BlockID i = k) →
  is_Some (foldl Add b infos !! k).
Proof.
  induction infos as [|i infos IH]; intros b k H; simpl.
  - destruct H as [H|(i & Hi & _)]; [done | by apply elem_of_nil in Hi].
  - apply IH. destruct H as [H|(j & Hj & Hk)].
    + left. apply Add_is_Some. by left.
    + apply elem_of_cons in Hj as [->|Hj]; [| right; eauto].
      left. apply Add_is_Some. by right.
Qed.

Lemma prefix_pack_pack h :
  String.prefix PackBlockPrefix (PackBlockPrefix +:+ h) = true.
Proof. by destruct h. Qed.

Lemma prefix_pack_index h :
  String.prefix PackBlockPrefix (newIndexBlockPrefix +:+ h) = false.
Proof. by destruct h. Qed.

Lemma prefix_index_pack h :
  String.prefix newIndexBlockPrefix (PackBlockPrefix +:+ h) = false.
Proof. by destruct h. Qed.

Lemma packID_inj pk1 pk2 :
  pk1 ∈ pending written → pk2 ∈ pending written →
  packID pk1 = packID pk2 → packBlob pk1 = packBlob pk2.
Proof.
  unfold blockmgr.packID. simpl. intros H1 H2 [= H].
  apply packs_distinct; [by apply list_elem_of_fmap_2.. | done].
Qed.

Lemma packID_ne_index pk h : packID pk ≠ newIndexBlockPrefix +:+ h.
Proof.
  intros H. apply (f_equal (String.prefix PackBlockPrefix)) in H.
  unfold blockmgr.packID in H. by rewrite prefix_pack_pack, prefix_pack_index in H.
Qed.

Lemma commitIndex_Some m (infos : list Info) blob :
  Build contentIDToBytes bytesBuffer (foldl Add ∅ infos) = Done blob →
  openPackIndex blob = Some (foldl Add ∅ infos) →
  commitIndex m infos
  = Some (mkManager
            (<[newIndexBlockPrefix +:+ hashID blob := blob]> (st m))
            (active m ++ [(newIndexBlockPrefix +:+ hashID blob, foldl Add ∅ infos)])
            (closed m) (current m)).
Proof.
  intros Hbuild Hopen. unfold blockmgr.commitIndex.
  rewrite Hbuild. cbv beta iota zeta. by rewrite Hopen.
Qed.

Lemma commitIndex_indexOf m pk :
  indexReadsBack pk →
  commitIndex m (withPackFile (packID pk) <$> packEntries pk)
  = Some (mkManager (<[indexID pk := indexBlob pk]> (st m))
                    (active m ++ [(indexID pk, indexOf pk)])
                    (closed m) (current m)).
Proof.
  intros (blob & Hbuild & Hopen).
  unfold blockmgr.indexID, blockmgr.indexBlob. rewrite Hbuild.
  unfold blockmgr.indexOf in *.
  by rewrite (commitIndex_Some m _ blob Hbuild Hopen).
Qed.

Lemma flushPack_Some m pk :
  indexReadsBack pk →
  flushPack m pk
  = Some (mkManager (<[indexID pk := indexBlob pk]>
                       (<[packID pk := packBlob pk]> (st m)))
                    (active m ++ [(indexID pk, indexOf pk)])
                    (closed m) (current m)).
Proof. intros H. exact (commitIndex_indexOf _ pk H). Qed.

Lemma packStore_empty : packStore [] ∅.
Proof.
  split.
  - intros pk Hpk. by apply elem_of_nil in Hpk.
  - intros id blob. by rewrite lookup_empty.
Qed.

Lemma packStore_flush P s pk h blob :
  (∀ pk', pk' ∈ P ++ [pk] → pk' ∈ pending written) →
  packStore P s →
  packStore (P ++ [pk])
            (<[newIndexBlockPrefix +:+ h := blob]> (<[packID pk := packBlob pk]> s)).
Proof.
  intros Hrun [Hin Hout]. split.
  - intros pk' Hpk'. rewrite lookup_insert_ne by (symmetry; apply packID_ne_index).
    destruct (decide (packID pk = packID pk')) as [Heq|Hne].
    + rewrite Heq, lookup_insert_eq. f_equal.
      apply packID_inj; [apply Hrun, elem_of_app; right; left | by apply Hrun | done].
    + rewrite lookup_insert_ne by done.
      apply elem_of_app in Hpk' as [Hpk'|Hpk'%list_elem_of_singleton];
        [by apply Hin | by subst].
  - intros id b Hid Hpre.
    rewrite lookup_insert_ne in Hid
      by (intros <-; by rewrite prefix_pack_index in Hpre).
    destruct (decide (packID pk = id)) as [<-|Hne].
    + rewrite lookup_insert_eq in Hid. injection Hid as <-.
      exists pk. split; [| done]. apply elem_of_app. right.
      by apply list_elem_of_singleton.
    + rewrite lookup_insert_ne in Hid by done.
      destruct (Hout id b Hid Hpre) as (pk' & Hpk' & -> & ->).
      exists pk'. split; [| done]. apply elem_of_app. by left.
Qed.

Lemma flushPacks P : ∀ m P0,
  (∀ pk, pk ∈ P0 ++ P → pk ∈ pending written) →
  (∀ pk, pk ∈ P → indexReadsBack pk) →
  packStore P0 (st m) →
  ∃ m', foldl (λ acc pk, acc ≫= λ m0, flushPack m0 pk) (Some m) P = Some m' ∧
        packStore (P0 ++ P) (st m') ∧
        active m' = active m ++ ((λ pk, (indexID pk, indexOf pk)) <$> P) ∧
        closed m' = closed m ∧ current m' = current m.
Proof.
  induction P as [|pk P IH]; intros m P0 Hrun Hidx Hst; simpl.
  - exists m. by rewrite !app_nil_r.
  - rewrite flushPack_Some by (apply Hidx; left).
    destruct (IH (mkManager (<[indexID pk := indexBlob pk]>
                               (<[packID pk := packBlob pk]> (st m)))
                            (active m ++ [(indexID pk, indexOf pk)])
                            (closed m) (current m)) (P0 ++ [pk]))
      as (m' & Hm' & Hst' & Hact & Hcl & Hcur).
    { intros pk' Hpk'. apply Hrun. rewrite <- app_assoc in Hpk'. done. }
    { intros pk' Hpk'. apply Hidx. by right. }
    { simpl. apply packStore_flush; [| done].
      intros pk' Hpk'. apply Hrun.
      apply elem_of_app in Hpk' as [Hpk'|Hpk'%list_elem_of_singleton];
        apply elem_of_app; [by left | right; subst; left]. }
    exists m'. split; [exact Hm' |]. simpl in *.
    rewrite <- app_assoc in Hst', Hact. done.
Qed.

(** *** Losing the index blobs *)

Lemma deleteIndexBlobs_packStore P s :
  packStore P s → packStore P (deleteIndexBlobs s).
Proof.
  intros [Hin Hout]. unfold deleteIndexBlobs. split.
  - intros pk Hpk. apply map_lookup_filter_Some. split; [by apply Hin |].
    cbn [fst]. unfold blockmgr.packID. by rewrite prefix_index_pack.
  - intros id blob [Hid _]%map_lookup_filter_Some Hpre. by apply Hout.
Qed.

Lemma listBlocks_deleteIndexBlobs s :
  listBlocks newIndexBlockPrefix (deleteIndexBlobs s) = [].
Proof.
  unfold listBlocks, deleteIndexBlobs.
  destruct (filter _ (map_to_list _)) as [|kv l] eqn:E; [done |].
  assert (kv ∈ kv :: l) as Hin by (apply elem_of_cons; by left).
  rewrite <- E in Hin. apply list_elem_of_filter in Hin as [Hpre Hin].
  destruct kv as [id blob]. apply elem_of_map_to_list in Hin.
  apply map_lookup_filter_Some in Hin as [_ Hnot]. by destruct Hnot.
Qed.

Lemma newManager_deleteIndexBlobs s :
  newManager (deleteIndexBlobs s) = mkManager (deleteIndexBlobs s) [] [] emptyPack.
Proof. unfold blockmgr.newManager. by rewrite listBlocks_deleteIndexBlobs. Qed.

(** The pack blobs a store lists are the blobs of some of the packs, and
    every pack's blob is listed. *)
Lemma listBlocks_packStore P s :
  packStore P s →
  ∃ Q, listBlocks PackBlockPrefix s = blobOf <$> Q ∧
       (∀ pk, pk ∈ Q → pk ∈ P) ∧
       (∀ pk, pk ∈ P → ∃ pk', pk' ∈ Q ∧ blobOf pk' = blobOf pk).
Proof.
  intros [Hin Hout].
  assert (∀ l : list (string * list Z),
            (∀ kv, kv ∈ l → kv ∈ listBlocks PackBlockPrefix s) →
            ∃ Q : list pendingPack, l = blobOf <$> Q ∧ ∀ pk, pk ∈ Q → pk ∈ P) as Hlist.
  { induction l as [|[id blob] l IH]; intros Hl.
    - exists []. split; [done |]. intros pk Hpk. by apply elem_of_nil in Hpk.
    - destruct IH as (Q & -> & HQ).
      { intros kv Hkv. apply Hl, elem_of_cons. by right. }
      assert ((id, blob) ∈ listBlocks PackBlockPrefix s) as Hkv
        by (apply Hl, elem_of_cons; by left).
      apply list_elem_of_filter in Hkv as [Hpre Hkv%elem_of_map_to_list].
      destruct (Hout id blob Hkv Hpre) as (pk & Hpk & -> & ->).
      exists (pk :: Q). split; [done |].
      intros pk' [->|Hpk']%elem_of_cons; auto. }
  destruct (Hlist (listBlocks PackBlockPrefix s)) as (Q & HQ & HQP); [done |].
  exists Q. split; [done |]. split; [done |].
  intros pk Hpk.
  assert (blobOf pk ∈ listBlocks PackBlockPrefix s) as Hl.
  { apply list_elem_of_filter. split.
    - cbn [fst blockmgr.blobOf]. unfold blockmgr.packID. apply prefix_pack_pack.
    - apply elem_of_map_to_list. by apply Hin. }
  rewrite HQ in Hl. apply list_elem_of_fmap in Hl as (pk' & Heq & Hpk').
  by exists pk'.
Qed.

(** *** Recovery from one pack blob *)

Lemma readPackTable_packBlob pk :
  pk ∈ pending written →
  readPackTable (packBlob pk) (len (packBlob pk)) = Some (packEntries pk).
Proof.
  intros Hpk. pose proof (packs_small pk Hpk) as Hsmall.
  pose proof (table_reads_back pk Hpk) as Htable.
  clear packs_small table_reads_back packs_distinct index_reads_back.
  unfold blockmgr.readPackTable, blockmgr.packBlob in *.
  set (data := packData pk) in *. set (table := encodeTable (packEntries pk)) in *.
  set (f1 := putUint64 (len data)) in *. set (f2 := putUint64 (len table)) in *.
  assert (length f1 = 8%nat ∧ length f2 = 8%nat) as [Hf1 Hf2] by done.
  assert (len (data ++ table ++ f1 ++ f2) < 2 ^ 64) as Hsmall' by done.
  unfold len in Hsmall'. rewrite !length_app, Hf1, Hf2 in Hsmall'.
  assert (getRange (len (data ++ table ++ f1 ++ f2) - 16) 16
                   (data ++ table ++ f1 ++ f2) = f1 ++ f2) as ->.
  { unfold getRange, slice, len. rewrite !length_app, Hf1, Hf2.
    replace (Z.to_nat (Z.of_nat (length data + (length table + (8 + 8))) - 16))
      with (length (data ++ table)) by (rewrite length_app; lia).
    rewrite (app_assoc data), drop_app_length.
    apply take_ge. rewrite length_app. lia. }
  rewrite take_app_length' by done. rewrite drop_app_length' by done.
  subst f1 f2. rewrite !beUint_putUint64 by (unfold len; lia).
  assert (getRange (len data) (len table) (data ++ table ++ putUint64 (len data)
                                            ++ putUint64 (len table)) = table) as ->.
  { unfold getRange, slice, len. rewrite !Nat2Z.id, drop_app_length.
    apply take_app_length. }
  exact Htable.
Qed.

Lemma Recover_false m pk :
  st m !! packID pk = Some (packBlob pk) → pk ∈ pending written →
  Recover m (packID pk) (len (packBlob pk)) false
  = Some (withPackFile (packID pk) <$> packEntries pk, m).
Proof.
  intros Hst Hpk. unfold RecoverIndexFromPackFile. rewrite Hst. simpl.
  by rewrite readPackTable_packBlob.
Qed.

Lemma Recover_true m pk :
  st m !! packID pk = Some (packBlob pk) → pk ∈ pending written →
  indexReadsBack pk →
  Recover m (packID pk) (len (packBlob pk)) true
  = Some (withPackFile (packID pk) <$> packEntries pk,
          mkManager (<[indexID pk := indexBlob pk]> (st m))
                    (active m ++ [(indexID pk, indexOf pk)])
                    (closed m) (current m)).
Proof.
  intros Hst Hpk Hidx. unfold RecoverIndexFromPackFile. rewrite Hst. simpl.
  rewrite readPackTable_packBlob by done. simpl. by rewrite commitIndex_indexOf.
Qed.

(** A pack's entries can be read off its blob. *)
Lemma packBlob_entries pk pk' :
  pk ∈ pending written → pk' ∈ pending written → packBlob pk' = packBlob pk →
  packEntries pk' = packEntries pk.
Proof.
  intros Hpk Hpk' Heq.
  pose proof (readPackTable_packBlob pk Hpk) as H.
  rewrite <- Heq in H. rewrite readPackTable_packBlob in H by done.
  by injection H.
Qed.

(** *** Recovery from every pack blob *)

Lemma recoverAll_false_fold (Q : list pendingPack) : ∀ m acc,
  (∀ pk, pk ∈ Q → st m !! packID pk = Some (packBlob pk) ∧ pk ∈ pending written) →
  foldl (λ acc kv,
           '(recovered, m0) ← acc;
           '(infos, m1) ← Recover m0 kv.1 (len kv.2) false;
           Some (recovered ++ [infos], m1))
        (Some (acc, m)) (blobOf <$> Q)
  = Some (acc ++ ((λ pk, withPackFile (packID pk) <$> packEntries pk) <$> Q), m).
Proof.
  induction Q as [|pk Q IH]; intros m acc HQ; simpl.
  - by rewrite app_nil_r.
  - destruct (HQ pk) as [Hst Hsmall]; [apply elem_of_cons; by left |].
    rewrite Recover_false by done. simpl. rewrite IH.
    + by rewrite <- app_assoc.
    + intros pk' Hpk'. apply HQ, elem_of_cons. by right.
Qed.

Lemma recoverAll_true_fold (Q : list pendingPack) : ∀ m acc,
  (∀ pk, pk ∈ Q → st m !! packID pk = Some (packBlob pk) ∧ pk ∈ pending written
                  ∧ indexReadsBack pk) →
  ∃ m',
    foldl (λ acc kv,
             '(recovered, m0) ← acc;
             '(infos, m1) ← Recover m0 kv.1 (len kv.2) true;
             Some (recovered ++ [infos], m1))
          (Some (acc, m)) (blobOf <$> Q)
    = Some (acc ++ ((λ pk, withPackFile (packID pk) <$> packEntries pk) <$> Q), m') ∧
    active m' = active m ++ ((λ pk, (indexID pk, indexOf pk)) <$> Q) ∧
    closed m' = closed m ∧ current m' = current m ∧
    (∀ pk, st m !! packID pk = Some (packBlob pk) →
           st m' !! packID pk = Some (packBlob pk)).
Proof.
  set (step := λ (acc : option (list (list Info) * Manager)) (kv : string * list Z),
           '(recovered, m0) ← acc;
           '(infos, m1) ← Recover m0 kv.1 (len kv.2) true;
           Some (recovered ++ [infos], m1)).
  induction Q as [|pk Q IH]; intros m acc HQ.
  - exists m. simpl. by rewrite !app_nil_r.
  - destruct (HQ pk) as (Hst & Hsmall & Hidx); [apply elem_of_cons; by left |].
    set (m1 := mkManager (<[indexID pk := indexBlob pk]> (st m))
                         (active m ++ [(indexID pk, indexOf pk)])
                         (closed m) (current m)).
    assert (step (Some (acc, m)) (blobOf pk)
            = Some (acc ++ [withPackFile (packID pk) <$> packEntries pk], m1)) as Hstep.
    { subst step. cbn [mbind option_bind blockmgr.blobOf fst snd].
      by rewrite Recover_true by done. }
    assert (∀ pk', st m !! packID pk' = Some (packBlob pk') →
                   st m1 !! packID pk' = Some (packBlob pk')) as Hkeep.
    { intros pk' H. subst m1. cbn [st].
      rewrite lookup_insert_ne; [done |]. symmetry. apply packID_ne_index. }
    destruct (IH m1 (acc ++ [withPackFile (packID pk) <$> packEntries pk]))
      as (m' & Hm' & Hact & Hcl & Hcur & Hst').
    { intros pk' Hpk'.
      destruct (HQ pk') as (? & ? & ?); [apply elem_of_cons; by right |].
      split; [by apply Hkeep | done]. }
    exists m'. rewrite fmap_cons. cbn [foldl]. rewrite Hstep, Hm', Hact, Hcl, Hcur.
    subst m1. cbn [active closed current]. rewrite fmap_cons, <- !app_assoc.
    repeat split; try done.
    intros pk' H. by apply Hst', Hkeep.
Qed.

(** *** Lookups *)

Lemma foldl_pick (hits : list (option Info)) : ∀ best,
  (foldl pick best hits = best ∨ foldl pick best hits ∈ hits) ∧
  (is_Some best ∨ (∃ h, Some h ∈ hits) → is_Some (foldl pick best hits)).
Proof.
  induction hits as [|hit hits IH]; intros best; simpl.
  - split; [by left |]. intros [H|[h Hh]]; [done | by apply elem_of_nil in Hh].
  - destruct (IH (pick best hit)) as [Hwho Hsome]. split.
    + destruct Hwho as [->|Hin]; [| right; apply elem_of_cons; by right].
      destruct best as [b|], hit as [h|]; simpl; auto.
      * destruct (beats h b); [right; apply elem_of_cons; by left | by left].
      * right. apply elem_of_cons. by left.
    + intros H. apply Hsome.
      destruct H as [[b ->]|[h Hh]].
      * left. destruct hit as [h|]; simpl; [destruct (beats h b) |]; eauto.
      * apply elem_of_cons in Hh as [<-|Hh]; [| right; eauto].
        left. destruct best as [b|]; simpl; [destruct (beats h b) |]; eauto.
Qed.

Lemma Get_indexed P m id :
  closed m = [] → current m = emptyPack →
  packsOK P → indexed P m →
  (∃ ix, ix ∈ active m ∧ is_Some (ix.2 !! id)) →
  ∃ payload, Get m id = Found payload ∧ payload ∈ payloads ∧ hashID payload = id.
Proof.
  intros Hcl Hcur Hok [Hst Hact] (ix & Hix & [w0 Hw0]).
  unfold Get, pendingLookup, pending. rewrite Hcl, Hcur. simpl.
  unfold committedLookup.
  destruct (foldl_pick ((λ ix, ix.2 !! id) <$> active m) None) as [Hwho Hsome].
  destruct Hsome as [w Hw].
  { right. exists w0. apply list_elem_of_fmap. exists ix. by rewrite Hw0. }
  rewrite Hw in Hwho |- *. destruct Hwho as [[=]|Hin].
  apply list_elem_of_fmap in Hin as (ix' & Hlook & Hix').
  destruct (Hact ix' Hix') as (pk & Hpk & Hixeq).
  rewrite Hixeq in Hlook. symmetry in Hlook.
  assert (BlockID w = id) as Hwid.
  { eapply (keyed_foldl_Add _ ∅ keyed_empty). exact Hlook. }
  apply foldl_Add_lookup_Some in Hlook as [Hin|Hin]; [| by rewrite lookup_empty in Hin].
  apply list_elem_of_fmap in Hin as (i & -> & Hi).
  destruct (Hok pk i Hpk Hi) as (Hd & Ho & Hl & Hb & Hwr & Hh & Hp).
  unfold withPackFile in *.
  cbn [Deleted PackFile PackOffset Length block.BlockID] in *.
  rewrite Hd. cbn [PackFile PackOffset Length]. rewrite (Hst pk Hpk).
  eexists. split; [done |].
  unfold blockmgr.packBlob. rewrite getRange_app_l by done. by rewrite Hh.
Qed.

Lemma newManager_empty : newManager ∅ = mkManager ∅ [] [] emptyPack.
Proof. unfold blockmgr.newManager, listBlocks. by rewrite map_to_list_empty. Qed.

Lemma indexOf_is_Some pk i :
  i ∈ packEntries pk → is_Some (indexOf pk !! BlockID i).
Proof.
  intros Hi. apply foldl_Add_is_Some. right.
  exists (withPackFile (packID pk) i). split; [| done]. by apply list_elem_of_fmap_2.
Qed.

(** [Build] writes the index of every pack of the run, and the parser
    reads it back. *)
Lemma written_indexReadsBack pk :
  pk ∈ pending written → packEntries pk ≠ [] → indexReadsBack pk.
Proof.
  intros Hpk Hne.
  destruct (WriteBlocks_pending payloads (newManager ∅)) as (_ & _ & Hok & _);
    [done | by rewrite newManager_empty | |].
  { rewrite newManager_empty. intros pk0 i [->|[]%elem_of_nil]%elem_of_cons Hi.
    by apply elem_of_nil in Hi. }
  destruct (packEntries pk) as [|i0 rest] eqn:E; [done |].
  destruct (Hok pk i0 Hpk) as (_ & _ & _ & _ & Hw0 & Hh0 & _); [rewrite E; left |].
  destruct (Build_fixed_width contentIDToBytes bytesBuffer (indexOf pk)
              (length (contentIDToBytes (BlockID i0)))) as [blob Hblob].
  { split; reflexivity. }
  { intros k it Hk. unfold blockmgr.indexOf in Hk.
    apply foldl_Add_lookup_Some in Hk as [Hin|Hin]; [| by rewrite lookup_empty in Hin].
    apply list_elem_of_fmap in Hin as (i & -> & Hi).
    destruct (Hok pk i Hpk) as (_ & _ & _ & _ & Hw & Hh & Hp); [done |].
    unfold withPackFile. cbn [PackFile Payload block.BlockID].
    split; [by unfold blockmgr.packID |]. split; [done |].
    rewrite <- Hh, <- Hh0. by apply keys_fixed_width. }
  exists blob. split; [done |]. apply index_reads_back; [done | by rewrite E | done].
Qed.


End Recovery.


(* ===================================================================== *)
(** * Part III: further properties of the embedded code *)
(* ===================================================================== *)

(** ** builder.go: what a sequence of [Add] calls leaves *)

Section AddSequence.

Implicit Types (b : packIndexBuilder) (i w : Info) (infos : list Info).

Lemma foldl_Add_last_newest infos : ∀ b L,
  (∀ id w, b !! id = Some w →
     BlockID w = id ∧
     ∃ pre post, L = pre ++ w :: post ∧
       (∀ i, i ∈ pre → BlockID i = id → TimestampSeconds i ≤ TimestampSeconds w) ∧
       (∀ i, i ∈ post → BlockID i = id → TimestampSeconds i < TimestampSeconds w)) →
  (∀ id, b !! id = None → ∀ i, i ∈ L → BlockID i ≠ id) →
  (∀ id w, foldl Add b infos !! id = Some w →
     BlockID w = id ∧
     ∃ pre post, L ++ infos = pre ++ w :: post ∧
       (∀ i, i ∈ pre → BlockID i = id → TimestampSeconds i ≤ TimestampSeconds w) ∧
       (∀ i, i ∈ post → BlockID i = id → TimestampSeconds i < TimestampSeconds w)) ∧
  (∀ id, foldl Add b infos !! id = None → ∀ i, i ∈ L ++ infos → BlockID i ≠ id).
Proof.
  induction infos as [|j infos IH]; intros b L HS HN.
  { rewrite app_nil_r. simpl. split; assumption. }
  simpl. replace (L ++ j :: infos) with ((L ++ [j]) ++ infos)
    by (rewrite <- app_assoc; reflexivity).
  apply IH.
  - intros id w Hw.
    destruct (decide (id = BlockID j)) as [->|Hne].
    + unfold Add in Hw.
      destruct (b !! BlockID j) as [old|] eqn:Hold.
      * destruct (Z.geb_spec (TimestampSeconds j) (TimestampSeconds old)) as [Hge|Hlt].
        -- rewrite lookup_insert_eq in Hw. injection Hw as <-.
           split; [reflexivity|].
           exists L, []. split; [reflexivity|]. split.
           ++ intros i Hi Hid.
              destruct (HS _ _ Hold) as (_ & pre & post & -> & Hpre & Hpost).
              apply elem_of_app in Hi as [Hi|Hi].
              { specialize (Hpre _ Hi Hid). lia. }
              apply elem_of_cons in Hi as [->|Hi]; [lia|].
              specialize (Hpost _ Hi Hid). lia.
           ++ intros i Hi. apply elem_of_nil in Hi as [].
        -- rewrite Hold in Hw. injection Hw as <-.
           destruct (HS _ _ Hold) as (Hid & pre & post & -> & Hpre & Hpost).
           split; [assumption|].
           exists pre, (post ++ [j]). split; [by rewrite <- !app_assoc|].
           split; [assumption|].
           intros i Hi Hi'. apply elem_of_app in Hi as [Hi|Hi]; [by apply Hpost|].
           apply list_elem_of_singleton in Hi as ->. lia.
      * rewrite lookup_insert_eq in Hw. injection Hw as <-.
        split; [reflexivity|]. exists L, []. split; [reflexivity|]. split.
        -- intros i Hi Hid. by destruct (HN _ Hold _ Hi).
        -- intros i Hi. apply elem_of_nil in Hi as [].
    + rewrite Add_lookup_other in Hw by assumption.
      destruct (HS _ _ Hw) as (Hid & pre & post & -> & Hpre & Hpost).
      split; [assumption|].
      exists pre, (post ++ [j]). split; [by rewrite <- !app_assoc|].
      split; [assumption|].
      intros i Hi Hi'. apply elem_of_app in Hi as [Hi|Hi]; [by apply Hpost|].
      apply list_elem_of_singleton in Hi as ->. congruence.
  - intros id Hnone i Hi.
    destruct (decide (id = BlockID j)) as [->|Hne].
    + exfalso. unfold Add in Hnone.
      destruct (b !! BlockID j) as [old|] eqn:Hold.
      * destruct (TimestampSeconds j >=? TimestampSeconds old).
        -- by rewrite lookup_insert_eq in Hnone.
        -- congruence.
      * by rewrite lookup_insert_eq in Hnone.
    + rewrite Add_lookup_other in Hnone by assumption.
      apply elem_of_app in Hi as [Hi|Hi]; [by apply HN|].
      apply list_elem_of_singleton in Hi as ->. congruence.
Qed.

End AddSequence.

(** X1 (builder.go, [Add]): after any sequence of [Add] calls on an empty
    builder, the entry under an ID is the last of the added infos with that
    ID whose timestamp is the greatest: no info with that ID added before
    it is newer, every one added after it is strictly older.  An ID is
    absent exactly when no info with it was added. *)
Theorem Add_sequence_keeps_last_newest (infos : list Info) (id : string) :
  match foldl Add ∅ infos !! id with
  | Some w =>
      BlockID w = id ∧
      ∃ pre post, infos = pre ++ w :: post ∧
        (∀ i, i ∈ pre → BlockID i = id →
           TimestampSeconds i ≤ TimestampSeconds w) ∧
        (∀ i, i ∈ post → BlockID i = id →
           TimestampSeconds i < TimestampSeconds w)
  | None => ∀ i, i ∈ infos → BlockID i ≠ id
  end.
Proof.
  destruct (foldl_Add_last_newest infos ∅ []) as [HS HN].
  - intros ? ? H. by rewrite lookup_empty in H.
  - intros ? _ i Hi. apply elem_of_nil in Hi as [].
  - destruct (foldl Add ∅ infos !! id) as [w|] eqn:E.
    + apply (HS _ _ E).
    + apply (HN _ E).
Qed.

Lemma Add_lookup_self (b : packIndexBuilder) (i : Info) :
  Add b i !! BlockID i
  = match b !! BlockID i with
    | Some old =>
        if TimestampSeconds i >=? TimestampSeconds old then Some i else Some old
    | None => Some i
    end.
Proof.
  unfold Add. destruct (b !! BlockID i) as [old|] eqn:Hold.
  - destruct (TimestampSeconds i >=? TimestampSeconds old);
      [apply lookup_insert_eq|done].
  - apply lookup_insert_eq.
Qed.

(** X2 (builder.go, [Add]): two [Add] calls commute unless the infos have
    the same block ID and the same timestamp: for different IDs they touch
    different keys, for different timestamps the newer info stays in
    either order. *)
Theorem Add_commutes (b : packIndexBuilder) (i j : Info) :
  BlockID i ≠ BlockID j ∨ TimestampSeconds i ≠ TimestampSeconds j →
  Add (Add b i) j = Add (Add b j) i.
Proof.
  intros Hdiff.
  destruct (decide (BlockID i = BlockID j)) as [Heq|Hne].
  - destruct Hdiff as [|Hts]; [done|].
    destruct (Z.lt_total (TimestampSeconds i) (TimestampSeconds j))
      as [Hlt|[|Hlt]]; [|done|].
    + by rewrite Add_older_then_newer, Add_newer_then_older.
    + by rewrite Add_newer_then_older, Add_older_then_newer.
  - apply map_eq. intros k.
    destruct (decide (k = BlockID i)) as [->|Hki].
    + rewrite (Add_lookup_other (Add b i) j) by done.
      rewrite !Add_lookup_self. by rewrite (Add_lookup_other b j).
    + rewrite (Add_lookup_other (Add b j) i) by done.
      destruct (decide (k = BlockID j)) as [->|Hkj].
      * rewrite !Add_lookup_self. by rewrite (Add_lookup_other b i).
      * by rewrite !Add_lookup_other.
Qed.

Lemma Add_commutes_witness :
  let i := mkInfo "ab" 100 5 "p1" 0 false [] 1 in
  let j := mkInfo "ab" 0 6 "p1" 0 true [] 1 in
  Add (Add ∅ i) j = Add (Add ∅ j) i.
Proof.
  intros i j. apply (Add_commutes ∅ i j). right. simpl. lia.
Defined.

(** X3 (builder.go, [Add]): adding the same info again changes nothing. *)
Theorem Add_idempotent (b : packIndexBuilder) (i : Info) :
  Add (Add b i) i = Add b i.
Proof.
  unfold Add at 2 3.
  destruct (b !! BlockID i) as [old|] eqn:Hold.
  - destruct (Z.geb_spec (TimestampSeconds i) (TimestampSeconds old)) as [Hge|Hlt].
    + unfold Add. rewrite lookup_insert_eq.
      rewrite (proj2 (Z.geb_le _ _)) by lia. apply insert_insert_eq.
    + by apply Add_lookup_older with old.
  - unfold Add. rewrite lookup_insert_eq.
    rewrite (proj2 (Z.geb_le _ _)) by lia. apply insert_insert_eq.
Qed.

(** ** builder.go: when [Build] succeeds, how it fails, how much it writes *)

(** X4 (builder.go, [Build] with [prepareExtraData], [writeEntry] and
    [formatEntry]): into a writer that accepts every byte, [Build] returns
    nil exactly when every info of the builder names a pack file, carries
    no inline payload, and has a key as long as the first key in sorted
    order.  Nothing else about the infos can make it fail. *)
Theorem Build_succeeds_iff
    (contentIDToBytes : string → list Z) (w : ioWriter) (b : packIndexBuilder) :
  accepts w →
  (∃ out, Build contentIDToBytes w b = Done out) ↔
  (∀ k it, b !! k = Some it →
     PackFile it ≠ "" ∧ Payload it = [] ∧
     length (contentIDToBytes (BlockID it))
     = keyWidth contentIDToBytes (sortedBlocks b)).
Proof.
  intros Hw. split.
  - intros [out Hout] k it Hk.
    assert (Payload it = []) as Hp.
    { destruct (decide (Payload it = [])) as [|Hne]; [done|]. exfalso.
      unfold Build, prepareExtraData in Hout.
      rewrite (prepareExtraData_loop_panics contentIDToBytes) in Hout; [done|].
      exists it. split; [|done]. apply elem_of_sortedBlocks. eauto. }
    destruct (Build_Done _ _ _ _ Hout) as (layout & bodies & Hb).
    assert (it ∈ sortedBlocks b) as Hin by (apply elem_of_sortedBlocks; eauto).
    destruct (built_key_length _ _ _ _ _ _ Hb Hin) as [Hlen _].
    split; [|done].
    apply list_elem_of_lookup in Hin as [i Hi].
    destruct (built_entry _ _ _ _ _ _ _ Hb Hi) as (? & body & ? & _ & _ & _ & Hf).
    by apply formatEntry_Done in Hf as [? _].
  - intros Hall.
    destruct (Build_no_payload contentIDToBytes w b Hw) as (extra & layout & Hkl & ->).
    { intros k it Hk. by destruct (Hall k it Hk) as (_ & ? & _). }
    destruct (writeEntries_accepted contentIDToBytes w (sortedBlocks b) layout
                ([1; u8 (keyLength layout)] ++ putUint16 (u16 (entryLength layout))
                 ++ putUint32 (u32 (entryCount layout))) Hw) as [acc ->].
    + apply Forall_forall. intros it Hin.
      pose proof Hin as Hin'.
      apply elem_of_sortedBlocks in Hin as [k Hk].
      destruct (Hall k it Hk) as (Hpf & _ & Hlen). split; [done|].
      rewrite Hkl. unfold len. rewrite Hlen.
      destruct (sortedBlocks b); [|done]. by apply elem_of_nil in Hin'.
    + by eexists.
Qed.

Lemma Build_succeeds_iff_witness :
  accepts bytesBuffer ∧
  ((∃ out, Build bytesOf bytesBuffer
             (Add (Add ∅ (mkInfo "ab" 100 5 "p1" 0 false [] 1))
                  (mkInfo "aa" 7 6 "p2" 64 true [] 1)) = Done out) ↔
   (∀ k it, Add (Add ∅ (mkInfo "ab" 100 5 "p1" 0 false [] 1))
                (mkInfo "aa" 7 6 "p2" 64 true [] 1) !! k = Some it →
      PackFile it ≠ "" ∧ Payload it = [] ∧
      length (bytesOf (BlockID it))
      = keyWidth bytesOf
          (sortedBlocks (Add (Add ∅ (mkInfo "ab" 100 5 "p1" 0 false [] 1))
                             (mkInfo "aa" 7 6 "p2" 64 true [] 1))))).
Proof.
  assert (accepts bytesBuffer) as H by (split; reflexivity).
  split; [exact H|]. apply (Build_succeeds_iff bytesOf bytesBuffer _ H).
Defined.

(** X5 (builder.go, [Build] and [writeEntry]): when no info carries a
    payload and the writer accepts every byte, the first info in sorted
    order whose key is not as long as the first key makes [Build] return
    the error "unable to write entry: inconsistent key length: <its length>
    vs <the first key's length>"; the infos before it must name a pack
    file for the loop to reach it. *)
Theorem Build_inconsistent_key_length
    (contentIDToBytes : string → list Z) (w : ioWriter) (b : packIndexBuilder)
    (good rest : list Info) (bad : Info) :
  accepts w →
  (∀ k it, b !! k = Some it → Payload it = []) →
  sortedBlocks b = good ++ bad :: rest →
  Forall (λ it, PackFile it ≠ "" ∧
                length (contentIDToBytes (BlockID it))
                = keyWidth contentIDToBytes (sortedBlocks b)) good →
  length (contentIDToBytes (BlockID bad))
    ≠ keyWidth contentIDToBytes (sortedBlocks b) →
  Build contentIDToBytes w b
  = Failed ("unable to write entry: inconsistent key length: "
            +:+ pretty (len (contentIDToBytes (BlockID bad)))
            +:+ " vs "
            +:+ pretty (Z.of_nat (keyWidth contentIDToBytes (sortedBlocks b)))).
Proof.
  intros Hw Hp Hsorted Hgood Hbad.
  destruct (Build_no_payload contentIDToBytes w b Hw Hp)
    as (extra & layout & Hkl & ->).
  assert (keyLength layout
          = Z.of_nat (keyWidth contentIDToBytes (sortedBlocks b))) as Hkw.
  { rewrite Hkl. destruct (sortedBlocks b) eqn:E; [|done].
    by destruct good. }
  rewrite Hsorted at 1.
  rewrite writeEntries_first_rejected; [|done|].
  - destruct (decide (len (contentIDToBytes (BlockID bad)) ≠ keyLength layout))
      as [_|Heq]; [by rewrite Hkw|].
    exfalso. apply Hbad. rewrite Hkw in Heq. unfold len in Heq. lia.
  - eapply Forall_impl; [exact Hgood|]. intros it [? Hlen]. split; [done|].
    rewrite Hkw. unfold len. by rewrite Hlen.
Qed.

Lemma Build_inconsistent_key_length_witness :
  Build bytesOf bytesBuffer
    (Add (Add ∅ (mkInfo "a" 100 5 "p1" 0 false [] 1))
         (mkInfo "bcd" 7 6 "p2" 64 false [] 1))
  = Failed "unable to write entry: inconsistent key length: 3 vs 1".
Proof.
  assert (accepts bytesBuffer) as H by (split; reflexivity).
  rewrite (Build_inconsistent_key_length bytesOf bytesBuffer
             (Add (Add ∅ (mkInfo "a" 100 5 "p1" 0 false [] 1))
                  (mkInfo "bcd" 7 6 "p2" 64 false [] 1))
             [mkInfo "a" 100 5 "p1" 0 false [] 1] []
             (mkInfo "bcd" 7 6 "p2" 64 false [] 1) H).
  - vm_compute. reflexivity.
  - intros k it Hk.
    apply Add_lookup_Some in Hk as [->|Hk]; [reflexivity|].
    apply Add_lookup_Some in Hk as [->|Hk]; [reflexivity|].
    by rewrite lookup_empty in Hk.
  - vm_compute. reflexivity.
  - repeat constructor; vm_compute; congruence.
  - vm_compute. congruence.
Defined.

(** X6 (builder.go, [Build], [writeEntry] and [formatEntry]): when no info
    carries a payload and the writer accepts every byte, the first info in
    sorted order without a pack-file ID makes [Build] return the error
    "unable to write entry: unable to format entry: empty pack block ID
    for <its block ID>", provided the keys up to and including its own
    have the length of the first key. *)
Theorem Build_empty_pack_file
    (contentIDToBytes : string → list Z) (w : ioWriter) (b : packIndexBuilder)
    (good rest : list Info) (bad : Info) :
  accepts w →
  (∀ k it, b !! k = Some it → Payload it = []) →
  sortedBlocks b = good ++ bad :: rest →
  Forall (λ it, PackFile it ≠ "" ∧
                length (contentIDToBytes (BlockID it))
                = keyWidth contentIDToBytes (sortedBlocks b)) good →
  length (contentIDToBytes (BlockID bad))
    = keyWidth contentIDToBytes (sortedBlocks b) →
  PackFile bad = "" →
  Build contentIDToBytes w b
  = Failed ("unable to write entry: unable to format entry: "
            +:+ "empty pack block ID for " +:+ BlockID bad).
Proof.
  intros Hw Hp Hsorted Hgood Hlen Hbad.
  destruct (Build_no_payload contentIDToBytes w b Hw Hp)
    as (extra & layout & Hkl & ->).
  assert (keyLength layout
          = Z.of_nat (keyWidth contentIDToBytes (sortedBlocks b))) as Hkw.
  { rewrite Hkl. destruct (sortedBlocks b) eqn:E; [|done].
    by destruct good. }
  rewrite Hsorted at 1.
  rewrite writeEntries_first_rejected; [|done|].
  - destruct (decide (len (contentIDToBytes (BlockID bad)) ≠ keyLength layout))
      as [Hne|_].
    { exfalso. apply Hne. rewrite Hkw. unfold len. by rewrite Hlen. }
    by rewrite (formatEntry_empty bad layout Hbad).
  - eapply Forall_impl; [exact Hgood|]. intros it [? Hlen']. split; [done|].
    rewrite Hkw. unfold len. by rewrite Hlen'.
Qed.

Lemma Build_empty_pack_file_witness :
  Build bytesOf bytesBuffer
    (Add (Add ∅ (mkInfo "ab" 100 5 "p1" 0 false [] 1))
         (mkInfo "cd" 7 6 "" 64 false [] 1))
  = Failed "unable to write entry: unable to format entry: empty pack block ID for cd".
Proof.
  assert (accepts bytesBuffer) as H by (split; reflexivity).
  rewrite (Build_empty_pack_file bytesOf bytesBuffer
             (Add (Add ∅ (mkInfo "ab" 100 5 "p1" 0 false [] 1))
                  (mkInfo "cd" 7 6 "" 64 false [] 1))
             [mkInfo "ab" 100 5 "p1" 0 false [] 1] []
             (mkInfo "cd" 7 6 "" 64 false [] 1) H).
  - vm_compute. reflexivity.
  - intros k it Hk.
    apply Add_lookup_Some in Hk as [->|Hk]; [reflexivity|].
    apply Add_lookup_Some in Hk as [->|Hk]; [reflexivity|].
    by rewrite lookup_empty in Hk.
  - vm_compute. reflexivity.
  - repeat constructor; vm_compute; congruence.
  - vm_compute. reflexivity.
  - reflexivity.
Defined.

(** X7 (builder.go, [Build]): the blob of a successful [Build] is 8 header
    bytes, then one key and 20 bytes per info, then each distinct
    pack-file ID once: its length is
    [8 + n * (keyLength + 20) + the lengths of the distinct pack-file IDs]. *)
Theorem Build_output_length
    (contentIDToBytes : string → list Z) (w : ioWriter) (b : packIndexBuilder)
    (out : list Z) :
  Build contentIDToBytes w b = Done out →
  length out
  = (8 + size b * (keyWidth contentIDToBytes (sortedBlocks b) + 20)
     + sum_list (String.length <$> firstSeen (PackFile <$> sortedBlocks b)))%nat.
Proof.
  intros Hout.
  destruct (Build_Done _ _ _ _ Hout) as (layout & bodies & Hb).
  destruct (built_length _ _ _ _ _ Hb) as [Hsplit Hlen].
  rewrite Hsplit, length_app, Hlen, length_sortedBlocks. f_equal.
  generalize (firstSeen (PackFile <$> sortedBlocks b)). intros ps.
  induction ps as [|p ps IH]; [reflexivity|].
  rewrite !fmap_cons. cbn [concat sum_list_with].
  rewrite length_app, length_bytesOf, IH. reflexivity.
Qed.

Lemma Build_output_length_witness :
  ∃ out,
    Build bytesOf bytesBuffer
      (Add (Add (Add ∅ (mkInfo "ab" 100 5 "p1" 0 false [] 1))
                (mkInfo "aa" 7 6 "p2" 64 false [] 1))
           (mkInfo "ac" 0 7 "p1" 0 true [] 1)) = Done out ∧
    length out = 78%nat.
Proof.
  assert (∃ out, Build bytesOf bytesBuffer
            (Add (Add (Add ∅ (mkInfo "ab" 100 5 "p1" 0 false [] 1))
                      (mkInfo "aa" 7 6 "p2" 64 false [] 1))
                 (mkInfo "ac" 0 7 "p1" 0 true [] 1)) = Done out) as [out E].
  { eexists. vm_compute. reflexivity. }
  exists out. split; [exact E|].
  rewrite (Build_output_length bytesOf bytesBuffer _ out E).
  vm_compute. reflexivity.
Defined.

(** ** builder.go: the blob determines the builder *)

Section BuildInjective.

Variable contentIDToBytes : string → list Z.
Implicit Types (b : packIndexBuilder) (it : Info) (layout : indexLayout).

Lemma bytesOf_inj s1 : ∀ s2, bytesOf s1 = bytesOf s2 → s1 = s2.
Proof.
  induction s1 as [|a s1 IH]; intros [|a' s2] H; simpl in H; try done.
  injection H as Ha H. f_equal; [|by apply IH].
  apply N2Z.inj in Ha.
  rewrite <- (Ascii.ascii_N_embedding a), <- (Ascii.ascii_N_embedding a').
  by rewrite Ha.
Qed.

Lemma Build_Done_no_payload w b out k it :
  Build contentIDToBytes w b = Done out → b !! k = Some it → Payload it = [].
Proof.
  intros Hout Hk.
  destruct (decide (Payload it = [])) as [|Hne]; [done|]. exfalso.
  unfold Build, prepareExtraData in Hout.
  rewrite (prepareExtraData_loop_panics contentIDToBytes) in Hout; [done|].
  exists it. split; [|done]. apply elem_of_sortedBlocks. eauto.
Qed.

(** Every field of an info, read back from the blob at its entry. *)
Lemma built_entry_fields blocks layout bodies out i it :
  built contentIDToBytes blocks layout bodies out →
  blocks !! i = Some it →
  Info_typed it → representable it →
  len out < 2 ^ 32 →
  let kl := keyWidth contentIDToBytes blocks in
  let body := entryBody kl i out in
  entryKey kl i out = contentIDToBytes (BlockID it) ∧
  entryTimestampAndFlags body ≫ 16 = TimestampSeconds it ∧
  Z.land (entryTimestampAndFlags body ≫ 8) 255 = FormatVersion it ∧
  Z.land (entryTimestampAndFlags body) 255 = slen (PackFile it) ∧
  Z.testbit (entryPackedOffset body) 31 = Deleted it ∧
  Z.land (entryPackedOffset body) 2147483647 = PackOffset it ∧
  entryPackedLength body = Length it ∧
  slice (Z.to_nat (entryPackFileOffset body)) (String.length (PackFile it)) out
  = bytesOf (PackFile it).
Proof.
  intros Hb Hi (Hl & Hts & Hpo & Hfv) (Hts' & Hpl & Hpo') Hsmall kl body.
  destruct (built_entry_slices _ _ _ _ _ _ _ Hb Hi) as (body' & Hf & Hkey & Hbody).
  fold kl in Hbody, Hkey. fold body in Hbody. subst body'.
  apply formatEntry_Done in Hf as [Hpf Hf].
  split; [done|].
  unfold entryTimestampAndFlags, entryPackedOffset, entryPackedLength,
    entryPackFileOffset.
  pose proof (body_slices
    (Z.lor (Z.lor (u64 (u64 (TimestampSeconds it) ≪ 16))
                  (u64 (u64 (FormatVersion it) ≪ 8))) (u64 (slen (PackFile it))))
    (u32 (extraDataOffset layout + default 0 (packFileOffsets layout !! PackFile it)))
    (if Deleted it then Z.lor (PackOffset it) 2147483648 else PackOffset it)
    (Length it)) as (Ht & Hpf' & Hp & Hln).
  rewrite <- Hf in Ht, Hpf', Hp, Hln. rewrite Ht, Hpf', Hp, Hln.
  clear Ht Hpf' Hp Hln Hf.
  assert (0 ≤ slen (PackFile it)) by (unfold slen; lia).
  rewrite timestampAndFlags_value by lia.
  destruct (timestampAndFlags_fields (TimestampSeconds it) (FormatVersion it)
              (slen (PackFile it))) as (Hr & H16 & H8 & H0); [lia..|].
  destruct (packedOffset_fields (PackOffset it) (Deleted it)) as (Hr' & Hbit & Hlow);
    [lia |].
  rewrite beUint_putUint64, !(beUint_putUint32 (if Deleted it then _ else _)),
    (beUint_putUint32 (Length it)) by done.
  do 6 (split; [done|]).
  destruct (built_length _ _ _ _ _ Hb) as [Hsplit Htake].
  fold kl in Hsplit, Htake.
  set (packFiles := firstSeen (PackFile <$> blocks)) in *.
  set (E := (8 + length blocks * (kl + 20))%nat) in *.
  assert (PackFile it ∈ packFiles) as Hin.
  { unfold packFiles. rewrite firstSeen_elem_of. apply list_elem_of_fmap_2.
    by eapply list_elem_of_lookup_2. }
  apply list_elem_of_split in Hin as (pre & post & Hpq).
  pose proof Hb as (_ & _ & _ & Hedo & (_ & _ & _ & Hoff) & _ & _).
  fold packFiles in Hoff. rewrite (Hoff _ _ _ Hpq).
  change (default 0 (Some ?x)) with x.
  destruct (built_key_length _ _ _ _ _ it Hb) as [_ Hkl];
    [by eapply list_elem_of_lookup_2 |].
  fold kl in Hkl. rewrite Hedo, Hkl.
  set (P := length (concat (bytesOf <$> pre))) in *.
  assert (out = (take E out ++ concat (bytesOf <$> pre))
                ++ bytesOf (PackFile it) ++ concat (bytesOf <$> post)) as Hout.
  { rewrite Hsplit at 1. rewrite Hpq, fmap_app, concat_app. simpl.
    by rewrite <- !app_assoc. }
  assert (Z.of_nat (E + P + String.length (PackFile it)) ≤ len out) as Hle.
  { unfold len. rewrite Hout at 1. rewrite !length_app, Htake, length_bytesOf.
    fold P. lia. }
  assert (u32 (u32 (8 + len blocks * (Z.of_nat kl + 20))
               + u32 (len (concat (bytesOf <$> pre))))
          = Z.of_nat (E + P)) as ->.
  { unfold len in *. fold P. unfold E in *. pow2_consts.
    rewrite (u32_small (8 + _)), (u32_small (Z.of_nat P)) by (pow2_consts; nia).
    rewrite u32_small by (pow2_consts; nia). nia. }
  rewrite beUint_putUint32 by (unfold len in *; pow2_consts; lia).
  rewrite Nat2Z.id.
  rewrite Hout.
  replace (E + P)%nat with (length (take E out ++ concat (bytesOf <$> pre)))
    by (rewrite length_app, Htake; done).
  rewrite slice_app_length, <- length_bytesOf. apply take_app_length.
Qed.

(** The header of a blob gives the number of entries and, below 256, the
    width of the keys. *)
Lemma built_header blocks layout bodies out :
  built contentIDToBytes blocks layout bodies out →
  len out < 2 ^ 32 →
  beUint (slice 4 4 out) = len blocks ∧
  (blocks ≠ [] →
   out !! 1%nat = Some (u8 (Z.of_nat (keyWidth contentIDToBytes blocks)))).
Proof.
  intros Hb Hsmall.
  destruct (built_length _ _ _ _ _ Hb) as [Hsplit Htake].
  assert (len blocks < 2 ^ 32) as Hn.
  { unfold len in *. rewrite Hsplit, length_app, Htake in Hsmall. lia. }
  pose proof Hb as (_ & _ & Hkl & _ & _ & _ & ->).
  split.
  - unfold slice. simpl.
    rewrite u32_small by (unfold len in *; lia).
    apply beUint_putUint32. unfold len in *. lia.
  - intros Hne. simpl. rewrite Hkl.
    destruct blocks; [done|]. reflexivity.
Qed.

End BuildInjective.

(** The offset field wraps from 4 GiB on: with one entry whose key takes
    2^32 bytes the pack-file ID starts at byte 2^32 + 28 of the blob, the
    [packFileOffset] field holds 28, and the bytes there are not the
    pack-file ID. *)
Lemma Build_offset_wraps_beyond_4GiB (key : list Z) :
  len key = 2 ^ 32 → Forall (λ x, x = 0) key →
  let it := mkInfo "ab" 1 5 "p1" 0 false [] 1 in
  ∃ out, Build (λ _, key) bytesBuffer {[ "ab" := it ]} = Done out ∧
         2 ^ 32 ≤ len out ∧
         entryPackFileOffset (entryBody (length key) 0 out) = 28 ∧
         slice 28 (String.length (PackFile it)) out ≠ bytesOf (PackFile it).
Proof.
  intros Hlen Hzero it.
  assert (sortedBlocks {[ "ab" := it ]} = [it]) as Hsorted by (vm_compute; reflexivity).
  destruct (Build_no_payload (λ _, key) bytesBuffer {[ "ab" := it ]})
    as (extra & layout & Hkl & Hbuild).
  { split; reflexivity. }
  { intros k it' Hk. apply lookup_singleton_Some in Hk as [_ <-]. reflexivity. }
  rewrite Hsorted in Hkl.
  destruct (writeEntries_accepted (λ _, key) bytesBuffer (sortedBlocks {[ "ab" := it ]})
              layout ([1; u8 (keyLength layout)] ++ putUint16 (u16 (entryLength layout))
                      ++ putUint32 (u32 (entryCount layout)))) as [acc Hacc].
  { split; reflexivity. }
  { rewrite Hsorted. constructor; [|constructor]. split; [done|]. by rewrite Hkl. }
  rewrite Hacc in Hbuild. cbn in Hbuild.
  exists (acc ++ extra). split; [exact Hbuild |].
  destruct (Build_Done _ _ _ _ Hbuild) as (layout' & bodies & Hb).
  rewrite Hsorted in Hb.
  destruct (built_length _ _ _ _ _ Hb) as [Hsplit Htake].
  cbn [keyWidth length] in Hsplit, Htake.
  set (out := acc ++ extra) in *.
  assert (2 ^ 32 ≤ len out) as Hbig.
  { unfold len in *. rewrite Hsplit, length_app, Htake. lia. }
  split; [exact Hbig |].
  destruct (built_entry_slices _ _ _ _ _ 0%nat it Hb eq_refl) as (body & Hf & _ & Hbody).
  cbn [keyWidth] in Hbody. rewrite Hbody.
  apply formatEntry_Done in Hf as [_ ->].
  pose proof Hb as (_ & _ & Hkl' & Hedo & (_ & _ & _ & Hoff) & Hbodies & Hout).
  apply Forall2_cons_inv_l in Hbodies as (body0 & bodies' & _ & Hnil & ->).
  apply Forall2_nil_inv_l in Hnil as ->.
  cbn [fmap list_fmap] in Hoff.
  assert (firstSeen [PackFile it] = ["p1"]) as Hfs by (vm_compute; reflexivity).
  change (PackFile <$> [it]) with [PackFile it] in Hoff, Hout.
  rewrite Hfs in Hoff, Hout.
  change (PackFile it) with "p1".
  rewrite (Hoff [] "p1" [] eq_refl), Hedo, Hkl'.
  unfold entryPackFileOffset.
  match goal with
  | |- beUint (slice 8 4 (putUint64 ?X ++ putUint32 ?Y ++ putUint32 ?P ++ putUint32 ?L))
       = _ ∧ _ =>
      destruct (body_slices X Y P L) as (_ & Hs & _ & _); rewrite Hs; clear Hs;
      assert (Y = 28) as -> by (rewrite Hlen; vm_compute; reflexivity)
  end.
  split; [vm_compute; reflexivity |].
  rewrite Hout.
  assert (22 ≤ length key)%nat as Hlong by (unfold len in Hlen; pow2_consts; lia).
  destruct key as [|k0 key]; [simpl in Hlong; lia|].
  do 21 (destruct key as [|? key]; [simpl in Hlong; lia|]).
  do 22 (apply Forall_cons in Hzero as [-> Hzero]).
  unfold slice. cbn. intros [=].
Qed.

Lemma Build_offset_wraps_at_a_4GiB_key :
  let key := replicate (Z.to_nat (2 ^ 32)) 0 in
  let it := mkInfo "ab" 1 5 "p1" 0 false [] 1 in
  ∃ out, Build (λ _, key) bytesBuffer {[ "ab" := it ]} = Done out ∧
         2 ^ 32 ≤ len out ∧
         entryPackFileOffset (entryBody (length key) 0 out) = 28 ∧
         slice 28 (String.length (PackFile it)) out ≠ bytesOf (PackFile it).
Proof.
  intros key it. apply Build_offset_wraps_beyond_4GiB.
  - unfold len, key. rewrite length_replicate. apply Z2Nat.id. lia.
  - apply Forall_replicate. reflexivity.
Qed.

(** X8 (builder.go, [Build] with [formatEntry] and [prepareExtraData]):
    [Build] loses nothing.  Two builders filled through [Add], whose infos
    hold values of their Go types that fit the bit fields of an entry and
    whose keys take fewer than 256 bytes, are equal when [Build] writes
    the same blob of less than 4 GiB for both, provided different content
    IDs have different key bytes. *)
Theorem Build_injective
    (contentIDToBytes : string → list Z) (w1 w2 : ioWriter)
    (b1 b2 : packIndexBuilder) (out : list Z) :
  (∀ x y, contentIDToBytes x = contentIDToBytes y → x = y) →
  keyed b1 → keyed b2 →
  (∀ k it, b1 !! k = Some it → Info_typed it ∧ representable it) →
  (∀ k it, b2 !! k = Some it → Info_typed it ∧ representable it) →
  (keyWidth contentIDToBytes (sortedBlocks b1) < 256)%nat →
  (keyWidth contentIDToBytes (sortedBlocks b2) < 256)%nat →
  len out < 2 ^ 32 →
  Build contentIDToBytes w1 b1 = Done out →
  Build contentIDToBytes w2 b2 = Done out →
  b1 = b2.
Proof.
  intros Hinj Hk1 Hk2 Hrep1 Hrep2 Hw1 Hw2 Hsmall Hb1 Hb2.
  pose proof (λ k it, Build_Done_no_payload contentIDToBytes w1 b1 out k it Hb1) as Hpay1.
  pose proof (λ k it, Build_Done_no_payload contentIDToBytes w2 b2 out k it Hb2) as Hpay2.
  apply Build_Done in Hb1 as (layout1 & bodies1 & Hb1).
  apply Build_Done in Hb2 as (layout2 & bodies2 & Hb2).
  destruct (built_header _ _ _ _ _ Hb1 Hsmall) as [Hn1 Hh1].
  destruct (built_header _ _ _ _ _ Hb2 Hsmall) as [Hn2 Hh2].
  assert (length (sortedBlocks b1) = length (sortedBlocks b2)) as Hlen.
  { unfold len in *. lia. }
  assert (sortedBlocks b1 = sortedBlocks b2) as Hsorted.
  { destruct (sortedBlocks b1) as [|hd1 tl1] eqn:E1.
    { destruct (sortedBlocks b2); [done|]. simpl in Hlen. lia. }
    destruct (sortedBlocks b2) as [|hd2 tl2] eqn:E2; [simpl in Hlen; lia|].
    rewrite <- E1, <- E2 in *.
    assert (keyWidth contentIDToBytes (sortedBlocks b1)
            = keyWidth contentIDToBytes (sortedBlocks b2)) as Hkw.
    { rewrite Hh1 in Hh2 by (by rewrite E1).
      specialize (Hh2 ltac:(by rewrite E2)). injection Hh2 as Hh2.
      unfold u8 in Hh2. pow2_consts.
      rewrite !Z.mod_small in Hh2 by lia. lia. }
    apply list_eq_same_length with (length (sortedBlocks b1)); [done|by rewrite Hlen|].
    intros i it1 it2 _ Hi1 Hi2.
    assert (∃ k, b1 !! k = Some it1) as [k1 Hl1]
      by (apply elem_of_sortedBlocks; by eapply list_elem_of_lookup_2).
    assert (∃ k, b2 !! k = Some it2) as [k2 Hl2]
      by (apply elem_of_sortedBlocks; by eapply list_elem_of_lookup_2).
    destruct (Hrep1 _ _ Hl1) as [Ht1 Hr1]. destruct (Hrep2 _ _ Hl2) as [Ht2 Hr2].
    pose proof (built_entry_fields _ _ _ _ _ _ _ Hb1 Hi1 Ht1 Hr1 Hsmall) as F1.
    pose proof (built_entry_fields _ _ _ _ _ _ _ Hb2 Hi2 Ht2 Hr2 Hsmall) as F2.
    rewrite Hkw in F1. cbv zeta in F1, F2.
    destruct F1 as (A1 & B1 & C1 & D1 & E1' & F1 & G1 & H1).
    destruct F2 as (A2 & B2 & C2 & D2 & E2' & F2 & G2 & H2).
    pose proof (Hpay1 _ _ Hl1) as P1. pose proof (Hpay2 _ _ Hl2) as P2.
    assert (BlockID it1 = BlockID it2) by (apply Hinj; congruence).
    assert (PackFile it1 = PackFile it2).
    { apply bytesOf_inj. rewrite <- H1, <- H2.
      assert (String.length (PackFile it1) = String.length (PackFile it2)) as ->;
        [|done].
      unfold slen in D1, D2. lia. }
    destruct it1, it2; simpl in *. f_equal; congruence. }
  apply map_eq. intros k.
  destruct (b1 !! k) as [it1|] eqn:E1, (b2 !! k) as [it2|] eqn:E2; [| | |done].
  - assert (it1 ∈ sortedBlocks b2) as Hin.
    { rewrite <- Hsorted. apply elem_of_sortedBlocks. eauto. }
    apply elem_of_sortedBlocks in Hin as [k' Hk'].
    rewrite <- (Hk2 _ _ Hk'), (Hk1 _ _ E1) in Hk'. congruence.
  - assert (it1 ∈ sortedBlocks b2) as Hin.
    { rewrite <- Hsorted. apply elem_of_sortedBlocks. eauto. }
    apply elem_of_sortedBlocks in Hin as [k' Hk'].
    rewrite <- (Hk2 _ _ Hk'), (Hk1 _ _ E1) in Hk'. congruence.
  - assert (it2 ∈ sortedBlocks b1) as Hin.
    { rewrite Hsorted. apply elem_of_sortedBlocks. eauto. }
    apply elem_of_sortedBlocks in Hin as [k' Hk'].
    rewrite <- (Hk1 _ _ Hk'), (Hk2 _ _ E2) in Hk'. congruence.
Qed.

Lemma Build_injective_witness :
  let x := mkInfo "ab" 100 5 "p1" 0 false [] 1 in
  let y := mkInfo "aa" 7 6 "p2" 64 true [] 1 in
  ∃ out,
    Build bytesOf bytesBuffer (Add (Add ∅ x) y) = Done out ∧
    Build bytesOf bytesBuffer (Add (Add ∅ y) x) = Done out ∧
    Add (Add ∅ x) y = Add (Add ∅ y) x.
Proof.
  intros x y.
  assert (∃ out,
    Build bytesOf bytesBuffer (Add (Add ∅ x) y) = Done out ∧
    Build bytesOf bytesBuffer (Add (Add ∅ y) x) = Done out ∧
    len out < 2 ^ 32) as (out & E1 & E2 & Hsmall).
  { eexists. split; [vm_compute; reflexivity|].
    split; vm_compute; reflexivity. }
  assert (∀ i j k it, Add (Add ∅ i) j !! k = Some it → i = x ∨ i = y →
                      j = x ∨ j = y → Info_typed it ∧ representable it) as Hrep.
  { intros i j k it Hk Hi Hj.
    repeat (apply Add_lookup_Some in Hk as [->|Hk]);
      [..| by rewrite lookup_empty in Hk];
      [destruct Hj as [->| ->]|destruct Hi as [->| ->]];
      (split; [unfold Info_typed | unfold representable, slen]; simpl;
       pow2_consts; lia). }
  exists out. split; [exact E1|]. split; [exact E2|].
  apply (Build_injective bytesOf bytesBuffer bytesBuffer _ _ out).
  - intros s1 s2. apply bytesOf_inj.
  - apply keyed_Add, keyed_Add, keyed_empty.
  - apply keyed_Add, keyed_Add, keyed_empty.
  - intros k it Hk. apply (Hrep x y k it Hk); auto.
  - intros k it Hk. apply (Hrep y x k it Hk); auto.
  - vm_compute. lia.
  - vm_compute. lia.
  - exact Hsmall.
  - exact E1.
  - exact E2.
Defined.

(** ** committed_block_index_disk_cache.go: [writeTempFileAtomic] and
    [addBlockToCache] *)

(** X9 (committed_block_index_disk_cache.go, [writeTempFileAtomic]):
    every run of [writeTempFileAtomic] asks for a temp file, and asks once
    more after creating the directory exactly when the first answer was a
    not-exist error; it then ends in one of four ways: no temp file
    ("can't create tmp file: <error>"), a failed write ("can't write to
    temp file: <error>"), a failed close ("can't close tmp file"), each
    with the empty name, or the name of the temp file that holds [data],
    written in one piece and closed, with a nil error. *)
Theorem writeTempFileAtomic_outcomes (dir : string) (data : list Z)
    (tr : list event) (name : string) (err : option error) :
  runs (writeTempFileAtomic dir data) tr (name, err) →
  ∃ mk,
    (mk = [] ∨
     ∃ e, notExist e = true ∧
          mk = [Ev (TempFile dir "tmp") (inr e); Ev (MkdirAll dir) ()]) ∧
    ((∃ e, tr = mk ++ [Ev (TempFile dir "tmp") (inr e)] ∧
           (mk = [] → notExist e = false) ∧
           name = "" ∧
           err = Some (Errorf ("can't create tmp file: " +:+ message e))) ∨
     (∃ tf e, tr = mk ++ [Ev (TempFile dir "tmp") (inl tf);
                          Ev (FWrite tf data) (Some e)] ∧
              name = "" ∧
              err = Some (Errorf ("can't write to temp file: " +:+ message e))) ∨
     (∃ tf e, tr = mk ++ [Ev (TempFile dir "tmp") (inl tf);
                          Ev (FWrite tf data) None; Ev (FClose tf) (Some e)] ∧
              name = "" ∧
              err = Some (Errorf "can't close tmp file")) ∨
     (tr = mk ++ [Ev (TempFile dir "tmp") (inl name);
                  Ev (FWrite name data) None; Ev (FClose name) None] ∧
      err = None)).
Proof.
  assert (∀ tf tr0,
    runs (match tf with
          | inr err =>
              Ret ("", Some (Errorf ("can't create tmp file: " +:+ message err)))
          | inl tf =>
              werr ← perform (FWrite tf data);
              match werr with
              | Some err =>
                  Ret ("", Some (Errorf ("can't write to temp file: " +:+ message err)))
              | None =>
                  cerr ← perform (FClose tf);
                  match cerr with
                  | Some _ => Ret ("", Some (Errorf "can't close tmp file"))
                  | None => Ret (tf, None)
                  end
              end
          end) tr0 (name, err) →
    (∃ e, tf = inr e ∧ tr0 = [] ∧ name = "" ∧
          err = Some (Errorf ("can't create tmp file: " +:+ message e))) ∨
    (∃ f e, tf = inl f ∧ tr0 = [Ev (FWrite f data) (Some e)] ∧ name = "" ∧
            err = Some (Errorf ("can't write to temp file: " +:+ message e))) ∨
    (∃ f e, tf = inl f ∧
            tr0 = [Ev (FWrite f data) None; Ev (FClose f) (Some e)] ∧ name = "" ∧
            err = Some (Errorf "can't close tmp file")) ∨
    (tf = inl name ∧ tr0 = [Ev (FWrite name data) None; Ev (FClose name) None] ∧
     err = None)) as Htail.
  { intros [tf|e] tr0; unfold perform, mbind, io_mbind; simpl.
    - intros ([e|] & tr1 & -> & H); simpl in H.
      + destruct H as [-> [= -> ->]]. right. left. by exists tf, e.
      + destruct H as ([e|] & tr2 & -> & [-> [= -> ->]]).
        * right. right. left. by exists tf, e.
        * right. right. right. done.
    - intros [-> [= -> ->]]. left. by exists e. }
  unfold writeTempFileAtomic. intros H.
  apply runs_bind in H as (tr1 & tr2 & tf1 & -> & H1 & H).
  apply runs_bind in H as (tr3 & tr4 & tf2 & -> & H2 & H3).
  destruct H1 as (r & ? & -> & -> & ->).
  assert (∃ mk,
    (mk = [] ∧ (∀ e, tf2 = inr e → notExist e = false) ∨
     ∃ e, notExist e = true ∧
          mk = [Ev (TempFile dir "tmp") (inr e); Ev (MkdirAll dir) ()]) ∧
    [Ev (TempFile dir "tmp") r] ++ tr3 = mk ++ [Ev (TempFile dir "tmp") tf2])
    as (mk & Hmk & Heq).
  { destruct r as [tf|e].
    - destruct H2 as [-> ->]. exists []. split; [left|done]. split; [done|].
      intros ? [=].
    - destruct (notExist e) eqn:Hne.
      + apply runs_bind in H2 as (? & ? & ? & -> & ([] & ? & -> & -> & _) & H2).
        destruct H2 as (? & ? & -> & -> & <-).
        eexists. split; [right; eauto|]. done.
      + destruct H2 as [-> ->]. exists []. split; [left|done]. split; [done|].
        by intros ? [= <-]. }
  exists mk. split.
  { destruct Hmk as [[-> _]|Hmk]; [by left|by right]. }
  rewrite app_assoc, Heq, <- app_assoc.
  apply Htail in H3
    as [(e & -> & -> & -> & ->)|[(f & e & -> & -> & -> & ->)
       |[(f & e & -> & -> & -> & ->)|(-> & -> & ->)]]].
  - left. exists e. split; [done|]. split; [|done].
    intros ->. destruct Hmk as [[_ Hne]|(? & _ & [=])]. by apply Hne.
  - right. left. by exists f, e.
  - right. right. left. by exists f, e.
  - right. right. right. done.
Qed.

Lemma writeTempFileAtomic_outcomes_witness :
  let full := mkOsError false "write cache/tmp0: no space left on device" in
  let tr := [Ev (TempFile "cache" "tmp") (inr enoent);
             Ev (MkdirAll "cache") ();
             Ev (TempFile "cache" "tmp") (inl "cache/tmp0");
             Ev (FWrite "cache/tmp0" [1; 2; 3]) (Some full)] in
  let err := Some (Errorf "can't write to temp file: write cache/tmp0: no space left on device") in
  runs (writeTempFileAtomic "cache" [1; 2; 3]) tr ("", err) ∧
  ∃ mk,
    (mk = [] ∨
     ∃ e, notExist e = true ∧
          mk = [Ev (TempFile "cache" "tmp") (inr e); Ev (MkdirAll "cache") ()]) ∧
    ((∃ e, tr = mk ++ [Ev (TempFile "cache" "tmp") (inr e)] ∧
           (mk = [] → notExist e = false) ∧
           "" = "" ∧
           err = Some (Errorf ("can't create tmp file: " +:+ message e))) ∨
     (∃ tf e, tr = mk ++ [Ev (TempFile "cache" "tmp") (inl tf);
                          Ev (FWrite tf [1; 2; 3]) (Some e)] ∧
              "" = "" ∧
              err = Some (Errorf ("can't write to temp file: " +:+ message e))) ∨
     (∃ tf e, tr = mk ++ [Ev (TempFile "cache" "tmp") (inl tf);
                          Ev (FWrite tf [1; 2; 3]) None; Ev (FClose tf) (Some e)] ∧
              "" = "" ∧
              err = Some (Errorf "can't close tmp file")) ∨
     (tr = mk ++ [Ev (TempFile "cache" "tmp") (inl "");
                  Ev (FWrite "" [1; 2; 3]) None; Ev (FClose "") None] ∧
      err = None)).
Proof.
  intros full tr err.
  assert (runs (writeTempFileAtomic "cache" [1; 2; 3]) tr ("", err)) as Hrun.
  { unfold writeTempFileAtomic, perform, mbind, io_mbind. simpl.
    repeat (eexists _, _; split; [reflexivity | simpl]). done. }
  split; [exact Hrun|].
  exact (writeTempFileAtomic_outcomes "cache" [1; 2; 3] tr "" err Hrun).
Defined.

(** X10 (committed_block_index_disk_cache.go, [addBlockToCache] with
    [hasIndexBlockID]): in a cache directory where nothing fails,
    [addBlockToCache] of an ID that is not cached leaves the data under
    the index path; [hasIndexBlockID] then answers true with one [Stat];
    and a second [addBlockToCache] under the same ID, with whatever
    data, only makes that [Stat] and changes nothing: a cached index is
    never overwritten. *)
Theorem addBlockToCache_never_overwrites (quote : string → string)
    (c : diskCommittedBlockIndexCache)
    (indexBlockID : string) (data data' : list Z) (s : memfs) :
  files s !! indexBlockPath c indexBlockID = None →
  let path := indexBlockPath c indexBlockID in
  ∃ tr s',
    interp memfsModel (addBlockToCache quote c indexBlockID data) s = (None, tr, s') ∧
    files s' !! path = Some data ∧
    interp memfsModel (hasIndexBlockID c indexBlockID) s'
    = ((true, None), [Ev (Stat path) None], s') ∧
    interp memfsModel (addBlockToCache quote c indexBlockID data') s'
    = (None, [Ev (Stat path) None], s').
Proof.
  intros Habs path.
  destruct (addBlockToCache_memfs_installs quote c indexBlockID data s Habs)
    as (tr & s' & Hrun & Hfiles).
  exists tr, s'. split; [exact Hrun|].
  assert (files s' !! path = Some data) as Hpath.
  { rewrite Hfiles. apply lookup_insert_eq. }
  split; [exact Hpath|]. split.
  - unfold hasIndexBlockID, perform, mbind, io_mbind. simpl.
    fold path. by rewrite Hpath.
  - apply addBlockToCache_memfs_present. fold path. by rewrite Hpath.
Qed.

Lemma addBlockToCache_never_overwrites_witness :
  let c := mkCache "cache" in
  let s := mkMemfs ∅ false 0 in
  files s !! indexBlockPath c "n1" = None ∧
  ∃ tr s',
    interp memfsModel (addBlockToCache quotePlain c "n1" [1; 2; 3]) s = (None, tr, s') ∧
    files s' !! "cache/n1.sndx" = Some [1; 2; 3] ∧
    interp memfsModel (hasIndexBlockID c "n1") s'
    = ((true, None), [Ev (Stat "cache/n1.sndx") None], s') ∧
    interp memfsModel (addBlockToCache quotePlain c "n1" [4; 5]) s'
    = (None, [Ev (Stat "cache/n1.sndx") None], s').
Proof.
  intros c s.
  assert (files s !! indexBlockPath c "n1" = None) as Habs by reflexivity.
  split; [exact Habs|].
  exact (addBlockToCache_never_overwrites quotePlain c "n1" [1; 2; 3] [4; 5] s Habs).
Defined.

(** ** committed_block_index_disk_cache.go: [expireUnused] *)

Section StringSuffix.

Implicit Types (s suffix n : string).

Lemma string_app_cons a s1 s2 : String a s1 +:+ s2 = String a (s1 +:+ s2).
Proof. reflexivity. Qed.

Lemma string_app_length s1 s2 :
  String.length (s1 +:+ s2) = (String.length s1 + String.length s2)%nat.
Proof.
  induction s1 as [|a s1 IH]; [reflexivity|].
  rewrite string_app_cons. simpl. by rewrite IH.
Qed.

Lemma substring_all s : String.substring 0 (String.length s) s = s.
Proof. induction s as [|a s IH]; simpl; [reflexivity|]. by rewrite IH. Qed.

Lemma substring_app_l s1 s2 :
  String.substring 0 (String.length s1) (s1 +:+ s2) = s1.
Proof.
  induction s1 as [|a s1 IH]; simpl.
  - by destruct (_ +:+ _).
  - rewrite ?string_app_cons. by rewrite IH.
Qed.

Lemma substring_app_r s1 s2 :
  String.substring (String.length s1) (String.length s2) (s1 +:+ s2) = s2.
Proof.
  induction s1 as [|a s1 IH]; simpl.
  - apply substring_all.
  - rewrite ?string_app_cons. apply IH.
Qed.

Lemma substring_split s : ∀ k, (k ≤ String.length s)%nat →
  s = String.substring 0 k s +:+ String.substring k (String.length s - k) s.
Proof.
  induction s as [|a s IH]; intros k Hk; simpl in *.
  - by destruct k.
  - destruct k as [|k]; simpl.
    + by rewrite substring_all.
    + rewrite ?string_app_cons. f_equal. apply IH. lia.
Qed.

Lemma HasSuffix_app n suffix : expiry.HasSuffix (n +:+ suffix) suffix = true.
Proof.
  unfold expiry.HasSuffix. rewrite string_app_length.
  replace (String.length n + String.length suffix - String.length suffix)%nat
    with (String.length n) by lia.
  rewrite substring_app_r.
  rewrite !bool_decide_eq_true_2; [done..|lia].
Qed.

Lemma TrimSuffix_app n suffix : expiry.TrimSuffix (n +:+ suffix) suffix = n.
Proof.
  unfold expiry.TrimSuffix. rewrite HasSuffix_app, string_app_length.
  replace (String.length n + String.length suffix - String.length suffix)%nat
    with (String.length n) by lia.
  apply substring_app_l.
Qed.

Lemma HasSuffix_split s suffix :
  expiry.HasSuffix s suffix = true → s = expiry.TrimSuffix s suffix +:+ suffix.
Proof.
  intros H. unfold expiry.TrimSuffix. rewrite H.
  unfold expiry.HasSuffix in H.
  apply andb_true_iff in H as [Hlen Hsub].
  apply bool_decide_eq_true in Hlen, Hsub.
  etrans; [apply (substring_split s (String.length s - String.length suffix)); lia|].
  f_equal. rewrite <- Hsub at 3. f_equal. lia.
Qed.

Lemma string_app_inj_r s1 : ∀ s2 suffix, s1 +:+ suffix = s2 +:+ suffix → s1 = s2.
Proof.
  induction s1 as [|a s1 IH]; intros [|b s2] suffix Hk; try done.
  - exfalso. apply (f_equal String.length) in Hk.
    rewrite !string_app_length in Hk. simpl in Hk. lia.
  - exfalso. apply (f_equal String.length) in Hk.
    rewrite !string_app_length in Hk. simpl in Hk. lia.
  - rewrite !string_app_cons in Hk. injection Hk as -> Hk. f_equal.
    by apply (IH _ suffix).
Qed.

Lemma Join_inj dir n1 n2 : Join dir n1 = Join dir n2 → n1 = n2.
Proof.
  unfold Join. intros H.
  apply (inj (String.app dir)) in H. by apply (inj (String.app "/")) in H.
Qed.

End StringSuffix.

Section ExpireFacts.

Variable rangeOf : gmap string expiry.FileInfo → list expiry.FileInfo.
Hypothesis rangeOf_values : ∀ m, rangeOf m ≡ₚ (map_to_list m).*2.

Implicit Types (c : diskCommittedBlockIndexCache) (ent rem : expiry.FileInfo)
               (tr : list expiry.event) (used : list string).

Lemma elem_of_rangeOf m rem : rem ∈ rangeOf m ↔ ∃ k, m !! k = Some rem.
Proof.
  rewrite rangeOf_values, list_elem_of_fmap. split.
  - intros ([k v] & -> & H). exists k. by apply elem_of_map_to_list.
  - intros [k H]. exists (k, rem). split; [done|]. by apply elem_of_map_to_list.
Qed.

Lemma expiry_runs_bind {A B} (m : expiry.io A) (f : A → expiry.io B) tr b :
  expiry.runs (m ≫= f) tr b ↔
  ∃ tr1 tr2 a, tr = tr1 ++ tr2 ∧ expiry.runs m tr1 a ∧ expiry.runs (f a) tr2 b.
Proof.
  revert tr. induction m as [a|X c k IH]; intros tr; simpl.
  - split.
    + intros H. by exists [], tr, a.
    + intros (tr1 & tr2 & a' & -> & [-> ->] & H). done.
  - split.
    + intros (r & tr' & -> & H). apply IH in H as (tr1 & tr2 & a & -> & H1 & H2).
      exists (expiry.Ev c r :: tr1), tr2, a. eauto 10.
    + intros (tr1 & tr2 & a & -> & (r & tr' & -> & H1) & H2).
      exists r, (tr' ++ tr2). split; [done |]. apply IH. eauto 10.
Qed.

Lemma removals_app tr1 tr2 :
  expiry.removals (tr1 ++ tr2) = expiry.removals tr1 ++ expiry.removals tr2.
Proof. apply omap_app. Qed.

Lemma readings_app tr1 tr2 :
  expiry.readings (tr1 ++ tr2) = expiry.readings tr1 ++ expiry.readings tr2.
Proof. apply omap_app. Qed.

(** One round of the third loop: a clock reading, then either the file is
    old and removed, or it is kept. *)
Lemma sweep_cons_runs c rem rest tr u :
  expiry.runs (expiry.sweep c (rem :: rest)) tr u →
  ∃ now tr1 tr2,
    tr = expiry.Ev expiry.Now now :: tr1 ++ tr2 ∧
    expiry.runs (expiry.sweep c rest) tr2 u ∧
    expiry.readings tr1 = [] ∧
    expiry.removals tr1
    = if decide (now - expiry.ModTime rem
                 > expiry.unusedCommittedBlockIndexCleanupTime)
      then [Join (dirname c) (expiry.Name rem)] else [].
Proof.
  intros H. cbn [expiry.sweep] in H.
  apply expiry_runs_bind in H as (? & tr0 & now & -> & (? & ? & -> & -> & <-) & H).
  apply expiry_runs_bind in H as (tr1 & tr2 & [] & -> & H1 & H2).
  exists now, tr1, tr2. split; [done|]. split; [done|].
  destruct (decide (now - expiry.ModTime rem
                    > expiry.unusedCommittedBlockIndexCleanupTime)).
  - apply expiry_runs_bind in H1 as (? & tr3 & [] & -> & (? & ? & -> & -> & _) & H1).
    apply expiry_runs_bind in H1 as (? & tr4 & err & -> & (? & ? & -> & -> & <-) & H1).
    destruct err as [e|].
    + destruct H1 as (? & ? & -> & -> & _). done.
    + destruct H1 as [-> _]. done.
  - destruct H1 as (? & ? & -> & -> & _). done.
Qed.

Lemma sweep_removals_sound c rems : ∀ tr u path,
  expiry.runs (expiry.sweep c rems) tr u →
  path ∈ expiry.removals tr →
  ∃ rem now, rem ∈ rems ∧ now ∈ expiry.readings tr ∧
    now - expiry.ModTime rem > expiry.unusedCommittedBlockIndexCleanupTime ∧
    path = Join (dirname c) (expiry.Name rem).
Proof.
  induction rems as [|rem rems IH]; intros tr u path H Hin.
  { destruct H as [-> _]. by apply elem_of_nil in Hin. }
  apply sweep_cons_runs in H as (now & tr1 & tr2 & -> & H2 & Hr & Hrm).
  change (expiry.Ev expiry.Now now :: tr1 ++ tr2)
    with ([expiry.Ev expiry.Now now] ++ tr1 ++ tr2) in *.
  rewrite !removals_app, Hrm in Hin. rewrite !readings_app, Hr.
  cbn in Hin. cbn.
  apply elem_of_app in Hin as [Hin|Hin].
  - destruct (decide (now - expiry.ModTime rem
                      > expiry.unusedCommittedBlockIndexCleanupTime));
      [|by apply elem_of_nil in Hin].
    apply list_elem_of_singleton in Hin as ->.
    exists rem, now. split; [left|]. split; [left|]. done.
  - destruct (IH _ _ _ H2 Hin) as (rem' & now' & ? & ? & ? & ?).
    exists rem', now'. split; [by right|]. split; [by right|]. done.
Qed.

Lemma sweep_removals_complete c rems : ∀ tr u rem,
  expiry.runs (expiry.sweep c rems) tr u →
  rem ∈ rems →
  (∀ now, now ∈ expiry.readings tr →
     now - expiry.ModTime rem > expiry.unusedCommittedBlockIndexCleanupTime) →
  Join (dirname c) (expiry.Name rem) ∈ expiry.removals tr.
Proof.
  induction rems as [|rem0 rems IH]; intros tr u rem H Hin Hold.
  { by apply elem_of_nil in Hin. }
  apply sweep_cons_runs in H as (now & tr1 & tr2 & -> & H2 & Hr & Hrm).
  change (expiry.Ev expiry.Now now :: tr1 ++ tr2)
    with ([expiry.Ev expiry.Now now] ++ tr1 ++ tr2) in *.
  rewrite !removals_app, Hrm. rewrite !readings_app, Hr in Hold.
  cbn in Hold. cbn.
  apply elem_of_cons in Hin as [->|Hin].
  - destruct (decide (now - expiry.ModTime rem0
                      > expiry.unusedCommittedBlockIndexCleanupTime)) as [|Hn].
    + left.
    + exfalso. apply Hn, Hold. left.
  - apply elem_of_app. right. apply (IH _ _ _ H2 Hin).
    intros now' Hnow'. apply Hold. by right.
Qed.

Lemma sweep_removals_sublist c rems : ∀ tr u,
  expiry.runs (expiry.sweep c rems) tr u →
  expiry.removals tr
    `sublist_of` (λ rem, Join (dirname c) (expiry.Name rem)) <$> rems.
Proof.
  induction rems as [|rem rems IH]; intros tr u H.
  { destruct H as [-> _]. done. }
  apply sweep_cons_runs in H as (now & tr1 & tr2 & -> & H2 & Hr & Hrm).
  change (expiry.Ev expiry.Now now :: tr1 ++ tr2)
    with ([expiry.Ev expiry.Now now] ++ tr1 ++ tr2) in *.
  rewrite !removals_app, Hrm. cbn.
  destruct (decide (now - expiry.ModTime rem
                    > expiry.unusedCommittedBlockIndexCleanupTime)).
  - apply sublist_skip. by eapply IH.
  - apply sublist_cons. by eapply IH.
Qed.

(** What the first loop collects: each value is a listed entry with the
    index suffix, under its name without the suffix. *)
Lemma collect_lookup_Some entries k ent :
  expiry.collect entries !! k = Some ent →
  ent ∈ entries ∧
  expiry.HasSuffix (expiry.Name ent) simpleIndexSuffix = true ∧
  k = expiry.TrimSuffix (expiry.Name ent) simpleIndexSuffix.
Proof.
  unfold expiry.collect.
  assert (∀ L (acc : gmap string expiry.FileInfo),
    (∀ k ent, acc !! k = Some ent →
       ent ∈ L ∧ expiry.HasSuffix (expiry.Name ent) simpleIndexSuffix = true ∧
       k = expiry.TrimSuffix (expiry.Name ent) simpleIndexSuffix) →
    ∀ k ent,
      foldl (λ remaining ent,
               if expiry.HasSuffix (expiry.Name ent) simpleIndexSuffix
               then <[expiry.TrimSuffix (expiry.Name ent) simpleIndexSuffix := ent]>
                      remaining
               else remaining) acc entries !! k = Some ent →
      ent ∈ L ++ entries ∧
      expiry.HasSuffix (expiry.Name ent) simpleIndexSuffix = true ∧
      k = expiry.TrimSuffix (expiry.Name ent) simpleIndexSuffix) as Hgen.
  { induction entries as [|e entries IH]; intros L acc Hacc k' ent' H.
    - rewrite app_nil_r. by apply Hacc.
    - simpl in H.
      replace (L ++ e :: entries) with ((L ++ [e]) ++ entries)
        by (by rewrite <- app_assoc).
      eapply IH; [|exact H].
      intros k1 ent1 H1.
      destruct (expiry.HasSuffix (expiry.Name e) simpleIndexSuffix) eqn:Hs.
      + destruct (decide (k1 = expiry.TrimSuffix (expiry.Name e) simpleIndexSuffix))
          as [->|Hne].
        * rewrite lookup_insert_eq in H1. injection H1 as <-.
          split; [|done]. apply elem_of_app. right. left.
        * rewrite lookup_insert_ne in H1 by done.
          destruct (Hacc _ _ H1) as (? & ? & ?).
          split; [|done]. apply elem_of_app. by left.
      + destruct (Hacc _ _ H1) as (? & ? & ?).
        split; [|done]. apply elem_of_app. by left. }
  intros H. apply (Hgen [] ∅); [|exact H].
  intros ? ? H0. by rewrite lookup_empty in H0.
Qed.

(** With distinct names in the listing, every entry with the suffix is
    collected. *)
Lemma collect_lookup_complete entries ent :
  NoDup (expiry.Name <$> entries) →
  ent ∈ entries →
  expiry.HasSuffix (expiry.Name ent) simpleIndexSuffix = true →
  expiry.collect entries
    !! expiry.TrimSuffix (expiry.Name ent) simpleIndexSuffix = Some ent.
Proof.
  unfold expiry.collect. intros Hnd Hin Hs.
  assert (∀ acc : gmap string expiry.FileInfo,
    (ent ∈ entries ∨
     acc !! expiry.TrimSuffix (expiry.Name ent) simpleIndexSuffix = Some ent) →
    (ent ∈ entries ∨ expiry.Name ent ∉ expiry.Name <$> entries) →
    NoDup (expiry.Name <$> entries) →
    foldl (λ remaining ent,
             if expiry.HasSuffix (expiry.Name ent) simpleIndexSuffix
             then <[expiry.TrimSuffix (expiry.Name ent) simpleIndexSuffix := ent]>
                    remaining
             else remaining) acc entries
      !! expiry.TrimSuffix (expiry.Name ent) simpleIndexSuffix = Some ent) as Hgen.
  { clear Hnd Hin. induction entries as [|e entries IH]; intros acc H1 H2 Hnd.
    - simpl. destruct H1 as [H1|H1]; [by apply elem_of_nil in H1|done].
    - simpl. rewrite fmap_cons in Hnd. apply NoDup_cons in Hnd as [Hne Hnd].
      destruct (decide (e = ent)) as [->|Hdiff].
      + rewrite Hs. apply IH; [|by right|done].
        right. by rewrite lookup_insert_eq.
      + assert (expiry.Name e ≠ expiry.Name ent) as Hname.
        { intros Heq. destruct H2 as [H2|H2].
          - apply elem_of_cons in H2 as [->|H2]; [done|].
            apply Hne. rewrite Heq. by apply list_elem_of_fmap_2.
          - apply H2. rewrite fmap_cons, <- Heq. left. }
        apply IH; [| |done].
        * destruct H1 as [H1|H1].
          { apply elem_of_cons in H1 as [->|H1]; [done|]. by left. }
          right.
          destruct (expiry.HasSuffix (expiry.Name e) simpleIndexSuffix) eqn:Hse;
            [|done].
          rewrite lookup_insert_ne; [done|].
          intros Heq. apply Hname.
          rewrite (HasSuffix_split _ _ Hse), (HasSuffix_split _ _ Hs).
          by rewrite Heq.
        * destruct H2 as [H2|H2].
          { apply elem_of_cons in H2 as [->|H2]; [done|]. by left. }
          right. intros Hin'. apply H2. rewrite fmap_cons. by right. }
  apply Hgen; [by left|by left|done].
Qed.

Lemma dropUsed_lookup (m : gmap string expiry.FileInfo) used k :
  expiry.dropUsed m used !! k = if decide (k ∈ used) then None else m !! k.
Proof.
  unfold expiry.dropUsed. revert m.
  induction used as [|u used IH]; intros m; simpl.
  - destruct (decide (k ∈ [])) as [H|]; [by apply elem_of_nil in H|done].
  - rewrite IH.
    destruct (decide (k ∈ used)) as [Hin|Hnin].
    + rewrite decide_True; [done|by right].
    + destruct (decide (k = u)) as [->|Hne].
      * rewrite lookup_delete_eq. rewrite decide_True; [done|left].
      * rewrite lookup_delete_ne by done.
        rewrite decide_False; [done|].
        intros [->|H]%elem_of_cons; done.
Qed.

(** The runs of [expireUnused]: the listing fails and so does the call, or
    the call sweeps what the listing left after the used IDs are taken
    out, and returns nil. *)
Lemma expireUnused_runs c used tr res :
  expiry.runs (expiry.expireUnused rangeOf c used) tr res →
  (∃ e, tr = [expiry.Ev (expiry.ReadDir (dirname c)) (inr e)] ∧
        res = Some (Errorf ("can't list cache: " +:+ message e))) ∨
  (∃ entries rest,
     tr = expiry.Ev (expiry.ReadDir (dirname c)) (inl entries) :: rest ∧
     res = None ∧
     expiry.runs
       (expiry.sweep c (rangeOf (expiry.dropUsed (expiry.collect entries) used)))
       rest ()).
Proof.
  intros H. unfold expiry.expireUnused in H.
  apply expiry_runs_bind in H as (? & tr0 & r & -> & (? & ? & -> & -> & <-) & H).
  destruct r as [entries|e].
  - right. apply expiry_runs_bind in H as (tr1 & ? & [] & -> & H1 & [-> ->]).
    exists entries, tr1. by rewrite app_nil_r.
  - left. destruct H as [-> ->]. by exists e.
Qed.

Lemma expireUnused_listed_runs c used entries rest res :
  expiry.runs (expiry.expireUnused rangeOf c used)
              (expiry.Ev (expiry.ReadDir (dirname c)) (inl entries) :: rest) res →
  res = None ∧
  expiry.runs
    (expiry.sweep c (rangeOf (expiry.dropUsed (expiry.collect entries) used)))
    rest ().
Proof.
  intros H.
  apply expireUnused_runs in H as [(e & Heq & _)|(entries' & rest' & Heq & ? & H)].
  - apply (f_equal (λ tr, expiry.listingOf <$> head tr)) in Heq. done.
  - pose proof (f_equal (λ tr, expiry.listingOf <$> head tr) Heq) as Hl.
    apply (f_equal tail) in Heq. simpl in Hl, Heq.
    injection Hl as <-. by subst.
Qed.

End ExpireFacts.

Lemma expiry_interp_runs {A} (p : expiry.io A) s a tr s' :
  expiry.interp p s = (a, tr, s') → expiry.runs p tr a.
Proof.
  revert s a tr s'. induction p as [a'|X c k IH]; intros s a tr s'; simpl.
  - by intros [= <- <- <-].
  - destruct (expiry.cachedir_respond X c s) as [r s1].
    destruct (expiry.interp (k r) s1) as [[a1 tr1] s2] eqn:E.
    intros [= <- <- <-]. exists r, tr1. split; [done |]. by eapply IH.
Qed.

(** X11 (committed_block_index_disk_cache.go, [expireUnused]): the only
    error [expireUnused] returns is that of a failed directory listing,
    as "can't list cache: <error>", and then it has done nothing else;
    once the listing succeeds it returns nil, whatever [os.Remove]
    answers. *)
Theorem expireUnused_fails_only_on_listing
    (rangeOf : gmap string expiry.FileInfo → list expiry.FileInfo)
    (c : diskCommittedBlockIndexCache) (used : list string)
    (tr : list expiry.event) (res : option error) :
  expiry.runs (expiry.expireUnused rangeOf c used) tr res →
  (∃ e, tr = [expiry.Ev (expiry.ReadDir (dirname c)) (inr e)] ∧
        res = Some (Errorf ("can't list cache: " +:+ message e))) ∨
  (∃ entries rest,
     tr = expiry.Ev (expiry.ReadDir (dirname c)) (inl entries) :: rest ∧
     res = None).
Proof.
  intros H. apply expireUnused_runs in H as [H|(entries & rest & ? & ? & _)].
  - by left.
  - right. by exists entries, rest.
Qed.

Ltac expire_example_run :=
  unfold expiry.expireUnused;
  apply expiry_runs_bind; eexists [_], _, _;
  split; [reflexivity|]; split; [cbn; eexists _, _; done|];
  cbv beta iota;
  apply expiry_runs_bind; eexists _, [], ();
  split; [symmetry; apply app_nil_r|]; split; [|done];
  match goal with
  | |- expiry.runs (expiry.sweep _ ?l) _ _ =>
      let l' := eval vm_compute in l in
      replace l with l' by (vm_compute; reflexivity)
  end;
  cbn; repeat (eexists _, _; split; [reflexivity|cbn]); done.

Lemma expireUnused_fails_only_on_listing_witness :
  let c := mkCache "cache" in
  let busy := mkOsError false "remove cache/n2.sndx: access is denied" in
  let tr := [expiry.Ev (expiry.ReadDir "cache")
               (inl [expiry.mkFileInfo "n1.sndx" 0; expiry.mkFileInfo "n2.sndx" 0]);
             expiry.Ev expiry.Now 3600000000001;
             expiry.Ev (expiry.Debugf "removing unused %v %v"
                          [expiry.LString "n2.sndx"; expiry.LTime 0]) ();
             expiry.Ev (expiry.Remove "cache/n2.sndx") (Some busy);
             expiry.Ev (expiry.Warningf "unable to remove unused index file: %v"
                          [expiry.LError busy]) ()] in
  expiry.runs (expiry.expireUnused (λ m, (map_to_list m).*2) c ["n1"]) tr None ∧
  ((∃ e, tr = [expiry.Ev (expiry.ReadDir (dirname c)) (inr e)] ∧
         None = Some (Errorf ("can't list cache: " +:+ message e))) ∨
   (∃ entries rest,
      tr = expiry.Ev (expiry.ReadDir (dirname c)) (inl entries) :: rest ∧
      (None : option error) = None)).
Proof.
  intros c busy tr.
  assert (expiry.runs (expiry.expireUnused (λ m, (map_to_list m).*2) c ["n1"])
                      tr None) as Hrun by expire_example_run.
  split; [exact Hrun|].
  exact (expireUnused_fails_only_on_listing _ c ["n1"] tr None Hrun).
Defined.

(** X12 (committed_block_index_disk_cache.go, [expireUnused]): every path
    that [expireUnused] passes to [os.Remove] is that of a listed entry of
    the cache directory whose name ends in ".sndx", whose name without the
    suffix is not among the used IDs, and for which a clock reading of the
    call was more than an hour after its modification time. *)
Theorem expireUnused_removes_only_old_unused_indexes
    (rangeOf : gmap string expiry.FileInfo → list expiry.FileInfo)
    (c : diskCommittedBlockIndexCache) (used : list string)
    (entries : list expiry.FileInfo) (rest : list expiry.event)
    (res : option error) (path : string) :
  (∀ m, rangeOf m ≡ₚ (map_to_list m).*2) →
  expiry.runs (expiry.expireUnused rangeOf c used)
              (expiry.Ev (expiry.ReadDir (dirname c)) (inl entries) :: rest) res →
  path ∈ expiry.removals rest →
  ∃ ent now,
    ent ∈ entries ∧
    path = Join (dirname c) (expiry.Name ent) ∧
    expiry.HasSuffix (expiry.Name ent) simpleIndexSuffix = true ∧
    (expiry.TrimSuffix (expiry.Name ent) simpleIndexSuffix ∉ used) ∧
    now ∈ expiry.readings rest ∧
    now - expiry.ModTime ent > expiry.unusedCommittedBlockIndexCleanupTime.
Proof.
  intros Hrange H Hin.
  apply expireUnused_listed_runs in H as [_ H].
  destruct (sweep_removals_sound _ _ _ _ _ H Hin) as (rem & now & Hrem & Hnow & Hold & ->).
  apply (elem_of_rangeOf rangeOf Hrange) in Hrem as [k Hk].
  rewrite dropUsed_lookup in Hk.
  destruct (decide (k ∈ used)) as [|Hnu]; [done|].
  apply collect_lookup_Some in Hk as (? & ? & ->).
  by exists rem, now.
Qed.

Lemma expireUnused_removes_only_old_unused_indexes_witness :
  let c := mkCache "cache" in
  let busy := mkOsError false "remove cache/n2.sndx: access is denied" in
  let entries := [expiry.mkFileInfo "n1.sndx" 0; expiry.mkFileInfo "n2.sndx" 0;
                  expiry.mkFileInfo "notes.txt" 0] in
  let rest := [expiry.Ev expiry.Now 3600000000001;
               expiry.Ev (expiry.Debugf "removing unused %v %v"
                            [expiry.LString "n2.sndx"; expiry.LTime 0]) ();
               expiry.Ev (expiry.Remove "cache/n2.sndx") (Some busy);
               expiry.Ev (expiry.Warningf "unable to remove unused index file: %v"
                            [expiry.LError busy]) ()] in
  let tr := expiry.Ev (expiry.ReadDir "cache") (inl entries) :: rest in
  expiry.runs (expiry.expireUnused (λ m, (map_to_list m).*2) c ["n1"]) tr None ∧
  "cache/n2.sndx" ∈ expiry.removals rest ∧
  ∃ ent now,
    ent ∈ entries ∧
    "cache/n2.sndx" = Join (dirname c) (expiry.Name ent) ∧
    expiry.HasSuffix (expiry.Name ent) simpleIndexSuffix = true ∧
    (expiry.TrimSuffix (expiry.Name ent) simpleIndexSuffix ∉ ["n1"]) ∧
    now ∈ expiry.readings rest ∧
    now - expiry.ModTime ent > expiry.unusedCommittedBlockIndexCleanupTime.
Proof.
  intros c busy entries rest tr.
  assert (expiry.runs (expiry.expireUnused (λ m, (map_to_list m).*2) c ["n1"])
                      tr None) as Hrun by expire_example_run.
  assert ("cache/n2.sndx" ∈ expiry.removals rest) as Hin by (vm_compute; left).
  split; [exact Hrun|]. split; [exact Hin|].
  exact (expireUnused_removes_only_old_unused_indexes
           (λ m, (map_to_list m).*2) c ["n1"] entries rest None "cache/n2.sndx"
           (λ m, reflexivity _) Hrun Hin).
Defined.

(** X13 (committed_block_index_disk_cache.go, [expireUnused] with
    [indexBlockPath]): when the names of the listing hold no path
    separator, as the names that [ioutil.ReadDir] returns do,
    [expireUnused] never passes to [os.Remove] the path under which
    [addBlockToCache] keeps the index of a used ID that holds no path
    separator, whatever the clock says.  For such names [filepath.Join]
    gives equal paths under the cache directory only for equal names; an
    ID with a separator, such as "./n1", is outside the statement: its
    cleaned path is that of "n1", which is removed when "n1" is not
    used. *)
Theorem expireUnused_keeps_used
    (rangeOf : gmap string expiry.FileInfo → list expiry.FileInfo)
    (c : diskCommittedBlockIndexCache) (used : list string)
    (entries : list expiry.FileInfo) (rest : list expiry.event)
    (res : option error) (indexBlockID : string) :
  (∀ m, rangeOf m ≡ₚ (map_to_list m).*2) →
  expiry.runs (expiry.expireUnused rangeOf c used)
              (expiry.Ev (expiry.ReadDir (dirname c)) (inl entries) :: rest) res →
  Forall (λ ent, expiry.hasSeparator (expiry.Name ent) = false) entries →
  expiry.hasSeparator indexBlockID = false →
  indexBlockID ∈ used →
  indexBlockPath c indexBlockID ∉ expiry.removals rest.
Proof.
  intros Hrange H Hnames Hid Hused Hin.
  apply expireUnused_listed_runs in H as [_ H].
  destruct (sweep_removals_sound _ _ _ _ _ H Hin) as (rem & now & Hrem & _ & _ & Hpath).
  apply (elem_of_rangeOf rangeOf Hrange) in Hrem as [k Hk].
  rewrite dropUsed_lookup in Hk.
  destruct (decide (k ∈ used)) as [|Hnu]; [done|].
  apply collect_lookup_Some in Hk as (_ & _ & ->).
  apply Hnu. unfold indexBlockPath in Hpath. apply Join_inj in Hpath.
  by rewrite <- Hpath, TrimSuffix_app.
Qed.

Lemma expireUnused_keeps_used_witness :
  let c := mkCache "cache" in
  let busy := mkOsError false "remove cache/n2.sndx: access is denied" in
  let entries := [expiry.mkFileInfo "n1.sndx" 0; expiry.mkFileInfo "n2.sndx" 0;
                  expiry.mkFileInfo "notes.txt" 0] in
  let rest := [expiry.Ev expiry.Now 3600000000001;
               expiry.Ev (expiry.Debugf "removing unused %v %v"
                            [expiry.LString "n2.sndx"; expiry.LTime 0]) ();
               expiry.Ev (expiry.Remove "cache/n2.sndx") (Some busy);
               expiry.Ev (expiry.Warningf "unable to remove unused index file: %v"
                            [expiry.LError busy]) ()] in
  let tr := expiry.Ev (expiry.ReadDir "cache") (inl entries) :: rest in
  expiry.runs (expiry.expireUnused (λ m, (map_to_list m).*2) c ["n1"]) tr None ∧
  Forall (λ ent, expiry.hasSeparator (expiry.Name ent) = false) entries ∧
  expiry.hasSeparator "n1" = false ∧
  "n1" ∈ ["n1"] ∧
  indexBlockPath c "n1" ∉ expiry.removals rest.
Proof.
  intros c busy entries rest tr.
  assert (expiry.runs (expiry.expireUnused (λ m, (map_to_list m).*2) c ["n1"])
                      tr None) as Hrun by expire_example_run.
  assert (Forall (λ ent, expiry.hasSeparator (expiry.Name ent) = false) entries)
    as Hnames by (repeat constructor).
  assert ("n1" ∈ ["n1"]) as Hin by left.
  split; [exact Hrun|]. split; [exact Hnames|]. split; [reflexivity|].
  split; [exact Hin|].
  exact (expireUnused_keeps_used
           (λ m, (map_to_list m).*2) c ["n1"] entries rest None "n1"
           (λ m, reflexivity _) Hrun Hnames eq_refl Hin).
Defined.

(** X14 (committed_block_index_disk_cache.go, [expireUnused]): when the
    listing has distinct names, [expireUnused] passes to [os.Remove] the
    path of every listed entry whose name ends in ".sndx", whose name
    without the suffix is not among the used IDs, and that every clock
    reading of the call found more than an hour old. *)
Theorem expireUnused_removes_every_old_unused_index
    (rangeOf : gmap string expiry.FileInfo → list expiry.FileInfo)
    (c : diskCommittedBlockIndexCache) (used : list string)
    (entries : list expiry.FileInfo) (rest : list expiry.event)
    (res : option error) (ent : expiry.FileInfo) :
  (∀ m, rangeOf m ≡ₚ (map_to_list m).*2) →
  expiry.runs (expiry.expireUnused rangeOf c used)
              (expiry.Ev (expiry.ReadDir (dirname c)) (inl entries) :: rest) res →
  NoDup (expiry.Name <$> entries) →
  ent ∈ entries →
  expiry.HasSuffix (expiry.Name ent) simpleIndexSuffix = true →
  expiry.TrimSuffix (expiry.Name ent) simpleIndexSuffix ∉ used →
  (∀ now, now ∈ expiry.readings rest →
     now - expiry.ModTime ent > expiry.unusedCommittedBlockIndexCleanupTime) →
  Join (dirname c) (expiry.Name ent) ∈ expiry.removals rest.
Proof.
  intros Hrange H Hnd Hin Hs Hnu Hold.
  apply expireUnused_listed_runs in H as [_ H].
  eapply sweep_removals_complete; [exact H| |exact Hold].
  apply (elem_of_rangeOf rangeOf Hrange).
  exists (expiry.TrimSuffix (expiry.Name ent) simpleIndexSuffix).
  rewrite dropUsed_lookup, decide_False by done.
  by apply collect_lookup_complete.
Qed.

Lemma expireUnused_removes_every_old_unused_index_witness :
  let c := mkCache "cache" in
  let busy := mkOsError false "remove cache/n2.sndx: access is denied" in
  let entries := [expiry.mkFileInfo "n1.sndx" 0; expiry.mkFileInfo "n2.sndx" 0;
                  expiry.mkFileInfo "notes.txt" 0] in
  let rest := [expiry.Ev expiry.Now 3600000000001;
               expiry.Ev (expiry.Debugf "removing unused %v %v"
                            [expiry.LString "n2.sndx"; expiry.LTime 0]) ();
               expiry.Ev (expiry.Remove "cache/n2.sndx") (Some busy);
               expiry.Ev (expiry.Warningf "unable to remove unused index file: %v"
                            [expiry.LError busy]) ()] in
  let tr := expiry.Ev (expiry.ReadDir "cache") (inl entries) :: rest in
  expiry.runs (expiry.expireUnused (λ m, (map_to_list m).*2) c ["n1"]) tr None ∧
  NoDup (expiry.Name <$> entries) ∧
  Join (dirname c) "n2.sndx" ∈ expiry.removals rest.
Proof.
  intros c busy entries rest tr.
  assert (expiry.runs (expiry.expireUnused (λ m, (map_to_list m).*2) c ["n1"])
                      tr None) as Hrun by expire_example_run.
  assert (NoDup (expiry.Name <$> entries)) as Hnd.
  { apply (bool_decide_unpack _). vm_compute. exact I. }
  split; [exact Hrun|]. split; [exact Hnd|].
  apply (expireUnused_removes_every_old_unused_index
           (λ m, (map_to_list m).*2) c ["n1"] entries rest None
           (expiry.mkFileInfo "n2.sndx" 0) (λ m, reflexivity _) Hrun Hnd).
  - right. left.
  - vm_compute. reflexivity.
  - apply (bool_decide_unpack _). vm_compute. exact I.
  - intros now Hnow. change (expiry.readings rest) with [3600000000001] in Hnow.
    apply list_elem_of_singleton in Hnow as ->.
    unfold expiry.unusedCommittedBlockIndexCleanupTime. simpl. lia.
Defined.

(** X15 (committed_block_index_disk_cache.go, [expireUnused]): no path is
    passed to [os.Remove] twice in one call, also when the listing
    repeats a name. *)
Theorem expireUnused_removes_once
    (rangeOf : gmap string expiry.FileInfo → list expiry.FileInfo)
    (c : diskCommittedBlockIndexCache) (used : list string)
    (tr : list expiry.event) (res : option error) :
  (∀ m, rangeOf m ≡ₚ (map_to_list m).*2) →
  expiry.runs (expiry.expireUnused rangeOf c used) tr res →
  NoDup (expiry.removals tr).
Proof.
  intros Hrange H.
  apply expireUnused_runs in H as [(e & -> & _)|(entries & rest & -> & _ & H)].
  { constructor. }
  change (NoDup (expiry.removals rest)).
  eapply sublist_NoDup; [|by eapply sweep_removals_sublist].
  rewrite Hrange.
  set (m := expiry.dropUsed (expiry.collect entries) used).
  assert ((λ rem, Join (dirname c) (expiry.Name rem)) <$> (map_to_list m).*2
          = (λ k, Join (dirname c) (k +:+ simpleIndexSuffix)) <$> (map_to_list m).*1)
    as ->.
  { rewrite <- !list_fmap_compose. apply Forall_fmap_ext_1, Forall_forall.
    intros [k rem] Hk. apply elem_of_map_to_list in Hk. simpl.
    unfold m in Hk. rewrite dropUsed_lookup in Hk.
    destruct (decide (k ∈ used)); [done|].
    apply collect_lookup_Some in Hk as (_ & Hs & ->).
    by rewrite <- (HasSuffix_split _ _ Hs). }
  apply NoDup_fmap_2; [|apply NoDup_fst_map_to_list].
  intros k1 k2 Hk. apply Join_inj in Hk.
  by apply string_app_inj_r in Hk.
Qed.

Lemma expireUnused_removes_once_witness :
  let c := mkCache "cache" in
  let busy := mkOsError false "remove cache/n2.sndx: access is denied" in
  let entries := [expiry.mkFileInfo "n1.sndx" 0; expiry.mkFileInfo "n2.sndx" 0;
                  expiry.mkFileInfo "notes.txt" 0] in
  let rest := [expiry.Ev expiry.Now 3600000000001;
               expiry.Ev (expiry.Debugf "removing unused %v %v"
                            [expiry.LString "n2.sndx"; expiry.LTime 0]) ();
               expiry.Ev (expiry.Remove "cache/n2.sndx") (Some busy);
               expiry.Ev (expiry.Warningf "unable to remove unused index file: %v"
                            [expiry.LError busy]) ()] in
  let tr := expiry.Ev (expiry.ReadDir "cache") (inl entries) :: rest in
  expiry.runs (expiry.expireUnused (λ m, (map_to_list m).*2) c ["n1"]) tr None ∧
  NoDup (expiry.removals tr).
Proof.
  intros c busy entries rest tr.
  assert (expiry.runs (expiry.expireUnused (λ m, (map_to_list m).*2) c ["n1"])
                      tr None) as Hrun by expire_example_run.
  split; [exact Hrun|].
  exact (expireUnused_removes_once
           (λ m, (map_to_list m).*2) c ["n1"] tr None (λ m, reflexivity _) Hrun).
Defined.

Section QuietDirectory.

Variable rangeOf : gmap string expiry.FileInfo → list expiry.FileInfo.
Hypothesis rangeOf_values : ∀ m, rangeOf m ≡ₚ (map_to_list m).*2.

Implicit Types (c : diskCommittedBlockIndexCache) (rem ent : expiry.FileInfo)
               (s : expiry.cachedir).

Lemma expiry_interp_bind {A B} (m : expiry.io A) (f : A → expiry.io B) s :
  expiry.interp (m ≫= f) s
  = let '(a, tr1, s1) := expiry.interp m s in
    let '(b, tr2, s2) := expiry.interp (f a) s1 in
    (b, tr1 ++ tr2, s2).
Proof.
  revert s. induction m as [a|X c k IH]; intros s.
  - change (expiry.interp (f a) s
            = let '(b, tr2, s2) := expiry.interp (f a) s in (b, [] ++ tr2, s2)).
    by destruct (expiry.interp (f a) s) as [[b tr2] s2].
  - change (expiry.interp (expiry.Vis c (λ x, k x ≫= f)) s
            = let '(a, tr1, s1) := expiry.interp (expiry.Vis c k) s in
              let '(b, tr2, s2) := expiry.interp (f a) s1 in
              (b, tr1 ++ tr2, s2)).
    simpl. destruct (expiry.cachedir_respond X c s) as [r s1].
    rewrite IH.
    destruct (expiry.interp (k r) s1) as [[a tr1] s2].
    by destruct (expiry.interp (f a) s2) as [[b tr2] s3].
Qed.

(** In a quiet directory [os.Remove] of a path under it deletes the file
    of that name, if there is one. *)
Lemma cachedir_Remove s name :
  ∃ r, expiry.cachedir_respond _ (expiry.Remove (Join (expiry.dirpath s) name)) s
       = (r, expiry.mkCachedir (expiry.dirpath s)
                               (delete name (expiry.mtimes s)) (expiry.clock s)).
Proof.
  simpl.
  destruct (list_find _ _) as [[i [n t]]|] eqn:E.
  - apply list_find_Some in E as (_ & Hn & _). apply Join_inj in Hn as ->.
    by eexists.
  - eexists. f_equal. destruct s as [d m t]. simpl in *. f_equal.
    symmetry. apply delete_id.
    destruct (m !! name) as [t'|] eqn:Hl; [|done]. exfalso.
    apply list_find_None in E.
    apply elem_of_map_to_list in Hl.
    rewrite Forall_forall in E. by apply (E _ Hl).
Qed.

Lemma sweep_interp c rems : ∀ s,
  expiry.dirpath s = dirname c →
  ∃ tr,
    expiry.interp (expiry.sweep c rems) s
    = ((), tr,
       expiry.mkCachedir (expiry.dirpath s)
         (foldl (λ m rem,
                   if decide (expiry.clock s - expiry.ModTime rem
                              > expiry.unusedCommittedBlockIndexCleanupTime)
                   then delete (expiry.Name rem) m else m)
                (expiry.mtimes s) rems)
         (expiry.clock s)).
Proof.
  induction rems as [|rem rems IH]; intros s Hd.
  { exists []. by destruct s. }
  cbn [expiry.sweep foldl].
  unfold expiry.perform, mbind, expiry.io_mbind.
  cbn [expiry.io_bind expiry.interp expiry.cachedir_respond].
  destruct (decide (expiry.clock s - expiry.ModTime rem
                    > expiry.unusedCommittedBlockIndexCleanupTime)).
  - cbn [expiry.io_bind expiry.interp].
    change (expiry.cachedir_respond unit (expiry.Debugf ?f ?a) s) with ((), s).
    cbv beta iota. rewrite <- Hd.
    destruct (cachedir_Remove s (expiry.Name rem)) as [r ->].
    set (s1 := expiry.mkCachedir _ _ _).
    destruct (IH s1 Hd) as [tr Htr].
    destruct r as [e|]; cbn [expiry.io_bind expiry.interp expiry.cachedir_respond];
      rewrite Htr; by eexists.
  - cbn [expiry.io_bind expiry.interp expiry.cachedir_respond].
    destruct (IH s Hd) as [tr ->]. by eexists.
Qed.

Lemma foldl_delete_lookup_None (old : expiry.FileInfo → Prop)
    `{!∀ rem, Decision (old rem)} rems : ∀ (m : gmap string Z) rem,
  rem ∈ rems → old rem →
  foldl (λ m rem, if decide (old rem) then delete (expiry.Name rem) m else m)
        m rems !! expiry.Name rem = None.
Proof.
  induction rems as [|r rems IH]; intros m rem Hin Hold.
  { by apply elem_of_nil in Hin. }
  simpl. destruct (decide (rem ∈ rems)) as [Hin'|Hnin]; [by apply IH|].
  apply elem_of_cons in Hin as [<-|Hin]; [|done].
  rewrite decide_True by done.
  clear IH Hnin.
  assert (∀ m0 : gmap string Z, m0 !! expiry.Name rem = None →
          foldl (λ m rem, if decide (old rem) then delete (expiry.Name rem) m else m)
                m0 rems !! expiry.Name rem = None) as Hgen.
  { induction rems as [|r rems IH]; intros m0 H0; simpl; [done|].
    apply IH. destruct (decide (old r)); [|done].
    destruct (decide (expiry.Name r = expiry.Name rem)) as [->|Hne].
    - by rewrite lookup_delete_eq.
    - by rewrite lookup_delete_ne. }
  apply Hgen, lookup_delete_eq.
Qed.

Lemma foldl_delete_lookup_other (old : expiry.FileInfo → Prop)
    `{!∀ rem, Decision (old rem)} rems : ∀ (m : gmap string Z) n,
  (∀ rem, rem ∈ rems → old rem → expiry.Name rem ≠ n) →
  foldl (λ m rem, if decide (old rem) then delete (expiry.Name rem) m else m)
        m rems !! n = m !! n.
Proof.
  induction rems as [|r rems IH]; intros m n Hn; simpl; [done|].
  rewrite IH by (intros; apply Hn; [by right|done]).
  destruct (decide (old r)) as [Ho|]; [|done].
  rewrite lookup_delete_ne; [done|]. apply Hn; [left|done].
Qed.

End QuietDirectory.

(** X16 (committed_block_index_disk_cache.go, [expireUnused]): in a cache
    directory where nothing fails and nothing else happens, a call of
    [expireUnused] returns nil and leaves exactly the files that do not
    end in ".sndx", or whose name without the suffix is a used ID, or
    that were modified at most an hour before the time of the call. *)
Theorem expireUnused_quiet_directory
    (rangeOf : gmap string expiry.FileInfo → list expiry.FileInfo)
    (c : diskCommittedBlockIndexCache) (used : list string)
    (s : expiry.cachedir) :
  (∀ m, rangeOf m ≡ₚ (map_to_list m).*2) →
  expiry.dirpath s = dirname c →
  ∃ tr s',
    expiry.interp (expiry.expireUnused rangeOf c used) s = (None, tr, s') ∧
    expiry.dirpath s' = expiry.dirpath s ∧
    expiry.clock s' = expiry.clock s ∧
    expiry.mtimes s'
    = filter (λ kv, ¬ (expiry.HasSuffix kv.1 simpleIndexSuffix = true ∧
                       (expiry.TrimSuffix kv.1 simpleIndexSuffix ∉ used) ∧
                       expiry.clock s - kv.2
                       > expiry.unusedCommittedBlockIndexCleanupTime))
             (expiry.mtimes s).
Proof.
  intros Hrange Hd.
  unfold expiry.expireUnused.
  rewrite expiry_interp_bind.
  cbn [expiry.perform expiry.interp expiry.cachedir_respond].
  set (entries := (λ '(n, t), expiry.mkFileInfo n t) <$> map_to_list (expiry.mtimes s)).
  cbv beta iota. rewrite expiry_interp_bind.
  set (rems := rangeOf (expiry.dropUsed (expiry.collect entries) used)).
  destruct (sweep_interp c rems s Hd) as [tr ->].
  cbn [expiry.interp]. eexists _, _. split; [reflexivity|].
  split; [done|]. split; [done|]. cbn [expiry.mtimes].
  assert (∀ ent, ent ∈ entries ↔
                 expiry.mtimes s !! expiry.Name ent = Some (expiry.ModTime ent))
    as Hent.
  { intros ent. unfold entries. rewrite list_elem_of_fmap. split.
    - intros ([n t] & -> & H). by apply elem_of_map_to_list in H.
    - intros H. exists (expiry.Name ent, expiry.ModTime ent).
      split; [by destruct ent|]. by apply elem_of_map_to_list. }
  assert (NoDup (expiry.Name <$> entries)) as Hnd.
  { unfold entries. rewrite <- list_fmap_compose.
    assert ((expiry.Name ∘ (λ '(n, t), expiry.mkFileInfo n t))
              <$> map_to_list (expiry.mtimes s)
            = (map_to_list (expiry.mtimes s)).*1) as ->.
    { apply list_fmap_ext. by intros i [n t] _. }
    apply NoDup_fst_map_to_list. }
  assert (∀ rem, rem ∈ rems ↔
                 rem ∈ entries ∧
                 expiry.HasSuffix (expiry.Name rem) simpleIndexSuffix = true ∧
                 (expiry.TrimSuffix (expiry.Name rem) simpleIndexSuffix ∉ used))
    as Hrems.
  { intros rem. unfold rems. rewrite (elem_of_rangeOf rangeOf Hrange). split.
    - intros [k Hk]. rewrite dropUsed_lookup in Hk.
      destruct (decide (k ∈ used)); [done|].
      by apply collect_lookup_Some in Hk as (? & ? & ->).
    - intros (Hin & Hs & Hnu).
      exists (expiry.TrimSuffix (expiry.Name rem) simpleIndexSuffix).
      rewrite dropUsed_lookup, decide_False by done.
      by apply collect_lookup_complete. }
  apply map_eq. intros n.
  destruct (expiry.mtimes s !! n) as [t|] eqn:Hn.
  - destruct (decide (expiry.HasSuffix n simpleIndexSuffix = true ∧
                      (expiry.TrimSuffix n simpleIndexSuffix ∉ used) ∧
                      expiry.clock s - t
                      > expiry.unusedCommittedBlockIndexCleanupTime))
      as [(Hs & Hnu & Hold)|Hkeep].
    + rewrite (proj2 (map_lookup_filter_None _ _ n)).
      * apply (foldl_delete_lookup_None
                 (λ rem, expiry.clock s - expiry.ModTime rem
                         > expiry.unusedCommittedBlockIndexCleanupTime)
                 rems _ (expiry.mkFileInfo n t)); [|done].
        apply Hrems. split; [by apply Hent|done].
      * right. intros t' Ht'. simpl. rewrite Hn in Ht'. injection Ht' as <-.
        intros Hno. by apply Hno.
    + rewrite foldl_delete_lookup_other.
      * rewrite Hn. symmetry. apply map_lookup_filter_Some. done.
      * intros rem Hrem Hold <-.
        apply Hrems in Hrem as (Hin & Hs & Hnu).
        apply Hent in Hin. rewrite Hn in Hin. injection Hin as ->.
        by apply Hkeep.
  - rewrite foldl_delete_lookup_other.
    + rewrite Hn. symmetry. apply map_lookup_filter_None. by left.
    + intros rem Hrem _ <-.
      apply Hrems in Hrem as (Hin & _). apply Hent in Hin. by rewrite Hn in Hin.
Qed.

Lemma expireUnused_quiet_directory_witness :
  let c := mkCache "cache" in
  let s := expiry.mkCachedir "cache"
             (<["n1.sndx" := 0]> (<["n2.sndx" := 0]> (<["n3.sndx" := 5000000000000]>
                (<["notes.txt" := 0]> ∅))))
             7200000000000 in
  ∃ tr s',
    expiry.interp (expiry.expireUnused (λ m, (map_to_list m).*2) c ["n1"]) s
    = (None, tr, s') ∧
    expiry.mtimes s'
    = <["n1.sndx" := 0]> (<["n3.sndx" := 5000000000000]> (<["notes.txt" := 0]> ∅)).
Proof.
  intros c s.
  destruct (expireUnused_quiet_directory (λ m, (map_to_list m).*2) c ["n1"] s
              (λ m, reflexivity _) eq_refl) as (tr & s' & Hrun & _ & _ & Hm).
  exists tr, s'. split; [exact Hrun|].
  rewrite Hm. vm_compute. reflexivity.
Defined.

(** ** storage/logging: what [ListBlocks] logs, and the options of
    [NewWrapper] *)

(** X17 (storage/logging, [loggingStorage.ListBlocks]): a [ListBlocks]
    through the wrapper makes one [printf] call after the listing, and the
    item count it logs is the number of times the caller's callback was
    invoked, also when the listing ends early with an error; the log line
    carries the prefix, the listing prefix, the error and the elapsed
    time. *)
Theorem ListBlocks_logs_callback_count {W Log Ctx Err ConnInfo C : Type}
    (now : W → Z) (s : logging.loggingStorage W Log Ctx Err ConnInfo)
    (ctx : Ctx) (pfx : string) (cb : storage.callback W Err C)
    (w : W) (c : C) (lg : Log) :
  logging.ListBlocks now s ctx pfx cb w c lg
  = let '(err, w1, c1, seen) :=
      storage.callListBlocks (logging.base s) ctx pfx cb w c in
    (err, w1, c1, seen,
     logging.printf s
       (logging.prefix s +:+ "ListBlocks(%q)=%v returned %v items and took %v")
       [logging.AString pfx; logging.AError err; logging.AInt (len seen);
        logging.ADuration (now w1 - now w)] lg).
Proof.
  unfold logging.ListBlocks, storage.callListBlocks.
  rewrite drive_countingCallback.
  by destruct (storage.drive cb _ c) as [[[err w1] c1] seen].
Qed.

Section WrapperOptions.

Context {W Log Ctx Err ConnInfo : Type}.

Implicit Types (s : logging.loggingStorage W Log Ctx Err ConnInfo)
               (options : list (logging.Option W Log Ctx Err ConnInfo)).

Lemma foldl_Output_prefix options : ∀ s,
  Forall (λ o, ∃ f, o = logging.Output f) options →
  logging.prefix (foldl (λ s o, o s) s options) = logging.prefix s.
Proof.
  induction options as [|o options IH]; intros s Hall; simpl; [done|].
  apply Forall_cons in Hall as [[f ->] Hall]. by rewrite IH.
Qed.

Lemma foldl_Prefix_printf options : ∀ s,
  Forall (λ o, ∃ p, o = logging.Prefix p) options →
  logging.printf (foldl (λ s o, o s) s options) = logging.printf s.
Proof.
  induction options as [|o options IH]; intros s Hall; simpl; [done|].
  apply Forall_cons in Hall as [[p ->] Hall]. by rewrite IH.
Qed.

End WrapperOptions.

(** X18 (storage/logging, [NewWrapper], [Output], [Prefix]): a wrapper
    made by [NewWrapper] from options of the package wraps the given
    store; without a [Prefix] option its prefix is empty and without an
    [Output] option it prints through [log.Debugf]; otherwise the last
    [Prefix] and the last [Output] given are the ones in force. *)
Theorem NewWrapper_options {W Log Ctx Err ConnInfo : Type}
    (debugf : string → list logging.arg → Log → Log)
    (wrapped : storage.Storage W Ctx Err ConnInfo)
    (options : list (logging.Option W Log Ctx Err ConnInfo)) :
  Forall (λ o, (∃ f, o = logging.Output f) ∨ (∃ p, o = logging.Prefix p)) options →
  let s := logging.NewWrapper debugf wrapped options in
  logging.base s = wrapped ∧
  (Forall (λ o, ∃ f, o = logging.Output f) options → logging.prefix s = "") ∧
  (Forall (λ o, ∃ p, o = logging.Prefix p) options → logging.printf s = debugf) ∧
  (∀ before p after,
     options = before ++ logging.Prefix p :: after →
     Forall (λ o, ∃ f, o = logging.Output f) after →
     logging.prefix s = p) ∧
  (∀ before f after,
     options = before ++ logging.Output f :: after →
     Forall (λ o, ∃ p, o = logging.Prefix p) after →
     logging.printf s = f).
Proof.
  intros Hall s. split; [by apply NewWrapper_base|].
  unfold s, logging.NewWrapper.
  split; [intros H; by rewrite foldl_Output_prefix|].
  split; [intros H; by rewrite foldl_Prefix_printf|].
  split.
  - intros before p after -> H. rewrite foldl_app. simpl.
    by rewrite foldl_Output_prefix.
  - intros before f after -> H. rewrite foldl_app. simpl.
    by rewrite foldl_Prefix_printf.
Qed.

Lemma NewWrapper_options_witness :
  let debugf : string → list logging.arg → list string → list string :=
    λ fmt _ lg, lg ++ [fmt] in
  let quiet : string → list logging.arg → list string → list string :=
    λ _ _ lg, lg in
  let wrapped : storage.Storage nat unit string string :=
    storage.mkStorage (λ _ _ _ _ w, (([], None), w)) (λ _ _ _ w, (None, S w))
                      (λ _ _ w, (None, w)) (λ _ _ w, storage.LDone None w)
                      (λ _ w, (None, w)) (λ w, ("map", w)) in
  let s := logging.NewWrapper debugf wrapped
             [logging.Prefix "[a] "; logging.Output quiet; logging.Prefix "[b] "] in
  logging.base s = wrapped ∧ logging.prefix s = "[b] " ∧ logging.printf s = quiet.
Proof.
  intros debugf quiet wrapped s.
  destruct (NewWrapper_options debugf wrapped
              [logging.Prefix "[a] "; logging.Output quiet; logging.Prefix "[b] "])
    as (Hbase & _ & _ & Hprefix & Hprintf).
  { apply Forall_cons; split; [right; by eexists|].
    apply Forall_cons; split; [left; by eexists|].
    apply Forall_cons; split; [right; by eexists|]. constructor. }
  split; [exact Hbase|]. split.
  - apply (Hprefix [logging.Prefix "[a] "; logging.Output quiet] "[b] " []);
      [reflexivity|constructor].
  - apply (Hprintf [logging.Prefix "[a] "] quiet [logging.Prefix "[b] "]);
      [reflexivity|]. repeat constructor. by eexists.
Defined.
